(** * Lid-driven cavity solver: a shallow embedding of
      DrivenCavity.template-to-students.UPDATED.cpp

    Numbers.  A C++ [double] is modelled by a real number ([R]); [abs], [max],
    [min] and [sqrt] on doubles are [Rabs], [Rmax], [Rmin] and [sqrt].  Rounding
    is therefore not part of the model: every statement below is a statement in
    exact real arithmetic.  Neither are overflow, infinities and NaN: a
    quotient is total on [R], whereas the code produces an infinity or a NaN
    when the divisor is zero, so a statement about a quotient whose divisor
    the code does not control carries the hypothesis that it is not zero.
    An [int] is a [Z]; the grid of the program is 65 x 65 x 3, so no index
    computation wraps around.

    Memory.  [Array3] and [Array2] own a flat buffer [double *data]; the
    accessors compute the flat index [i*jdim*kdim + j*kdim + k] (resp.
    [i*jdim + j]) and perform no bounds check.  A buffer is modelled as a total
    map [Z -> R], so that an access outside the logical index domain is still
    an access to a definite flat index, exactly as in the compiled program.
    Every array of the program is constructed in [main] with the dimensions
    [(imax, jmax, neq)] or [(imax, jmax)]; [imax] and [jmax] are preprocessor
    constants of the source (65 and 65) and are variables of the development.

    Locals that a function reads before it has assigned them (this happens in
    [Compute_Artificial_Viscosity]) hold an indeterminate value, which the model
    takes as an extra argument of the function.  The model lets this value
    range over the real numbers; an uninitialised [double] can also be an
    infinity or a NaN, and the function then stores NaN where the model
    stores 0.  A lemma below that gives a value stored by this function is a
    lemma about the model; the properties stated of the program compare the
    stored value with the specified one on a concrete field, where the two
    differ whichever of 0 and NaN the code stores, or are about which cells
    are assigned. *)

From Stdlib Require Import ZArith List Lia Reals Lra Psatz.
Import ListNotations.

Open Scope Z_scope.

(** ** Loops *)

(** [for (i = lo; i < hi; i++) body] *)
Fixpoint iter_up {St : Type} (n : nat) (i : Z) (body : Z -> St -> St) (s : St) : St :=
  match n with
  | O => s
  | S n' => iter_up n' (i + 1) body (body i s)
  end.

Definition for_lt {St : Type} (lo hi : Z) (body : Z -> St -> St) (s : St) : St :=
  iter_up (Z.to_nat (hi - lo)) lo body s.

(** [for (i = hi; i > lo; i--) body] *)
Fixpoint iter_down {St : Type} (n : nat) (i : Z) (body : Z -> St -> St) (s : St) : St :=
  match n with
  | O => s
  | S n' => iter_down n' (i - 1) body (body i s)
  end.

Definition for_gt {St : Type} (hi lo : Z) (body : Z -> St -> St) (s : St) : St :=
  iter_down (Z.to_nat (hi - lo)) hi body s.

(** ** Flat buffers *)

Definition buffer : Type := Z -> R.

Definition upd (b : buffer) (n : Z) (v : R) : buffer :=
  fun m => if Z.eq_dec m n then v else b m.

(** [memcpy(dst, src, len*sizeof(double))] *)
Definition memcpy (dst src : buffer) (len : Z) : buffer :=
  fun m => if Z_le_dec 0 m then (if Z_lt_dec m len then src m else dst m) else dst m.

(** ** Recording reads

    A cell index triple [(i, j, k)] names one access [u(i,j,k)].  An expression
    that reads the field evaluates, in [Rd], to its value together with the
    accesses it performed, in program order. *)
Definition Idx : Type := (Z * Z * Z)%type.

Definition Rd (A : Type) : Type := (list Idx * A)%type.

Definition rd_ret {A : Type} (a : A) : Rd A := ([], a).

Definition rd_bind {A B : Type} (m : Rd A) (f : A -> Rd B) : Rd B :=
  (fst m ++ fst (f (snd m)), snd (f (snd m))).

Notation "x <- m ;; f" := (rd_bind m (fun x => f))
  (at level 61, m at next level, right associativity).

(** ** Numerical constants and user inputs (lines 27-67) *)

Open Scope R_scope.

Definition zero : R := 0.
Definition one : R := 1.
Definition two : R := 2.

Definition neq : Z := 3.
Definition nmax : Z := 500000.

Definition cfl : R := 9 / 10.
Definition Cx : R := 1 / 100.
Definition Cy : R := 1 / 100.
Definition toler : R := / IZR (10 ^ 10).
Definition rkappa : R := 1 / 10.
Definition Re : R := 100.
Definition pinf : R := 801333844662 / 1000000000000.
Definition uinf : R := 1.
Definition rho : R := 1.
Definition xmin : R := 0.
Definition xmax : R := 5 / 100.
Definition ymin : R := 0.
Definition ymax : R := 5 / 100.

(** [double dtmin = 1.0e99;] in [main] *)
Definition dtmin_main : R := IZR (10 ^ 99).

(** MMS constants (lines 80-89), as functions of the equation index. *)
Definition tab3 (a b c : R) (k : Z) : R :=
  if Z.eq_dec k 0 then a else if Z.eq_dec k 1 then b else c.

Definition phi0 : Z -> R := tab3 (25 / 100) (3 / 10) (2 / 10).
Definition phix : Z -> R := tab3 (5 / 10) (15 / 100) (1 / 6).
Definition phiy : Z -> R := tab3 (4 / 10) (2 / 10) (25 / 100).
Definition phixy : Z -> R := tab3 (1 / 3) (25 / 100) (1 / 10).
Definition apx : Z -> R := tab3 (5 / 10) (1 / 3) (7 / 17).
Definition apy : Z -> R := tab3 (2 / 10) (25 / 100) (1 / 6).
Definition apxy : Z -> R := tab3 (2 / 7) (4 / 10) (1 / 3).
Definition fsinx : Z -> R := tab3 0 1 0.
Definition fsiny : Z -> R := tab3 1 0 0.
Definition fsinxy : Z -> R := tab3 1 1 0.

(** Derived inputs that do not depend on the grid ([set_derived_inputs]). *)
Definition rhoinv : R := one / rho.
Definition rlength : R := xmax - xmin.
Definition rmu : R := rho * uinf * rlength / Re.
Definition vel2ref : R := uinf * uinf.
Definition rpi : R := acos (- one).

(** [umms] (lines 669-699): the manufactured exact solution. *)
Definition umms (x y : R) (k : Z) : R :=
  let argx := apx k * rpi * x / rlength in
  let argy := apy k * rpi * y / rlength in
  let argxy := apxy k * rpi * x * y / rlength / rlength in
  let termx := phix k * (fsinx k * sin argx + (one - fsinx k) * cos argx) in
  let termy := phiy k * (fsiny k * sin argy + (one - fsiny k) * cos argy) in
  let termxy := phixy k * (fsinxy k * sin argxy + (one - fsinxy k) * cos argxy) in
  phi0 k + termx + termy + termxy.

(** [srcmms_mass], [srcmms_xmtm], [srcmms_ymtm] (lines 733-858): the
    manufactured source terms. *)
Definition srcmms_mass (x y : R) : R :=
  let dudx := phix 1 * apx 1 * rpi / rlength * cos (apx 1 * rpi * x / rlength)
              + phixy 1 * apxy 1 * rpi * y / rlength / rlength
                * cos (apxy 1 * rpi * x * y / rlength / rlength) in
  let dvdy := - phiy 2 * apy 2 * rpi / rlength * sin (apy 2 * rpi * y / rlength)
              - phixy 2 * apxy 2 * rpi * x / rlength / rlength
                * sin (apxy 2 * rpi * x * y / rlength / rlength) in
  rho * dudx + rho * dvdy.

Definition srcmms_xmtm (x y : R) : R :=
  let termx := phix 1 * sin (apx 1 * rpi * x / rlength) in
  let termy := phiy 1 * cos (apy 1 * rpi * y / rlength) in
  let termxy := phixy 1 * sin (apxy 1 * rpi * x * y / rlength / rlength) in
  let uvel := phi0 1 + termx + termy + termxy in
  let termx := phix 2 * cos (apx 2 * rpi * x / rlength) in
  let termy := phiy 2 * cos (apy 2 * rpi * y / rlength) in
  let termxy := phixy 2 * cos (apxy 2 * rpi * x * y / rlength / rlength) in
  let vvel := phi0 2 + termx + termy + termxy in
  let dudx := phix 1 * apx 1 * rpi / rlength * cos (apx 1 * rpi * x / rlength)
              + phixy 1 * apxy 1 * rpi * y / rlength / rlength
                * cos (apxy 1 * rpi * x * y / rlength / rlength) in
  let dudy := - phiy 1 * apy 1 * rpi / rlength * sin (apy 1 * rpi * y / rlength)
              + phixy 1 * apxy 1 * rpi * x / rlength / rlength
                * cos (apxy 1 * rpi * x * y / rlength / rlength) in
  let dpdx := - phix 0 * apx 0 * rpi / rlength * sin (apx 0 * rpi * x / rlength)
              + phixy 0 * apxy 0 * rpi * y / rlength / rlength
                * cos (apxy 0 * rpi * x * y / rlength / rlength) in
  let d2udx2 := - phix 1 * (apx 1 * rpi / rlength) ^ 2 * sin (apx 1 * rpi * x / rlength)
                - phixy 1 * (apxy 1 * rpi * y / rlength / rlength) ^ 2
                  * sin (apxy 1 * rpi * x * y / rlength / rlength) in
  let d2udy2 := - phiy 1 * (apy 1 * rpi / rlength) ^ 2 * cos (apy 1 * rpi * y / rlength)
                - phixy 1 * (apxy 1 * rpi * x / rlength / rlength) ^ 2
                  * sin (apxy 1 * rpi * x * y / rlength / rlength) in
  rho * uvel * dudx + rho * vvel * dudy + dpdx - rmu * (d2udx2 + d2udy2).

Definition srcmms_ymtm (x y : R) : R :=
  let termx := phix 1 * sin (apx 1 * rpi * x / rlength) in
  let termy := phiy 1 * cos (apy 1 * rpi * y / rlength) in
  let termxy := phixy 1 * sin (apxy 1 * rpi * x * y / rlength / rlength) in
  let uvel := phi0 1 + termx + termy + termxy in
  let termx := phix 2 * cos (apx 2 * rpi * x / rlength) in
  let termy := phiy 2 * cos (apy 2 * rpi * y / rlength) in
  let termxy := phixy 2 * cos (apxy 2 * rpi * x * y / rlength / rlength) in
  let vvel := phi0 2 + termx + termy + termxy in
  let dvdx := - phix 2 * apx 2 * rpi / rlength * sin (apx 2 * rpi * x / rlength)
              - phixy 2 * apxy 2 * rpi * y / rlength / rlength
                * sin (apxy 2 * rpi * x * y / rlength / rlength) in
  let dvdy := - phiy 2 * apy 2 * rpi / rlength * sin (apy 2 * rpi * y / rlength)
              - phixy 2 * apxy 2 * rpi * x / rlength / rlength
                * sin (apxy 2 * rpi * x * y / rlength / rlength) in
  let dpdy := phiy 0 * apy 0 * rpi / rlength * cos (apy 0 * rpi * y / rlength)
              + phixy 0 * apxy 0 * rpi * x / rlength / rlength
                * cos (apxy 0 * rpi * x * y / rlength / rlength) in
  let d2vdx2 := - phix 2 * (apx 2 * rpi / rlength) ^ 2 * cos (apx 2 * rpi * x / rlength)
                - phixy 2 * (apxy 2 * rpi * y / rlength / rlength) ^ 2
                  * cos (apxy 2 * rpi * x * y / rlength / rlength) in
  let d2vdy2 := - phiy 2 * (apy 2 * rpi / rlength) ^ 2 * cos (apy 2 * rpi * y / rlength)
                - phixy 2 * (apxy 2 * rpi * x / rlength / rlength) ^ 2
                  * cos (apxy 2 * rpi * x * y / rlength / rlength) in
  rho * uvel * dvdx + rho * vvel * dvdy + dpdy - rmu * (d2vdx2 + d2vdy2).

Section Cavity.

(** [#define imax 65], [#define jmax 65] *)
Variables imax jmax : Z.

(** [const int imms = 0;]  The flag is a variable so that both branches of the
    code that tests it are covered. *)
Variable imms : Z.

(** *** Array3 and Array2 (lines 100-227) *)

Definition Array3 : Type := buffer.
Definition Array2 : Type := buffer.

(** [Array3::operator()]: [data[i*jdim*kdim + j*kdim + k]] with
    [jdim = jmax], [kdim = neq]. *)
Definition idx3 (i j k : Z) : Z := (i * jmax * neq + j * neq + k)%Z.
Definition get3 (u : Array3) (i j k : Z) : R := u (idx3 i j k).
Definition set3 (u : Array3) (i j k : Z) (v : R) : Array3 := upd u (idx3 i j k) v.

(** [Array2::operator()]: [data[i*jdim + j]]. *)
Definition idx2 (i j : Z) : Z := (i * jmax + j)%Z.
Definition get2 (a : Array2) (i j : Z) : R := a (idx2 i j).
Definition set2 (a : Array2) (i j : Z) (v : R) : Array2 := upd a (idx2 i j) v.

(** [A.copyData(B)]: [memcpy(A.data, B.data, idim*jdim*kdim*sizeof(double))];
    returns the new contents of [A]. *)
Definition copyData3 (a b : Array3) : Array3 := memcpy a b (imax * jmax * neq)%Z.

(** [A.swapData(B)]: the two [data] pointers are exchanged; returns the new
    contents of [(A, B)]. *)
Definition swapData3 (a b : Array3) : Array3 * Array3 := (b, a).

(** The logical index domain of a cell, and the interior and border cells. *)
Definition in_grid (i j : Z) : Prop := (0 <= i < imax /\ 0 <= j < jmax)%Z.
Definition in_dom (c : Idx) : Prop :=
  let '(i, j, k) := c in (0 <= i < imax /\ 0 <= j < jmax /\ 0 <= k < neq)%Z.
Definition interior (i j : Z) : Prop := (1 <= i <= imax - 2 /\ 1 <= j <= jmax - 2)%Z.
Definition border (i j : Z) : Prop :=
  in_grid i j /\ (i = 0 \/ i = imax - 1 \/ j = 0 \/ j = jmax - 1)%Z.

(** Grid-dependent derived inputs ([set_derived_inputs], lines 319-320). *)
Definition dx : R := (xmax - xmin) / IZR (imax - 1).
Definition dy : R := (ymax - ymin) / IZR (jmax - 1).

(** *** bndry (lines 482-530) *)

Definition bndry_side (j : Z) (u : Array3) : Array3 :=
  (* Left wall *)
  let i := 0%Z in
  let u := set3 u i j 0 (2 * get3 u 1 j 0 - get3 u 2 j 0) in
  let u := set3 u i j 1 0 in
  let u := set3 u i j 2 0 in
  (* Right wall *)
  let i := (imax - 1)%Z in
  let u := set3 u i j 0 (2 * get3 u (imax - 2) j 0 - get3 u (imax - 3) j 0) in
  let u := set3 u i j 1 0 in
  let u := set3 u i j 2 0 in
  u.

Definition bndry_topbot (i : Z) (u : Array3) : Array3 :=
  (* Bottom wall *)
  let j := 0%Z in
  let u := set3 u i j 0 (2 * get3 u i 1 0 - get3 u i 2 0) in
  let u := set3 u i j 1 0 in
  let u := set3 u i j 2 0 in
  (* Top wall *)
  let j := (jmax - 1)%Z in
  let u := set3 u i j 0 (2 * get3 u i (jmax - 2) 0 - get3 u i (jmax - 3) 0) in
  let u := set3 u i j 1 uinf in
  let u := set3 u i j 2 0 in
  u.

Definition bndry (u : Array3) : Array3 :=
  let u := for_lt 1 (jmax - 1) bndry_side u in
  let u := for_lt 0 imax bndry_topbot u in
  u.

(** *** pressure_rescaling (lines 1268-1302) *)

Definition pressure_rescaling (u : Array3) : Array3 :=
  let iref := ((imax - 1) ÷ 2)%Z in
  let jref := ((jmax - 1) ÷ 2)%Z in
  let deltap :=
    if Z.eq_dec imms 1 then
      let x := (xmax - xmin) * IZR iref / IZR (imax - 1) in
      let y := (ymax - ymin) * IZR jref / IZR (jmax - 1) in
      get3 u iref jref 0 - umms x y 0
    else
      get3 u iref jref 0 - pinf in
  for_lt 0 imax (fun i u =>
    for_lt 0 jmax (fun j u =>
      set3 u i j 0 (get3 u i j 0 - deltap)) u) u.

(** *** compute_time_step (lines 862-928)

    The state of the loops is the pair of the array [dt] and of the
    by-reference scalar [dtmin]. *)

Definition nu : R := rmu / rho.

Definition cts_cell (u : Array3) (i j : Z) (st : Array2 * R) : Array2 * R :=
  let dt := fst st in
  let dtmin := snd st in
  let dtvisc := (dx * dy) / (4 * nu) in
  let uvel2 := (get3 u i j 1 * get3 u i j 1) + get3 u i j 2 * get3 u i j 2 in
  let beta2 := Rmax uvel2 (rkappa * vel2ref) in
  let lambda_x := (1 / 2) * (Rabs (get3 u i j 1) + sqrt (get3 u i j 1 * get3 u i j 1 + 4 * beta2)) in
  let lambda_y := (1 / 2) * (Rabs (get3 u i j 2) + sqrt (get3 u i j 2 * get3 u i j 2 + 4 * beta2)) in
  let lambda_max := Rmax lambda_x lambda_y in
  let dtconv := Rmin dx dy / Rabs lambda_max in
  let dt := set2 dt i j (cfl * Rmin dtvisc dtconv) in
  let dtmin := Rmin dtmin (get2 dt i j) in
  (dt, dtmin).

Definition cts_border (dtmin : R) (dt : Array2) : Array2 :=
  let dt := for_lt 0 imax (fun i dt =>
              let dt := set2 dt i 0 dtmin in
              let dt := set2 dt i (jmax - 1) dtmin in
              dt) dt in
  let dt := for_lt 0 jmax (fun j dt =>
              let dt := set2 dt 0 j dtmin in
              let dt := set2 dt (imax - 1) j dtmin in
              dt) dt in
  dt.

Definition compute_time_step (u : Array3) (dt : Array2) (dtmin : R) : Array2 * R :=
  let st := for_lt 1 (imax - 1) (fun i st =>
              for_lt 1 (jmax - 1) (fun j st => cts_cell u i j st) st) (dt, dtmin) in
  (cts_border (snd st) (fst st), snd st).

(** *** Compute_Artificial_Viscosity (lines 932-1068)

    [rd u i j k] is the access [u(i,j,k)].  [stencil5 a b c d e] is the
    expression [a - 4*b + 6*c - 4*d + e] over five accesses, the common shape
    of every fourth-difference numerator of the function. *)

Definition rd (u : Array3) (i j k : Z) : Rd R := ([(i, j, k)], get3 u i j k).

Definition stencil5 (a b c d e : Rd R) : Rd R :=
  pa <- a ;;
  pb <- b ;;
  pc <- c ;;
  pd <- d ;;
  pe <- e ;;
  rd_ret (pa - 4 * pb + 6 * pc - 4 * pd + pe).

(** The locals that are live across statements, and the two output arrays.
    [uvel2] is declared and never assigned: it is the field [av_uvel2] of the
    entry state and is never updated. *)
Record AVst : Type := mkAVst {
  av_viscx : Array2;
  av_viscy : Array2;
  av_uvel2 : R;
  av_beta2 : R;
  av_lambda_x : R;
  av_lambda_y : R
}.

(** The two assignments [viscx(i,j) = ...; viscy(i,j) = ...;] that end every
    block, from the current [d4pdx4], [d4pdy4] and the live locals. *)
Definition av_write (s : AVst) (i j : Z) (d4pdx4 d4pdy4 : R) : AVst :=
  mkAVst
    (set2 (av_viscx s) i j
       (d4pdx4 * (- Rabs (av_lambda_x s) * Cx * (dx * dx * dx)) / av_beta2 s))
    (set2 (av_viscy s) i j
       (d4pdy4 * (- Rabs (av_lambda_y s) * Cy * (dy * dy * dy)) / av_beta2 s))
    (av_uvel2 s) (av_beta2 s) (av_lambda_x s) (av_lambda_y s).

(** Body of the interior loop (lines 976-985).  [(1/2)] is a quotient of two
    [int] literals. *)
Definition av_interior_cell (u : Array3) (i j : Z) (s : AVst) : Rd AVst :=
  px <- stencil5 (rd u (i + 2) j 0) (rd u (i + 1) j 0) (rd u i j 0)
                 (rd u (i - 1) j 0) (rd u (i - 2) j 0) ;;
  let d4pdx4 := px / (dx * dx * dx * dx) in
  py <- stencil5 (rd u i (j + 2) 0) (rd u i (j + 1) 0) (rd u i j 0)
                 (rd u i (j - 1) 0) (rd u i (j - 2) 0) ;;
  let d4pdy4 := py / (dy * dy * dy * dy) in
  let beta2 := Rmax (av_uvel2 s) (rkappa * vel2ref) in
  x1 <- rd u i j 1 ;;
  x2 <- rd u i j 1 ;;
  x3 <- rd u i j 1 ;;
  let lambda_x := IZR (1 ÷ 2) * (Rabs x1 + sqrt (x2 * x3 + 4 * beta2)) in
  y1 <- rd u i j 2 ;;
  y2 <- rd u i j 2 ;;
  y3 <- rd u i j 2 ;;
  let lambda_y := IZR (1 ÷ 2) * (Rabs y1 + sqrt (y2 * y3 + 4 * beta2)) in
  let s := mkAVst (av_viscx s) (av_viscy s) (av_uvel2 s) beta2 lambda_x lambda_y in
  rd_ret (av_write s i j d4pdx4 d4pdy4).

Definition av_interior (u : Array3) (m : Rd AVst) : Rd AVst :=
  for_lt 2 (imax - 3) (fun i m =>
    for_lt 2 (jmax - 3) (fun j m => rd_bind m (av_interior_cell u i j)) m) m.

(** The four corner blocks (lines 994-1033).  The divisor of each numerator is
    [dx] (resp. [dy]), as written. *)
Definition av_corners (u : Array3) (s : AVst) : Rd AVst :=
  (* Bottom left *)
  let i := 1%Z in
  let j := 1%Z in
  px <- stencil5 (rd u (i - 1) j 0) (rd u i j 0) (rd u (i + 1) j 0)
                 (rd u (i + 2) j 0) (rd u (i + 3) j 0) ;;
  let d4pdx4 := px / dx in
  py <- stencil5 (rd u i (j - 1) 0) (rd u i j 0) (rd u i (j + 1) 0)
                 (rd u i (j + 2) 0) (rd u i (j + 3) 0) ;;
  let d4pdy4 := py / dy in
  let s := av_write s 1 1 d4pdx4 d4pdy4 in
  (* Top left *)
  let i := 1%Z in
  let j := (jmax - 2)%Z in
  px <- stencil5 (rd u (i - 1) j 0) (rd u i j 0) (rd u (i + 1) j 0)
                 (rd u (i + 2) j 0) (rd u (i + 3) j 0) ;;
  let d4pdx4 := px / dx in
  py <- stencil5 (rd u i (j - 3) 0) (rd u i (j - 2) 0) (rd u i (j - 1) 0)
                 (rd u i j 0) (rd u i (j + 1) 0) ;;
  let d4pdy4 := py / dy in
  let s := av_write s 1 (jmax - 2) d4pdx4 d4pdy4 in
  (* Bottom right *)
  let i := (imax - 2)%Z in
  let j := 1%Z in
  px <- stencil5 (rd u (i - 3) j 0) (rd u (i - 2) j 0) (rd u (i - 1) j 0)
                 (rd u i j 0) (rd u (i + 1) j 0) ;;
  let d4pdx4 := px / dx in
  py <- stencil5 (rd u i (j - 1) 0) (rd u i j 0) (rd u i (j + 1) 0)
                 (rd u i (j + 2) 0) (rd u i (j + 3) 0) ;;
  let d4pdy4 := py / dy in
  let s := av_write s (imax - 2) 1 d4pdx4 d4pdy4 in
  (* Top right *)
  let i := (imax - 2)%Z in
  let j := (jmax - 2)%Z in
  px <- stencil5 (rd u (i - 3) j 0) (rd u (i - 2) j 0) (rd u (i - 1) j 0)
                 (rd u i j 0) (rd u (i + 1) j 0) ;;
  let d4pdx4 := px / dx in
  py <- stencil5 (rd u i (j - 3) 0) (rd u i (j - 2) 0) (rd u i (j - 1) 0)
                 (rd u i j 0) (rd u i (j + 1) 0) ;;
  let d4pdy4 := py / dy in
  let s := av_write s (imax - 2) (jmax - 2) d4pdx4 d4pdy4 in
  rd_ret s.

(** Body of the left/right wall loop (lines 1037-1047).  The values computed
    under "Left wall" are overwritten under "Right wall" before the two
    assignments, which run with [i = imax-2]; the accesses of both are
    performed. *)
Definition av_side_cell (u : Array3) (j : Z) (s : AVst) : Rd AVst :=
  (* Left wall *)
  let i := 2%Z in
  px <- stencil5 (rd u (i - 1) j 0) (rd u i j 0) (rd u (i + 1) j 0)
                 (rd u (i + 2) j 0) (rd u (i + 3) j 0) ;;
  let d4pdx4 := px / dx in
  py <- stencil5 (rd u i (j - 2) 0) (rd u i (j - 1) 0) (rd u i j 0)
                 (rd u i (j + 1) 0) (rd u i (j + 2) 0) ;;
  let d4pdy4 := py / dy in
  (* Right wall *)
  let i := (imax - 2)%Z in
  px <- stencil5 (rd u (i - 3) j 0) (rd u (i - 2) j 0) (rd u (i - 1) j 0)
                 (rd u i j 0) (rd u (i + 1) j 0) ;;
  let d4pdx4 := px / dx in
  py <- stencil5 (rd u i (j - 2) 0) (rd u i (j - 1) 0) (rd u i j 0)
                 (rd u i (j + 1) 0) (rd u i (j + 2) 0) ;;
  let d4pdy4 := py / dy in
  rd_ret (av_write s i j d4pdx4 d4pdy4).

(** Body of the bottom/top wall loop (lines 1054-1064); as above, the
    assignments run with [j = jmax-2]. *)
Definition av_topbot_cell (u : Array3) (i : Z) (s : AVst) : Rd AVst :=
  (* Bottom wall *)
  let j := 2%Z in
  px <- stencil5 (rd u (i - 2) j 0) (rd u (i - 1) j 0) (rd u i j 0)
                 (rd u (i + 1) j 0) (rd u (i + 2) j 0) ;;
  let d4pdx4 := px / dx in
  py <- stencil5 (rd u i (j - 1) 0) (rd u i j 0) (rd u i (j + 1) 0)
                 (rd u i (j + 2) 0) (rd u i (j + 3) 0) ;;
  let d4pdy4 := py / dy in
  (* Top wall *)
  let j := (jmax - 2)%Z in
  px <- stencil5 (rd u (i - 2) j 0) (rd u (i - 1) j 0) (rd u i j 0)
                 (rd u (i + 1) j 0) (rd u (i + 2) j 0) ;;
  let d4pdx4 := px / dx in
  py <- stencil5 (rd u i (j - 3) 0) (rd u i (j - 2) 0) (rd u i (j - 1) 0)
                 (rd u i j 0) (rd u i (j + 1) 0) ;;
  let d4pdy4 := py / dy in
  rd_ret (av_write s i j d4pdx4 d4pdy4).

Definition av_sides (u : Array3) (m : Rd AVst) : Rd AVst :=
  for_lt 2 (jmax - 1) (fun j m => rd_bind m (av_side_cell u j)) m.

Definition av_topbot (u : Array3) (m : Rd AVst) : Rd AVst :=
  for_lt 2 (imax - 1) (fun i m => rd_bind m (av_topbot_cell u i)) m.

(** Everything after the interior loop: the near-boundary blocks. *)
Definition av_boundary (u : Array3) (m : Rd AVst) : Rd AVst :=
  av_topbot u (av_sides u (rd_bind m (av_corners u))).

(** The whole function, with its accesses to [u]. *)
Definition Compute_Artificial_Viscosity_rd (u : Array3) (s : AVst) : Rd AVst :=
  av_boundary u (av_interior u (rd_ret s)).

(** The function as the callers see it: [g] carries the indeterminate entry
    values of the locals; the result is the new contents of [(viscx, viscy)].
    The entry values are real numbers here; in the code they are whatever the
    stack holds, an infinity or a NaN included. *)
Record AVlocals : Type := mkAVlocals {
  g_uvel2 : R;
  g_beta2 : R;
  g_lambda_x : R;
  g_lambda_y : R
}.

Definition av_entry (g : AVlocals) (viscx viscy : Array2) : AVst :=
  mkAVst viscx viscy (g_uvel2 g) (g_beta2 g) (g_lambda_x g) (g_lambda_y g).

Definition Compute_Artificial_Viscosity (g : AVlocals) (u : Array3)
    (viscx viscy : Array2) : Array2 * Array2 :=
  let s := snd (Compute_Artificial_Viscosity_rd u (av_entry g viscx viscy)) in
  (av_viscx s, av_viscy s).

(** *** SGS_forward_sweep and SGS_backward_sweep (lines 1072-1197)

    The loop bodies of the two sweeps are the same sequence of statements
    (lines 1114-1129 and 1178-1193): ten differences and [beta2] from the live
    field [u], then three assignments to [u(i,j,.)].  The second and third
    assignment read [u(i,j,1)] and [u(i,j,2)] again, after the earlier
    assignments. *)
Definition sgs_cell (viscx viscy dt : Array2) (s : Array3) (i j : Z) (u : Array3) : Array3 :=
  let dpdx := (get3 u (i + 1) j 0 - get3 u (i - 1) j 0) / (2 * dx) in
  let dudx := (get3 u (i + 1) j 1 - get3 u (i - 1) j 1) / (2 * dx) in
  let dvdx := (get3 u (i + 1) j 2 - get3 u (i - 1) j 2) / (2 * dx) in
  let dpdy := (get3 u i (j + 1) 0 - get3 u i (j - 1) 0) / (2 * dy) in
  let dudy := (get3 u i (j + 1) 1 - get3 u i (j - 1) 1) / (2 * dy) in
  let dvdy := (get3 u i (j + 1) 2 - get3 u i (j - 1) 2) / (2 * dy) in
  let d2udx2 := (get3 u (i + 1) j 1 - (2 * get3 u i j 1) + get3 u (i - 1) j 1) / (dx * dx) in
  let d2vdx2 := (get3 u (i + 1) j 2 - (2 * get3 u i j 2) + get3 u (i - 1) j 2) / (dx * dx) in
  let d2udy2 := (get3 u i (j + 1) 1 - (2 * get3 u i j 1) + get3 u i (j - 1) 1) / (dy * dy) in
  let d2vdy2 := (get3 u i (j + 1) 2 - (2 * get3 u i j 2) + get3 u i (j - 1) 2) / (dy * dy) in
  let uvel2 := (get3 u i j 1 * get3 u i j 1) + (get3 u i j 2 * get3 u i j 2) in
  let beta2 := Rmax uvel2 (rkappa * vel2ref) in
  let u := set3 u i j 0
    (get3 u i j 0 - (beta2 * get2 dt i j *
       ((rho * dudx) + (rho * dvdy) - get2 viscx i j - get2 viscy i j - get3 s i j 0))) in
  let u := set3 u i j 1
    (get3 u i j 1 - (get2 dt i j * rhoinv *
       ((rho * get3 u i j 1 * dudx) + (rho * get3 u i j 2 * dudy) + dpdx
        - (rmu * d2udx2) - (rmu * d2udy2) - get3 s i j 1))) in
  let u := set3 u i j 2
    (get3 u i j 2 - (get2 dt i j * rhoinv *
       ((rho * get3 u i j 1 * dvdx) + (rho * get3 u i j 2 * dvdy) + dpdy
        - (rmu * d2vdx2) - (rmu * d2vdy2) - get3 s i j 2))) in
  u.

Definition SGS_forward_sweep (u : Array3) (viscx viscy dt : Array2) (s : Array3) : Array3 :=
  for_lt 1 (imax - 1) (fun i u =>
    for_lt 1 (jmax - 1) (fun j u => sgs_cell viscx viscy dt s i j u) u) u.

Definition SGS_backward_sweep (u : Array3) (viscx viscy dt : Array2) (s : Array3) : Array3 :=
  for_gt (imax - 2) 0 (fun i u =>
    for_gt (jmax - 2) 0 (fun j u => sgs_cell viscx viscy dt s i j u) u) u.

(** *** point_Jacobi (lines 1201-1264) *)

Definition pj_cell (uold : Array3) (viscx viscy dt : Array2) (s : Array3) (i j : Z)
    (u : Array3) : Array3 :=
  let dpdx := (get3 uold (i + 1) j 0 - get3 uold (i - 1) j 0) / (2 * dx) in
  let dudx := (get3 uold (i + 1) j 1 - get3 uold (i - 1) j 1) / (2 * dx) in
  let dvdx := (get3 uold (i + 1) j 2 - get3 uold (i - 1) j 2) / (2 * dx) in
  let dpdy := (get3 uold i (j + 1) 0 - get3 uold i (j - 1) 0) / (2 * dy) in
  let dudy := (get3 uold i (j + 1) 1 - get3 uold i (j - 1) 1) / (2 * dy) in
  let dvdy := (get3 uold i (j + 1) 2 - get3 uold i (j - 1) 2) / (2 * dy) in
  let d2udx2 := (get3 uold (i + 1) j 1 - 2 * get3 uold i j 1 + get3 uold (i - 1) j 1) / (dx * dx) in
  let d2vdx2 := (get3 uold (i + 1) j 2 - 2 * get3 uold i j 2 + get3 uold (i - 1) j 2) / (dx * dx) in
  let d2udy2 := (get3 uold i (j + 1) 1 - 2 * get3 uold i j 1 + get3 uold i (j - 1) 1) / (dy * dy) in
  let d2vdy2 := (get3 uold i (j + 1) 2 - 2 * get3 uold i j 2 + get3 uold i (j - 1) 2) / (dy * dy) in
  let uvel2 := get3 uold i j 1 * get3 uold i j 1 + get3 uold i j 2 * get3 uold i j 2 in
  let beta2 := Rmax uvel2 (rkappa * vel2ref) in
  let u := set3 u i j 0
    (get3 uold i j 0 - beta2 * get2 dt i j *
       ((rho * dudx) + (rho * dvdy) - get2 viscx i j - get2 viscy i j - get3 s i j 0)) in
  let u := set3 u i j 1
    (get3 uold i j 1 - get2 dt i j * rhoinv *
       ((rho * get3 uold i j 1 * dudx) + (rho * get3 uold i j 2 * dudy) + dpdx
        - rmu * d2udx2 - rmu * d2udy2 - get3 s i j 1)) in
  let u := set3 u i j 2
    (get3 uold i j 2 - get2 dt i j * rhoinv *
       ((rho * get3 uold i j 1 * dvdx) + (rho * get3 uold i j 2 * dvdy) + dpdy
        - rmu * d2vdx2 - rmu * d2vdy2 - get3 s i j 2)) in
  u.

Definition point_Jacobi (u uold : Array3) (viscx viscy dt : Array2) (s : Array3) : Array3 :=
  for_lt 1 (imax - 1) (fun i u =>
    for_lt 1 (jmax - 1) (fun j u => pj_cell uold viscx viscy dt s i j u) u) u.

(** *** GS_iteration and PJ_iteration (lines 327-366)

    The six arrays that [main] owns and passes by reference. *)
Record Fields : Type := mkFields {
  f_u : Array3;
  f_uold : Array3;
  f_src : Array3;
  f_viscx : Array2;
  f_viscy : Array2;
  f_dt : Array2
}.

Definition boundaryConditionPointer : Type := Array3 -> Array3.

(** [g1], [g2]: the indeterminate locals of the first and of the second call
    of [Compute_Artificial_Viscosity]. *)
Definition GS_iteration (set_boundary_conditions : boundaryConditionPointer)
    (g1 g2 : AVlocals) (f : Fields) : Fields :=
  let u := f_u f in
  (* Copy u to uold *)
  let uold := copyData3 (f_uold f) u in
  let visc := Compute_Artificial_Viscosity g1 u (f_viscx f) (f_viscy f) in
  let u := SGS_forward_sweep u (fst visc) (snd visc) (f_dt f) (f_src f) in
  let u := set_boundary_conditions u in
  let visc := Compute_Artificial_Viscosity g2 u (fst visc) (snd visc) in
  let u := SGS_backward_sweep u (fst visc) (snd visc) (f_dt f) (f_src f) in
  let u := set_boundary_conditions u in
  mkFields u uold (f_src f) (fst visc) (snd visc) (f_dt f).

Definition PJ_iteration (set_boundary_conditions : boundaryConditionPointer)
    (g : AVlocals) (f : Fields) : Fields :=
  (* Swap pointers for u and uold: uold.swapData(u) *)
  let sw := swapData3 (f_uold f) (f_u f) in
  let uold := fst sw in
  let u := snd sw in
  let visc := Compute_Artificial_Viscosity g uold (f_viscx f) (f_viscy f) in
  let u := point_Jacobi u uold (fst visc) (snd visc) (f_dt f) (f_src f) in
  let u := set_boundary_conditions u in
  mkFields u uold (f_src f) (fst visc) (snd visc) (f_dt f).

(** *** bndrymms (lines 534-594): the other boundary-condition provider *)

Definition bndrymms_side (j : Z) (u : Array3) : Array3 :=
  let y := (ymax - ymin) * IZR j / IZR (jmax - 1) in
  let i := 0%Z in
  let x := xmin in
  let u := set3 u i j 0 (umms x y 0) in
  let u := set3 u i j 1 (umms x y 1) in
  let u := set3 u i j 2 (umms x y 2) in
  let u := set3 u 0 j 0 (two * get3 u 1 j 0 - get3 u 2 j 0) in
  let i := (imax - 1)%Z in
  let x := xmax in
  let u := set3 u i j 0 (umms x y 0) in
  let u := set3 u i j 1 (umms x y 1) in
  let u := set3 u i j 2 (umms x y 2) in
  let u := set3 u (imax - 1) j 0 (two * get3 u (imax - 2) j 0 - get3 u (imax - 3) j 0) in
  u.

Definition bndrymms_topbot (i : Z) (u : Array3) : Array3 :=
  let x := (xmax - xmin) * IZR i / IZR (imax - 1) in
  let j := 0%Z in
  let y := ymin in
  let u := set3 u i j 0 (umms x y 0) in
  let u := set3 u i j 1 (umms x y 1) in
  let u := set3 u i j 2 (umms x y 2) in
  let u := set3 u i 0 0 (two * get3 u i 1 0 - get3 u i 2 0) in
  let j := (jmax - 1)%Z in
  let y := ymax in
  let u := set3 u i j 0 (umms x y 0) in
  let u := set3 u i j 1 (umms x y 1) in
  let u := set3 u i j 2 (umms x y 2) in
  let u := set3 u i (jmax - 1) 0 (two * get3 u i (jmax - 2) 0 - get3 u i (jmax - 3) 0) in
  u.

Definition bndrymms (u : Array3) : Array3 :=
  let u := for_lt 1 (jmax - 1) bndrymms_side u in
  let u := for_lt 0 imax bndrymms_topbot u in
  u.

(** *** check_iterative_convergence (lines 1306-1384)

    [res] and [resinit] are [double[neq]] arrays.  The function assigns [res]
    and [conv]; [resinit] is only read.  The output statements are not
    modelled.  The quotients by [dt(i,j)], by the count of interior cells and
    by [resinit[k]] are total on [R]; in the code a zero divisor gives an
    infinity or a NaN. *)

Definition cic_accum (u uold : Array3) (dt : Array2) (res : buffer) : buffer :=
  for_lt 1 (imax - 1) (fun i res =>
    for_lt 1 (jmax - 1) (fun j res =>
      for_lt 0 neq (fun k res =>
        let diff := (get3 u i j k - get3 uold i j k) / get2 dt i j in
        upd res k (res k + diff * diff)) res) res) res.

Definition cic_normalize (resinit : buffer) (res : buffer) : buffer :=
  for_lt 0 neq (fun k res =>
    let res := upd res k (sqrt (res k / IZR ((imax - 2) * (jmax - 2)))) in
    let res := upd res k (res k / resinit k) in
    res) res.

Definition check_iterative_convergence (u uold : Array3) (dt : Array2)
    (res resinit : buffer) : buffer * R :=
  let res := upd res 0 zero in
  let res := upd res 1 zero in
  let res := upd res 2 zero in
  let res := for_lt 0 neq (fun k res => upd res k 0) res in
  let res := cic_accum u uold dt res in
  let res := cic_normalize resinit res in
  let first := Rmax (res 0%Z) (res 1%Z) in
  let conv := Rmax first (res 2%Z) in
  (res, conv).

(** *** initial (lines 410-477)

    What the function assigns: [ninit], [rtime], [resinit], [u] and [s].  The
    branch [irstr == 1] reads [resinit] and [u] from the file 'restart.in',
    whose contents are the argument [file] ([None]: the file cannot be
    opened); it does not assign [s].  Line 459 passes [ninit] and [rtime] to
    [fscanf] by value, not by address: the behaviour of that call is
    undefined and the two numbers of the file are not stored through them.
    [rs_ninit] and [rs_rtime] stand for whatever the two variables hold after
    the call, and no statement below is about a restarted run beyond its
    exit when the file is missing.  [None] as a result is [exit(0)]. *)
Record Restart : Type := mkRestart {
  rs_ninit : Z;
  rs_rtime : R;
  rs_resinit : buffer;
  rs_u : Array3
}.

Record Init : Type := mkInit {
  in_ninit : Z;
  in_rtime : R;
  in_resinit : buffer;
  in_u : Array3;
  in_s : Array3
}.

Definition initial (irstr : Z) (file : option Restart) (resinit : buffer)
    (u s : Array3) : option Init :=
  if Z.eq_dec irstr 0 then
    let resinit := for_lt 0 neq (fun k r => upd r k one) resinit in
    let us := for_lt 0 imax (fun i us =>
                let us := for_lt 0 jmax (fun j us =>
                            let u := set3 (fst us) i j 0 pinf in
                            let u := set3 u i j 1 zero in
                            let u := set3 u i j 2 zero in
                            let s := set3 (snd us) i j 0 zero in
                            let s := set3 s i j 1 zero in
                            let s := set3 s i j 2 zero in
                            (u, s)) us in
                (set3 (fst us) i (jmax - 1) 1 uinf, snd us)) (u, s) in
    Some (mkInit 1 zero resinit (fst us) (snd us))
  else if Z.eq_dec irstr 1 then
    match file with
    | None => None
    | Some r =>
        let u := for_lt 0 imax (fun i u =>
                   for_lt 0 jmax (fun j u =>
                     let u := set3 u i j 0 (get3 (rs_u r) i j 0) in
                     let u := set3 u i j 1 (get3 (rs_u r) i j 1) in
                     let u := set3 u i j 2 (get3 (rs_u r) i j 2) in
                     u) u) u in
        Some (mkInit (rs_ninit r + 1) (rs_rtime r) (rs_resinit r) u s)
    end
  else None.

(** *** The main loop (lines 1533-1562)

    The scalars and small arrays that [main] declares next to the six grid
    arrays. *)
Record Solver : Type := mkSolver {
  sv_f : Fields;
  sv_res : buffer;
  sv_resinit : buffer;
  sv_rtime : R;
  sv_dtmin : R;
  sv_conv : R
}.

Definition iterationStepPointer : Type :=
  boundaryConditionPointer -> AVlocals -> AVlocals -> Fields -> Fields.

(** The selection of the two function pointers (lines 1475-1501); [None] is
    [exit(0)]. *)
Definition select_iterationStep (isgs : Z) : option iterationStepPointer :=
  if Z.eq_dec isgs 1 then Some GS_iteration
  else if Z.eq_dec isgs 0 then Some (fun bc g1 _ f => PJ_iteration bc g1 f)
  else None.

Definition select_boundary_conditions : option boundaryConditionPointer :=
  if Z.eq_dec imms 0 then Some bndry
  else if Z.eq_dec imms 1 then Some bndrymms
  else None.

(** One pass through the loop body, up to and including the convergence
    check (lines 1536-1548). *)
Definition main_body (iterationStep : iterationStepPointer)
    (set_boundary_conditions : boundaryConditionPointer)
    (g : AVlocals * AVlocals) (s : Solver) : Solver :=
  let f := sv_f s in
  let ts := compute_time_step (f_u f) (f_dt f) (sv_dtmin s) in
  let dtmin := snd ts in
  let f := mkFields (f_u f) (f_uold f) (f_src f) (f_viscx f) (f_viscy f) (fst ts) in
  let f := iterationStep set_boundary_conditions (fst g) (snd g) f in
  let f := mkFields (pressure_rescaling (f_u f)) (f_uold f) (f_src f)
             (f_viscx f) (f_viscy f) (f_dt f) in
  let rtime := sv_rtime s + dtmin in
  let cc := check_iterative_convergence (f_u f) (f_uold f) (f_dt f)
              (sv_res s) (sv_resinit s) in
  mkSolver f (fst cc) (sv_resinit s) rtime dtmin (snd cc).

Inductive Exit : Type := Converged | NotConverged.

(** [for (n = ninit; n <= nmax; n++)] with [goto converged] when
    [conv < toler]; [count] is the number of passes that remain.  [g n] gives
    the indeterminate locals of the pass with iteration number [n]. *)
Fixpoint main_loop (count : nat) (n : Z) (iterationStep : iterationStepPointer)
    (set_boundary_conditions : boundaryConditionPointer)
    (g : Z -> AVlocals * AVlocals) (s : Solver) : Exit * Z * Solver :=
  match count with
  | O => (NotConverged, n, s)
  | S count' =>
      let s := main_body iterationStep set_boundary_conditions (g n) s in
      if Rlt_dec (sv_conv s) toler then (Converged, n, s)
      else main_loop count' (n + 1) iterationStep set_boundary_conditions g s
  end.


(** *** compute_source_terms (lines 703-729) *)

Definition compute_source_terms (s : Array3) : Array3 :=
  for_lt 1 (imax - 1) (fun i s =>
    for_lt 1 (jmax - 1) (fun j s =>
      let x := (xmax - xmin) * IZR i / IZR (imax - 1) in
      let y := (ymax - ymin) * IZR j / IZR (jmax - 1) in
      let s := set3 s i j 0 (IZR imms * srcmms_mass x y) in
      let s := set3 s i j 1 (IZR imms * srcmms_xmtm x y) in
      let s := set3 s i j 2 (IZR imms * srcmms_ymtm x y) in
      s) s) s.

(** *** main (lines 1436-1587)

    [mem] is the state of the arrays and scalars as [main] declares them
    (the buffers are not initialised; [dtmin] is initialised to [1.0e99]).
    [main_entry] is [main] up to the entry of the loop: the selection of the
    function pointers, [initial], the boundary conditions and the source
    terms; it gives the initial iteration number and the state that the
    first pass starts from.  The output statements are not modelled. *)
Definition main_entry (isgs irstr : Z) (file : option Restart) (mem : Solver)
    : option (iterationStepPointer * boundaryConditionPointer * Z * Solver) :=
  match select_iterationStep isgs with
  | None => None
  | Some iterationStep =>
      match select_boundary_conditions with
      | None => None
      | Some set_boundary_conditions =>
          let f := sv_f mem in
          match initial irstr file (sv_resinit mem) (f_u f) (f_src f) with
          | None => None
          | Some init =>
              let u := set_boundary_conditions (in_u init) in
              let src := compute_source_terms (in_s init) in
              Some (iterationStep, set_boundary_conditions, in_ninit init,
                    mkSolver (mkFields u (f_uold f) src (f_viscx f) (f_viscy f) (f_dt f))
                             (sv_res mem) (in_resinit init) (in_rtime init)
                             dtmin_main (sv_conv mem))
          end
      end
  end.

Definition main (isgs irstr : Z) (file : option Restart) (mem : Solver)
    (g : Z -> AVlocals * AVlocals) : option (Exit * Z * Solver) :=
  match main_entry isgs irstr file mem with
  | None => None
  | Some (iterationStep, set_boundary_conditions, ninit, st) =>
      Some (main_loop (Z.to_nat (nmax - ninit + 1)) ninit
              iterationStep set_boundary_conditions g st)
  end.

(** *** Reference values used to state the properties *)

(** The center cell and the reference pressure of [pressure_rescaling]. *)
Definition iref : Z := ((imax - 1) ÷ 2)%Z.
Definition jref : Z := ((jmax - 1) ÷ 2)%Z.

Definition reference_pressure : R :=
  if Z.eq_dec imms 1 then
    umms ((xmax - xmin) * IZR iref / IZR (imax - 1))
         ((ymax - ymin) * IZR jref / IZR (jmax - 1)) 0
  else pinf.

(** The amount that [pressure_rescaling] subtracts. *)
Definition deltap (u : Array3) : R := get3 u iref jref 0 - reference_pressure.

(** The flat indices of the three entries of a cell. *)
Definition cell_entries (i j : Z) : list Z := [idx3 i j 0; idx3 i j 1; idx3 i j 2].

(** The field that the pass of a sweep at cell [(i, j)] works on, in terms of
    the field [u] before the sweep and the field [t] after it: the two
    neighbours that the sweep visits before [(i, j)] ([d = 1]: west and
    south, [d = -1]: east and north) are as in [t], everything else is as in
    [u]. *)
Definition gs_view (t u : Array3) (d i j : Z) : Array3 :=
  fun n =>
    if existsb (Z.eqb n) (cell_entries (i - d) j ++ cell_entries i (j - d))
    then t n else u n.

(** The ten central differences of [point_Jacobi] at cell [(i, j)] of the
    field [w] all vanish, and so does the source [s] there. *)
Definition steady_at (w s : Array3) (i j : Z) : Prop :=
  (get3 w (i + 1) j 0 - get3 w (i - 1) j 0) / (2 * dx) = 0 /\
  (get3 w (i + 1) j 1 - get3 w (i - 1) j 1) / (2 * dx) = 0 /\
  (get3 w (i + 1) j 2 - get3 w (i - 1) j 2) / (2 * dx) = 0 /\
  (get3 w i (j + 1) 0 - get3 w i (j - 1) 0) / (2 * dy) = 0 /\
  (get3 w i (j + 1) 1 - get3 w i (j - 1) 1) / (2 * dy) = 0 /\
  (get3 w i (j + 1) 2 - get3 w i (j - 1) 2) / (2 * dy) = 0 /\
  (get3 w (i + 1) j 1 - 2 * get3 w i j 1 + get3 w (i - 1) j 1) / (dx * dx) = 0 /\
  (get3 w (i + 1) j 2 - 2 * get3 w i j 2 + get3 w (i - 1) j 2) / (dx * dx) = 0 /\
  (get3 w i (j + 1) 1 - 2 * get3 w i j 1 + get3 w i (j - 1) 1) / (dy * dy) = 0 /\
  (get3 w i (j + 1) 2 - 2 * get3 w i j 2 + get3 w i (j - 1) 2) / (dy * dy) = 0 /\
  get3 s i j 0 = 0 /\ get3 s i j 1 = 0 /\ get3 s i j 2 = 0.

(** A field at steady state: [steady_at] holds at every interior cell. *)
Definition steady_state (w s : Array3) : Prop :=
  forall i j, interior i j -> steady_at w s i j.

(** The cells that the interior loop of [Compute_Artificial_Viscosity] visits,
    and the cells that its near-boundary blocks assign. *)
Definition av_block (i j : Z) : Prop := (2 <= i <= imax - 4 /\ 2 <= j <= jmax - 4)%Z.

Definition av_edge_written (i j : Z) : Prop :=
  ((i = 1 \/ i = imax - 2) /\ (j = 1 \/ j = jmax - 2) \/
   (i = imax - 2 /\ 2 <= j <= jmax - 2) \/
   (j = jmax - 2 /\ 2 <= i <= imax - 2))%Z.

(** The dissipation in x of the specification at a cell, from the field [u]:
    [-|lambda_x| * Cx * dx^3 * (d4p/dx4) / beta2] with the central
    fourth difference, [lambda_x = (1/2)(|u| + sqrt(u^2 + 4 beta2))] and
    [beta2 = max(u^2 + v^2, rkappa*vel2ref)] of that cell; and in y. *)
Definition spec_beta2 (u : Array3) (i j : Z) : R :=
  Rmax (get3 u i j 1 * get3 u i j 1 + get3 u i j 2 * get3 u i j 2) (rkappa * vel2ref).

Definition spec_lambda (u : Array3) (i j k : Z) : R :=
  (1 / 2) * (Rabs (get3 u i j k)
             + sqrt (get3 u i j k * get3 u i j k + 4 * spec_beta2 u i j)).

Definition spec_viscx (u : Array3) (i j : Z) : R :=
  - Rabs (spec_lambda u i j 1) * Cx * (dx * dx * dx)
  * ((get3 u (i + 2) j 0 - 4 * get3 u (i + 1) j 0 + 6 * get3 u i j 0
      - 4 * get3 u (i - 1) j 0 + get3 u (i - 2) j 0) / (dx * dx * dx * dx))
  / spec_beta2 u i j.

Definition spec_viscy (u : Array3) (i j : Z) : R :=
  - Rabs (spec_lambda u i j 2) * Cy * (dy * dy * dy)
  * ((get3 u i (j + 2) 0 - 4 * get3 u i (j + 1) 0 + 6 * get3 u i j 0
      - 4 * get3 u i (j - 1) 0 + get3 u i (j - 2) 0) / (dy * dy * dy * dy))
  / spec_beta2 u i j.

(** The local pseudo-time step that [compute_time_step] assigns to [dt(i,j)]:
    [cfl * min(dtvisc, dtconv)] from the field [u] at the cell. *)
Definition local_step (u : Array3) (i j : Z) : R :=
  let dtvisc := (dx * dy) / (4 * nu) in
  let uvel2 := (get3 u i j 1 * get3 u i j 1) + get3 u i j 2 * get3 u i j 2 in
  let beta2 := Rmax uvel2 (rkappa * vel2ref) in
  let lambda_x := (1 / 2) * (Rabs (get3 u i j 1) + sqrt (get3 u i j 1 * get3 u i j 1 + 4 * beta2)) in
  let lambda_y := (1 / 2) * (Rabs (get3 u i j 2) + sqrt (get3 u i j 2 * get3 u i j 2 + 4 * beta2)) in
  let lambda_max := Rmax lambda_x lambda_y in
  let dtconv := Rmin dx dy / Rabs lambda_max in
  cfl * Rmin dtvisc dtconv.

(** The raw RMS residual of equation [k]:
    [sqrt(sum over interior cells of ((u - uold)/dt)^2 / (count of interior cells))]. *)
Fixpoint sum_from (n : nat) (lo : Z) (f : Z -> R) : R :=
  match n with
  | O => 0
  | S n' => f lo + sum_from n' (lo + 1) f
  end.

Definition sum_range (lo hi : Z) (f : Z -> R) : R :=
  sum_from (Z.to_nat (hi - lo)) lo f.

Definition sum_interior (f : Z -> Z -> R) : R :=
  sum_range 1 (imax - 1) (fun i => sum_range 1 (jmax - 1) (fun j => f i j)).

Definition sq_diff (u uold : Array3) (dt : Array2) (k : Z) (i j : Z) : R :=
  ((get3 u i j k - get3 uold i j k) / get2 dt i j)
  * ((get3 u i j k - get3 uold i j k) / get2 dt i j).

Definition raw_residual (u uold : Array3) (dt : Array2) (k : Z) : R :=
  sqrt (sum_interior (sq_diff u uold dt k) / IZR ((imax - 2) * (jmax - 2))).

(** *** Predicates used in the statements and in the loop invariants *)

(** A flat index that is no entry of an interior cell. *)
Definition off_interior (n : Z) : Prop :=
  forall i j k, interior i j -> (0 <= k < neq)%Z -> n <> idx3 i j k.

(** Two fields agree on the three entries of cell [(i, j)]. *)
Definition agree_at (w1 w2 : Array3) (i j : Z) : Prop :=
  forall k, (0 <= k < neq)%Z -> get3 w1 i j k = get3 w2 i j k.

(** State of the field when the outer loop is at row [a] and the inner loop
    at column [b]: the pressure of the cells already visited is shifted, every
    other entry of the logical domain is as in [u]. *)
Definition rescaled_upto (u : Array3) (d : R) (a b : Z) (s : Array3) : Prop :=
  forall i j, in_grid i j ->
    ((i < a \/ (i = a /\ j < b))%Z -> get3 s i j 0 = get3 u i j 0 - d) /\
    (~ (i < a \/ (i = a /\ j < b))%Z -> get3 s i j 0 = get3 u i j 0) /\
    get3 s i j 1 = get3 u i j 1 /\
    get3 s i j 2 = get3 u i j 2.

(** Velocity on the two side walls at row [j] is zero. *)
Definition side_walls_at_rest (s : Array3) (j : Z) : Prop :=
  get3 s 0 j 1 = 0 /\ get3 s 0 j 2 = 0 /\
  get3 s (imax - 1) j 1 = 0 /\ get3 s (imax - 1) j 2 = 0.

(** Velocity at column [i] of the bottom row is zero and of the top row is
    the lid velocity. *)
Definition floor_and_lid (s : Array3) (i : Z) : Prop :=
  get3 s i 0 1 = 0 /\ get3 s i 0 2 = 0 /\
  get3 s i (jmax - 1) 1 = uinf /\ get3 s i (jmax - 1) 2 = 0.

(** The entries of the two dissipation arrays at cell [(i, j)] are the same in
    two states. *)
Definition visc_same (s s' : AVst) (i j : Z) : Prop :=
  get2 (av_viscx s') i j = get2 (av_viscx s) i j /\
  get2 (av_viscy s') i j = get2 (av_viscy s) i j.

(** State of the interior loops of [compute_time_step] at row [a], column
    [b]: [dt] holds the local step at the cells already visited, and the
    scalar is the least of its entry value and of these local steps. *)
Definition cts_inv (u : Array3) (dtmin0 : R) (a b : Z) (st : Array2 * R) : Prop :=
  snd st <= dtmin0 /\
  (forall i j, interior i j -> (i < a \/ (i = a /\ j < b))%Z ->
     snd st <= local_step u i j /\ get2 (fst st) i j = local_step u i j) /\
  (snd st = dtmin0 \/
   exists i j, interior i j /\ (i < a \/ (i = a /\ j < b))%Z /\
               snd st = local_step u i j).

(** Cell [(i, j)] of [t] holds what the loop body of a sweep computes from a
    field [w] in which the two neighbours that the sweep visits before
    [(i, j)] are as in [t], and the cell itself and the two neighbours visited
    after it are as in the field [u] the sweep started from.  [d] is the
    direction of the sweep: [1] for ascending, [-1] for descending indices. *)
Definition gs_updated (viscx viscy dt : Array2) (s u : Array3) (d : Z)
    (t : Array3) (i j : Z) : Prop :=
  forall w,
    agree_at w t (i - d) j -> agree_at w t i (j - d) ->
    agree_at w u i j -> agree_at w u (i + d) j -> agree_at w u i (j + d) ->
    agree_at t (sgs_cell viscx viscy dt s i j w) i j.

(** State [t] of the sweep when the cells in [Done] have been visited. *)
Definition sweep_inv (viscx viscy dt : Array2) (s u : Array3) (d : Z)
    (Done : Z -> Z -> Prop) (t : Array3) : Prop :=
  (forall n, off_interior n -> t n = u n) /\
  (forall i j, in_grid i j -> ~ (interior i j /\ Done i j) -> agree_at t u i j) /\
  (forall i j, interior i j -> Done i j -> gs_updated viscx viscy dt s u d t i j).

(** The field that [main] enters its loop with in a run from scratch:
    pressure [pinf] everywhere, the top row moving with the lid, everything
    else at rest. *)
Definition initial_value (j k : Z) : R :=
  if Z.eq_dec k 0 then pinf
  else if Z.eq_dec k 1 then (if Z.eq_dec j (jmax - 1) then uinf else zero)
  else zero.

Definition is_initial_field (w : Array3) : Prop :=
  forall i j k, in_grid i j -> (0 <= k < neq)%Z -> get3 w i j k = initial_value j k.

(** The source array is zero on the grid. *)
Definition zero_source (s : Array3) : Prop :=
  forall i j k, in_grid i j -> (0 <= k < neq)%Z -> get3 s i j k = zero.

(** The x-momentum rate that the first pass of a run from scratch produces in
    the row of cells below the lid: [rhoinv * rmu * uinf / dy^2]. *)
Definition lid_rate : R := rhoinv * (rmu * (uinf / (dy * dy))).

(** The coordinates that the code computes for column [i] and for row [j]:
    [(xmax - xmin)*(double)(i)/(double)(imax - 1)], and the same in y. *)
Definition xnode (i : Z) : R := (xmax - xmin) * IZR i / IZR (imax - 1).
Definition ynode (j : Z) : R := (ymax - ymin) * IZR j / IZR (jmax - 1).

(** The pressure of every wall cell continues the two cells next to it,
    normal to the wall, linearly: rows [1 .. jmax-2] of the side walls, every
    column of the bottom and of the top wall. *)
Definition wall_pressure_extrapolated (b : Array3) : Prop :=
  (forall j, (1 <= j <= jmax - 2)%Z ->
     get3 b 0 j 0 = 2 * get3 b 1 j 0 - get3 b 2 j 0 /\
     get3 b (imax - 1) j 0 = 2 * get3 b (imax - 2) j 0 - get3 b (imax - 3) j 0) /\
  (forall i, (0 <= i < imax)%Z ->
     get3 b i 0 0 = 2 * get3 b i 1 0 - get3 b i 2 0 /\
     get3 b i (jmax - 1) 0 = 2 * get3 b i (jmax - 2) 0 - get3 b i (jmax - 3) 0).

(** Velocity on the two side walls at row [j], and at column [i] of the
    bottom and top rows, is that of the manufactured solution at the wall
    position the code computes. *)
Definition mms_side_walls (s : Array3) (j : Z) : Prop :=
  get3 s 0 j 1 = umms xmin (ynode j) 1 /\ get3 s 0 j 2 = umms xmin (ynode j) 2 /\
  get3 s (imax - 1) j 1 = umms xmax (ynode j) 1 /\
  get3 s (imax - 1) j 2 = umms xmax (ynode j) 2.

Definition mms_floor_and_lid (s : Array3) (i : Z) : Prop :=
  get3 s i 0 1 = umms (xnode i) ymin 1 /\ get3 s i 0 2 = umms (xnode i) ymin 2 /\
  get3 s i (jmax - 1) 1 = umms (xnode i) ymax 1 /\
  get3 s i (jmax - 1) 2 = umms (xnode i) ymax 2.

(** The manufactured source term of equation [k] (0: mass, 1: x-momentum,
    2: y-momentum). *)
Definition srcmms (k : Z) (x y : R) : R :=
  if Z.eq_dec k 0 then srcmms_mass x y
  else if Z.eq_dec k 1 then srcmms_xmtm x y
  else srcmms_ymtm x y.

(** State of the source array when the loops of [compute_source_terms] are at
    row [a], column [b]. *)
Definition sources_upto (s : Array3) (a b : Z) (t : Array3) : Prop :=
  forall i j k, (0 <= j < jmax)%Z -> (0 <= k < neq)%Z ->
    (interior i j /\ (i < a \/ (i = a /\ j < b))%Z ->
       get3 t i j k = IZR imms * srcmms k (xnode i) (ynode j)) /\
    (~ (interior i j /\ (i < a \/ (i = a /\ j < b))%Z) ->
       get3 t i j k = get3 s i j k).

(** Both eigenvalue locals of [Compute_Artificial_Viscosity] are zero; cell
    [(i, j)] of both dissipation arrays holds zero. *)
Definition av_quiet (s : AVst) : Prop := av_lambda_x s = 0 /\ av_lambda_y s = 0.

Definition av_zero_at (s : AVst) (i j : Z) : Prop :=
  get2 (av_viscx s) i j = 0 /\ get2 (av_viscy s) i j = 0.

(** The state after [k] passes of the loop body, the first with iteration
    number [n]. *)
Fixpoint passes (k : nat) (n : Z) (iterationStep : iterationStepPointer)
    (set_boundary_conditions : boundaryConditionPointer)
    (g : Z -> AVlocals * AVlocals) (s : Solver) : Solver :=
  match k with
  | O => s
  | S k' =>
      passes k' (n + 1) iterationStep set_boundary_conditions g
        (main_body iterationStep set_boundary_conditions (g n) s)
  end.

(** The two iteration steps that [main] can select. *)
Definition selectable (iterationStep : iterationStepPointer) : Prop :=
  iterationStep = GS_iteration \/
  iterationStep = (fun bc g1 _ f => PJ_iteration bc g1 f).

(** The two shapes of a mode of the manufactured solution: [wave f a] is
    [sin a] when the flag [f] is 1 and [cos a] when it is 0; [wave' f a] is
    its derivative with respect to [a]. *)
Definition wave (f a : R) : R := f * sin a + (one - f) * cos a.
Definition wave' (f a : R) : R := f * cos a - (one - f) * sin a.

(** The first and second partial derivatives of [umms]. *)
Definition umms_dx (x y : R) (k : Z) : R :=
  phix k * (apx k * rpi / rlength) * wave' (fsinx k) (apx k * rpi * x / rlength)
  + phixy k * (apxy k * rpi * y / rlength / rlength)
    * wave' (fsinxy k) (apxy k * rpi * x * y / rlength / rlength).

Definition umms_dy (x y : R) (k : Z) : R :=
  phiy k * (apy k * rpi / rlength) * wave' (fsiny k) (apy k * rpi * y / rlength)
  + phixy k * (apxy k * rpi * x / rlength / rlength)
    * wave' (fsinxy k) (apxy k * rpi * x * y / rlength / rlength).

Definition umms_dxx (x y : R) (k : Z) : R :=
  - phix k * (apx k * rpi / rlength) ^ 2 * wave (fsinx k) (apx k * rpi * x / rlength)
  - phixy k * (apxy k * rpi * y / rlength / rlength) ^ 2
    * wave (fsinxy k) (apxy k * rpi * x * y / rlength / rlength).

Definition umms_dyy (x y : R) (k : Z) : R :=
  - phiy k * (apy k * rpi / rlength) ^ 2 * wave (fsiny k) (apy k * rpi * y / rlength)
  - phixy k * (apxy k * rpi * x / rlength / rlength) ^ 2
    * wave (fsinxy k) (apxy k * rpi * x * y / rlength / rlength).

(** The value that the loop body of a sweep (lines 1114-1129 and 1178-1193)
    stores in entry [k] of cell [(i, j)], written out on the values [c] of
    the cell and [w], [e], [so], [n] of its west, east, south and north
    neighbours when the pass starts (each a function of the entry index).
    The y-velocity is computed with the x-velocity that the pass has just
    stored. *)
Definition gs_update (viscx viscy dt : Array2) (s : Array3) (i j : Z)
    (c w e so n : Z -> R) (k : Z) : R :=
  let dpdx := (e 0%Z - w 0%Z) / (2 * dx) in
  let dudx := (e 1%Z - w 1%Z) / (2 * dx) in
  let dvdx := (e 2%Z - w 2%Z) / (2 * dx) in
  let dpdy := (n 0%Z - so 0%Z) / (2 * dy) in
  let dudy := (n 1%Z - so 1%Z) / (2 * dy) in
  let dvdy := (n 2%Z - so 2%Z) / (2 * dy) in
  let d2udx2 := (e 1%Z - (2 * c 1%Z) + w 1%Z) / (dx * dx) in
  let d2vdx2 := (e 2%Z - (2 * c 2%Z) + w 2%Z) / (dx * dx) in
  let d2udy2 := (n 1%Z - (2 * c 1%Z) + so 1%Z) / (dy * dy) in
  let d2vdy2 := (n 2%Z - (2 * c 2%Z) + so 2%Z) / (dy * dy) in
  let uvel2 := (c 1%Z * c 1%Z) + (c 2%Z * c 2%Z) in
  let beta2 := Rmax uvel2 (rkappa * vel2ref) in
  let pnew :=
    c 0%Z - (beta2 * get2 dt i j *
       ((rho * dudx) + (rho * dvdy) - get2 viscx i j - get2 viscy i j - get3 s i j 0)) in
  let unew :=
    c 1%Z - (get2 dt i j * rhoinv *
       ((rho * c 1%Z * dudx) + (rho * c 2%Z * dudy) + dpdx
        - (rmu * d2udx2) - (rmu * d2udy2) - get3 s i j 1)) in
  let vnew :=
    c 2%Z - (get2 dt i j * rhoinv *
       ((rho * unew * dvdx) + (rho * c 2%Z * dvdy) + dpdy
        - (rmu * d2vdx2) - (rmu * d2vdy2) - get3 s i j 2)) in
  if Z.eq_dec k 0 then pnew else if Z.eq_dec k 1 then unew else vnew.

(** The interior cells that no loop and no block of
    [Compute_Artificial_Viscosity] visits. *)
Definition av_skipped (i j : Z) : Prop :=
  (1 <= i <= imax - 3 /\ 1 <= j <= jmax - 3 /\
   (i = 1 \/ j = 1 \/ i = imax - 3 \/ j = jmax - 3) /\ ~ (i = 1 /\ j = 1))%Z.

(** *** Concrete inputs on the 65 x 65 grid of the program *)

(** The field and the arrays with every entry zero. *)
Definition zeros : buffer := fun _ => 0.

Definition no_locals : AVlocals := mkAVlocals 0 0 0 0.

(** All six grid arrays zero: a fluid at rest with zero pressure, zero source
    and zero dissipation. *)
Definition all_zero : Fields := mkFields zeros zeros zeros zeros zeros zeros.

(** A dissipation array that holds 1 at cell (1, 2) (flat index 1*65 + 2 = 67)
    and 0 elsewhere, and a time-step array that holds 1 everywhere. *)
Definition stale : buffer := fun n => if Z.eqb n 67 then 1 else 0.

Definition ones : buffer := fun _ => 1.

(** Fluid at rest with pressure 1 at cell (2, 2) and 0 elsewhere (flat index
    2*65*3 + 2*3 + 0 = 396). *)
Definition spike : buffer := fun n => if Z.eqb n 396 then 1 else 0.

(** Fluid at rest except for the x-velocity 3 at cell (1, 1) (flat index
    1*65*3 + 1*3 + 1 = 199). *)
Definition fast : buffer := fun n => if Z.eqb n 199 then 3 else 0.

(** Fluid at rest with the pressure decoupled between odd and even columns
    of the 65 x 65 grid: pressure 1 in the cells with even [i], 0 in the
    cells with odd [i] (flat index n = i*195 + j*3 + k). *)
Definition checker : buffer :=
  fun n => if (Z.eqb (n mod 3) 0 && Z.even (n / 195))%bool then 1 else 0.

(** A dissipation array that holds 1 at cell (4, 4) (flat index
    4*65 + 4 = 264) and 0 elsewhere. *)
Definition marked : buffer := fun n => if Z.eqb n 264 then 1 else 0.

(** The field of a run from scratch on the 65 x 65 grid: pressure [pinf]
    (entry 0 of every cell), x-velocity [uinf] in the top row (entry 1 of the
    cells with j = 64), zero elsewhere. *)
Definition lid_field : buffer :=
  fun n =>
    if Z.eqb (n mod 3) 0 then pinf
    else if (Z.eqb (n mod 3) 1 && Z.eqb ((n / 3) mod 65) 64)%bool then uinf
    else 0.

(** ** Tactics for index side conditions *)

Ltac idx_lia := unfold neq in *; lia.
Ltac grid_lia := unfold interior, in_grid, neq in *; lia.

(** ** Loop rules *)

Lemma iter_up_inv {St : Type} (P : Z -> St -> Prop) (body : Z -> St -> St) :
  forall (n : nat) (i : Z) (s : St),
    P i s ->
    (forall k t, (i <= k < i + Z.of_nat n)%Z -> P k t -> P (k + 1)%Z (body k t)) ->
    P (i + Z.of_nat n)%Z (iter_up n i body s).
Proof.
  induction n as [|n IH]; intros i s H0 Hstep.
  - replace (i + Z.of_nat 0)%Z with i by lia. exact H0.
  - simpl iter_up.
    replace (i + Z.of_nat (S n))%Z with ((i + 1) + Z.of_nat n)%Z by lia.
    apply IH.
    + apply Hstep; [lia | exact H0].
    + intros k t Hk. apply Hstep. lia.
Qed.

Lemma for_lt_inv {St : Type} (P : Z -> St -> Prop) (lo hi : Z)
    (body : Z -> St -> St) (s : St) :
  (lo <= hi)%Z ->
  P lo s ->
  (forall k t, (lo <= k < hi)%Z -> P k t -> P (k + 1)%Z (body k t)) ->
  P hi (for_lt lo hi body s).
Proof.
  intros Hle H0 Hstep. unfold for_lt.
  replace hi with (lo + Z.of_nat (Z.to_nat (hi - lo)))%Z at 1 by lia.
  apply iter_up_inv; [exact H0|].
  intros k t Hk. apply Hstep. lia.
Qed.

Lemma for_lt_nop {St : Type} (lo hi : Z) (body : Z -> St -> St) (s : St) :
  (hi <= lo)%Z -> for_lt lo hi body s = s.
Proof.
  intros H. unfold for_lt. replace (Z.to_nat (hi - lo)) with O by lia. reflexivity.
Qed.

Lemma iter_down_inv {St : Type} (P : Z -> St -> Prop) (body : Z -> St -> St) :
  forall (n : nat) (i : Z) (s : St),
    P i s ->
    (forall k t, (i - Z.of_nat n < k <= i)%Z -> P k t -> P (k - 1)%Z (body k t)) ->
    P (i - Z.of_nat n)%Z (iter_down n i body s).
Proof.
  induction n as [|n IH]; intros i s H0 Hstep.
  - replace (i - Z.of_nat 0)%Z with i by lia. exact H0.
  - simpl iter_down.
    replace (i - Z.of_nat (S n))%Z with ((i - 1) - Z.of_nat n)%Z by lia.
    apply IH.
    + apply Hstep; [lia | exact H0].
    + intros k t Hk. apply Hstep. lia.
Qed.

Lemma for_gt_inv {St : Type} (P : Z -> St -> Prop) (hi lo : Z)
    (body : Z -> St -> St) (s : St) :
  (lo <= hi)%Z ->
  P hi s ->
  (forall k t, (lo < k <= hi)%Z -> P k t -> P (k - 1)%Z (body k t)) ->
  P lo (for_gt hi lo body s).
Proof.
  intros Hle H0 Hstep. unfold for_gt.
  replace lo with (hi - Z.of_nat (Z.to_nat (hi - lo)))%Z at 1 by lia.
  apply iter_down_inv; [exact H0|].
  intros k t Hk. apply Hstep. lia.
Qed.

(** A property that every pass preserves holds after the loop. *)
Lemma for_lt_preserve {St : Type} (Q : St -> Prop) (lo hi : Z)
    (body : Z -> St -> St) (s : St) :
  Q s ->
  (forall k t, (lo <= k < hi)%Z -> Q t -> Q (body k t)) ->
  Q (for_lt lo hi body s).
Proof.
  intros H0 Hstep. destruct (Z_le_dec lo hi) as [Hle|Hgt].
  - apply (for_lt_inv (fun _ t => Q t)); [exact Hle | exact H0 | exact Hstep].
  - rewrite for_lt_nop by lia. exact H0.
Qed.

(** Nested loops: [P i j t] holds of the state [t] in which the inner loop of
    row [i] is about to run its pass [j]. *)
Lemma for2_lt_inv {St : Type} (P : Z -> Z -> St -> Prop) (ilo ihi jlo jhi : Z)
    (body : Z -> Z -> St -> St) (s : St) :
  (ilo <= ihi)%Z -> (jlo <= jhi)%Z ->
  P ilo jlo s ->
  (forall i j t, (ilo <= i < ihi)%Z -> (jlo <= j < jhi)%Z ->
     P i j t -> P i (j + 1)%Z (body i j t)) ->
  (forall i t, (ilo <= i < ihi)%Z -> P i jhi t -> P (i + 1)%Z jlo t) ->
  P ihi jlo (for_lt ilo ihi (fun i t => for_lt jlo jhi (fun j t0 => body i j t0) t) s).
Proof.
  intros Hi Hj H0 Hin Hout.
  apply (for_lt_inv (fun i t => P i jlo t)); [exact Hi | exact H0 |].
  intros i t Hir Ht. apply Hout; [exact Hir|].
  apply (for_lt_inv (fun j t0 => P i j t0)); [exact Hj | exact Ht |].
  intros j t0 Hjr Ht0. apply Hin; assumption.
Qed.

Lemma for2_gt_inv {St : Type} (P : Z -> Z -> St -> Prop) (ihi ilo jhi jlo : Z)
    (body : Z -> Z -> St -> St) (s : St) :
  (ilo <= ihi)%Z -> (jlo <= jhi)%Z ->
  P ihi jhi s ->
  (forall i j t, (ilo < i <= ihi)%Z -> (jlo < j <= jhi)%Z ->
     P i j t -> P i (j - 1)%Z (body i j t)) ->
  (forall i t, (ilo < i <= ihi)%Z -> P i jlo t -> P (i - 1)%Z jhi t) ->
  P ilo jhi (for_gt ihi ilo (fun i t => for_gt jhi jlo (fun j t0 => body i j t0) t) s).
Proof.
  intros Hi Hj H0 Hin Hout.
  apply (for_gt_inv (fun i t => P i jhi t)); [exact Hi | exact H0 |].
  intros i t Hir Ht. apply Hout; [exact Hir|].
  apply (for_gt_inv (fun j t0 => P i j t0)); [exact Hj | exact Ht |].
  intros j t0 Hjr Ht0. apply Hin; assumption.
Qed.

(** ** Flat indexing *)


Lemma upd_eq (b : buffer) (n : Z) (v : R) : upd b n v n = v.
Proof. unfold upd. destruct (Z.eq_dec n n); [reflexivity | contradiction]. Qed.

Lemma upd_neq (b : buffer) (n m : Z) (v : R) : m <> n -> upd b n v m = b m.
Proof. intros H. unfold upd. destruct (Z.eq_dec m n); [contradiction | reflexivity]. Qed.

(** Two cells of the logical domain with the same flat index are the same
    cell (the first index need not be bounded). *)
Lemma idx3_inj (i j k i' j' k' : Z) :
  (0 <= j < jmax)%Z -> (0 <= j' < jmax)%Z ->
  (0 <= k < neq)%Z -> (0 <= k' < neq)%Z ->
  idx3 i j k = idx3 i' j' k' -> i = i' /\ j = j' /\ k = k'.
Proof.
  unfold idx3, neq. intros Hj Hj' Hk Hk' H.
  assert (Hk2 : k = k') by lia.
  assert (Hij : (i * jmax + j = i' * jmax + j')%Z) by lia.
  assert (Hi : i = i') by nia.
  subst. repeat split; lia.
Qed.

Lemma idx2_inj (i j i' j' : Z) :
  (0 <= j < jmax)%Z -> (0 <= j' < jmax)%Z ->
  idx2 i j = idx2 i' j' -> i = i' /\ j = j'.
Proof.
  unfold idx2. intros Hj Hj' H.
  assert (Hi : i = i') by nia.
  subst. split; lia.
Qed.

Lemma get3_set3_eq (u : Array3) (i j k : Z) (v : R) :
  get3 (set3 u i j k v) i j k = v.
Proof. unfold get3, set3. apply upd_eq. Qed.

Lemma get3_set3_neq (u : Array3) (i j k i' j' k' : Z) (v : R) :
  (0 <= j < jmax)%Z -> (0 <= j' < jmax)%Z ->
  (0 <= k < neq)%Z -> (0 <= k' < neq)%Z ->
  (i <> i' \/ j <> j' \/ k <> k')%Z ->
  get3 (set3 u i j k v) i' j' k' = get3 u i' j' k'.
Proof.
  intros Hj Hj' Hk Hk' Hne. unfold get3, set3. apply upd_neq.
  intros Heq. apply idx3_inj in Heq; lia.
Qed.

Lemma get2_set2_eq (a : Array2) (i j : Z) (v : R) :
  get2 (set2 a i j v) i j = v.
Proof. unfold get2, set2. apply upd_eq. Qed.

Lemma get2_set2_neq (a : Array2) (i j i' j' : Z) (v : R) :
  (0 <= j < jmax)%Z -> (0 <= j' < jmax)%Z ->
  (i <> i' \/ j <> j')%Z ->
  get2 (set2 a i j v) i' j' = get2 a i' j'.
Proof.
  intros Hj Hj' Hne. unfold get2, set2. apply upd_neq.
  intros Heq. apply idx2_inj in Heq; lia.
Qed.

(** ** pressure_rescaling *)

Lemma pressure_rescaling_deltap (u : Array3) :
  (if Z.eq_dec imms 1 then
     get3 u ((imax - 1) ÷ 2) ((jmax - 1) ÷ 2) 0
     - umms ((xmax - xmin) * IZR ((imax - 1) ÷ 2) / IZR (imax - 1))
            ((ymax - ymin) * IZR ((jmax - 1) ÷ 2) / IZR (jmax - 1)) 0
   else get3 u ((imax - 1) ÷ 2) ((jmax - 1) ÷ 2) 0 - pinf) = deltap u.
Proof.
  unfold deltap, reference_pressure, iref, jref.
  destruct (Z.eq_dec imms 1); reflexivity.
Qed.

Lemma rescale_inner (u : Array3) (d : R) (a : Z) (s : Array3) :
  (0 <= a < imax)%Z -> (0 < jmax)%Z ->
  rescaled_upto u d a 0 s ->
  rescaled_upto u d a jmax
    (for_lt 0 jmax (fun j t => set3 t a j 0 (get3 t a j 0 - d)) s).
Proof.
  intros Ha Hj H0.
  apply (for_lt_inv (fun b t => rescaled_upto u d a b t)); [lia | exact H0 |].
  intros b t Hb Ht i j Hij.
  destruct (Ht i j Hij) as (Hdone & Htodo & H1 & H2).
  destruct (Ht a b) as (_ & Hab & _); [split; lia|].
  unfold in_grid in Hij.
  destruct (Z.eq_dec i a) as [Hia|Hia]; [destruct (Z.eq_dec j b) as [Hjb|Hjb]|].
  - subst i j. rewrite get3_set3_eq.
    rewrite !get3_set3_neq by idx_lia.
    rewrite Hab by lia. repeat split; auto; intros; lia.
  - subst i. rewrite !get3_set3_neq by idx_lia.
    repeat split; auto; intros; [apply Hdone | apply Htodo]; lia.
  - rewrite !get3_set3_neq by idx_lia.
    repeat split; auto; intros; [apply Hdone | apply Htodo]; lia.
Qed.

Lemma pressure_rescaling_cells (u : Array3) :
  (0 < imax)%Z -> (0 < jmax)%Z ->
  forall i j, in_grid i j ->
    get3 (pressure_rescaling u) i j 0 = get3 u i j 0 - deltap u /\
    get3 (pressure_rescaling u) i j 1 = get3 u i j 1 /\
    get3 (pressure_rescaling u) i j 2 = get3 u i j 2.
Proof.
  intros Hi Hj. unfold pressure_rescaling. cbv zeta.
  rewrite pressure_rescaling_deltap.
  assert (H : rescaled_upto u (deltap u) imax 0
    (for_lt 0 imax (fun i t =>
       for_lt 0 jmax (fun j t0 => set3 t0 i j 0 (get3 t0 i j 0 - deltap u)) t) u)).
  { apply (for_lt_inv (fun a t => rescaled_upto u (deltap u) a 0 t)); [lia | |].
    - intros i j Hij. repeat split; auto. unfold in_grid in Hij. intros; lia.
    - intros a t Ha Ht.
      pose proof (rescale_inner u (deltap u) a t Ha Hj Ht) as Hin.
      intros i j Hij. destruct (Hin i j Hij) as (Hd & Ht' & H1 & H2).
      unfold in_grid in Hij.
      repeat split; auto; intros; [apply Hd | apply Ht']; lia. }
  intros i j Hij. destruct (H i j Hij) as (Hd & _ & H1 & H2).
  unfold in_grid in Hij. repeat split; auto. apply Hd. lia.
Qed.

Lemma pressure_rescaling_keeps_velocity_cells (u : Array3) (i j k : Z) :
  in_grid i j -> (k = 1 \/ k = 2)%Z ->
  get3 (pressure_rescaling u) i j k = get3 u i j k.
Proof.
  intros Hij Hk.
  assert (Hi : (0 < imax)%Z) by (unfold in_grid in Hij; lia).
  assert (Hj : (0 < jmax)%Z) by (unfold in_grid in Hij; lia).
  destruct (pressure_rescaling_cells u Hi Hj i j Hij) as (_ & H1 & H2).
  destruct Hk; subst k; assumption.
Qed.

(** The center cell belongs to the grid. *)
Lemma center_in_grid : (0 < imax)%Z -> (0 < jmax)%Z -> in_grid iref jref.
Proof.
  intros Hi Hj. unfold in_grid, iref, jref.
  pose proof (Z.quot_pos (imax - 1) 2).
  pose proof (Z.quot_pos (jmax - 1) 2).
  pose proof (Z.quot_le_upper_bound (imax - 1) 2 (imax - 1)).
  pose proof (Z.quot_le_upper_bound (jmax - 1) 2 (jmax - 1)).
  lia.
Qed.

(** C5.  For any input field, [pressure_rescaling] subtracts the single value
    [deltap] = (pressure at the center cell) - (reference pressure: [pinf]
    when [imms = 0], the exact MMS pressure at the center when [imms = 1])
    from the pressure of every cell, so that after the call the center-cell
    pressure equals the reference value.  (Real arithmetic.) *)
Theorem pressure_rescaling_anchors (u : Array3) :
  (0 < imax)%Z -> (0 < jmax)%Z ->
  (imms = 0%Z -> reference_pressure = pinf) /\
  (imms = 1%Z -> reference_pressure =
     umms ((xmax - xmin) * IZR iref / IZR (imax - 1))
          ((ymax - ymin) * IZR jref / IZR (jmax - 1)) 0) /\
  deltap u = get3 u iref jref 0 - reference_pressure /\
  (forall i j, in_grid i j ->
     get3 (pressure_rescaling u) i j 0 = get3 u i j 0 - deltap u) /\
  get3 (pressure_rescaling u) iref jref 0 = reference_pressure.
Proof.
  intros Hi Hj. split; [|split; [|split; [|split]]].
  - intros H. unfold reference_pressure. destruct (Z.eq_dec imms 1); [lia | reflexivity].
  - intros H. unfold reference_pressure. destruct (Z.eq_dec imms 1); [reflexivity | lia].
  - reflexivity.
  - intros i j Hij. apply (pressure_rescaling_cells u Hi Hj i j Hij).
  - destruct (pressure_rescaling_cells u Hi Hj iref jref (center_in_grid Hi Hj)) as (H & _).
    rewrite H. unfold deltap. ring.
Qed.

(** C10.  For every input field, [pressure_rescaling] modifies only the
    pressure component (k = 0): the x-velocity (k = 1) and the y-velocity
    (k = 2) of every cell are unchanged by the call. *)
Theorem pressure_rescaling_keeps_velocity (u : Array3) (i j k : Z) :
  in_grid i j -> (k = 1 \/ k = 2)%Z ->
  get3 (pressure_rescaling u) i j k = get3 u i j k.
Proof.
  intros Hij Hk.
  assert (Hi : (0 < imax)%Z) by (unfold in_grid in Hij; lia).
  assert (Hj : (0 < jmax)%Z) by (unfold in_grid in Hij; lia).
  destruct (pressure_rescaling_cells u Hi Hj i j Hij) as (_ & H1 & H2).
  destruct Hk; subst k; assumption.
Qed.

(** ** bndry *)

Ltac arr3 :=
  repeat first
    [ rewrite get3_set3_eq
    | rewrite get3_set3_neq by idx_lia ].


Lemma bndry_side_sets (j : Z) (s : Array3) :
  (0 <= j < jmax)%Z -> side_walls_at_rest (bndry_side j s) j.
Proof.
  intros Hj. unfold side_walls_at_rest, bndry_side. cbv zeta.
  destruct (Z.eq_dec (imax - 1) 0) as [E|E].
  - rewrite E. arr3. auto.
  - arr3. auto.
Qed.

Lemma bndry_side_frame (j : Z) (s : Array3) (i' j' k' : Z) :
  (0 <= j < jmax)%Z -> (0 <= j' < jmax)%Z -> (0 <= k' < neq)%Z ->
  (j' <> j \/ (i' <> 0 /\ i' <> imax - 1))%Z ->
  get3 (bndry_side j s) i' j' k' = get3 s i' j' k'.
Proof.
  intros Hj Hj' Hk' Hne. unfold bndry_side. cbv zeta. arr3. reflexivity.
Qed.

Lemma bndry_topbot_sets (i : Z) (s : Array3) :
  (2 <= jmax)%Z -> floor_and_lid (bndry_topbot i s) i.
Proof.
  intros Hj. unfold floor_and_lid, bndry_topbot. cbv zeta. arr3. auto.
Qed.

Lemma bndry_topbot_frame (i : Z) (s : Array3) (i' j' k' : Z) :
  (2 <= jmax)%Z -> (0 <= j' < jmax)%Z -> (0 <= k' < neq)%Z ->
  (i' <> i \/ (j' <> 0 /\ j' <> jmax - 1))%Z ->
  get3 (bndry_topbot i s) i' j' k' = get3 s i' j' k'.
Proof.
  intros Hj Hj' Hk' Hne. unfold bndry_topbot. cbv zeta. arr3. reflexivity.
Qed.

(** Rows [1 .. jmax-2] of the two side walls are at rest, and every column of
    the bottom row is at rest and of the top row moves with the lid. *)
Lemma bndry_rows (u : Array3) :
  (2 <= jmax)%Z ->
  (forall j, (1 <= j < jmax - 1)%Z -> side_walls_at_rest (bndry u) j) /\
  (forall i, (0 <= i < imax)%Z -> floor_and_lid (bndry u) i).
Proof.
  intros Hj. unfold bndry. cbv zeta.
  set (s1 := for_lt 1 (jmax - 1) bndry_side u).
  assert (H1 : forall j, (1 <= j < jmax - 1)%Z -> side_walls_at_rest s1 j).
  { destruct (Z_le_dec 1 (jmax - 1)) as [Hle|Hgt].
    - unfold s1.
      apply (for_lt_inv (fun a t => forall j, (1 <= j < a)%Z -> side_walls_at_rest t j));
        [exact Hle | intros; lia |].
      intros a t Ha Ht j Hja.
      destruct (Z.eq_dec j a) as [->|Hne].
      + apply bndry_side_sets. lia.
      + unfold side_walls_at_rest.
        rewrite !bndry_side_frame by idx_lia.
        apply Ht. lia.
    - intros; lia. }
  destruct (Z_le_dec 0 imax) as [Hle|Hgt].
  - apply (for_lt_inv (fun a t =>
      (forall j, (1 <= j < jmax - 1)%Z -> side_walls_at_rest t j) /\
      (forall i, (0 <= i < a)%Z -> floor_and_lid t i)));
      [exact Hle | split; [exact H1 | intros; lia] |].
    intros a t Ha (Hs & Hf). split.
    + intros j Hjr. unfold side_walls_at_rest.
      rewrite !bndry_topbot_frame by idx_lia.
      apply Hs. exact Hjr.
    + intros i Hi.
      destruct (Z.eq_dec i a) as [->|Hne].
      * apply bndry_topbot_sets. exact Hj.
      * unfold floor_and_lid.
        rewrite !bndry_topbot_frame by idx_lia.
        apply Hf. lia.
  - rewrite for_lt_nop by lia. split; [exact H1 | intros; lia].
Qed.

(** C8.  For every field, after a call of [bndry]: the left wall (i = 0),
    the right wall (i = imax-1) and the bottom wall (j = 0) have
    (u,v) = (0,0); the top wall (j = jmax-1) has (u,v) = (uinf,0); the four
    corner cells take the values written by the top/bottom-wall loop, which
    runs last and covers i = 0 .. imax-1. *)
Theorem bndry_wall_velocities (u : Array3) :
  (2 <= jmax)%Z ->
  (forall j, (1 <= j <= jmax - 2)%Z ->
     get3 (bndry u) 0 j 1 = 0 /\ get3 (bndry u) 0 j 2 = 0 /\
     get3 (bndry u) (imax - 1) j 1 = 0 /\ get3 (bndry u) (imax - 1) j 2 = 0) /\
  (forall i, (0 <= i < imax)%Z ->
     get3 (bndry u) i 0 1 = 0 /\ get3 (bndry u) i 0 2 = 0 /\
     get3 (bndry u) i (jmax - 1) 1 = uinf /\ get3 (bndry u) i (jmax - 1) 2 = 0).
Proof.
  intros Hj. destruct (bndry_rows u Hj) as (Hs & Hf). split.
  - intros j Hjr.
    assert (Hjr' : (1 <= j < jmax - 1)%Z) by lia.
    exact (Hs j Hjr').
  - intros i Hi. exact (Hf i Hi).
Qed.

(** ** point_Jacobi *)

Lemma border_off_interior (i j k : Z) :
  in_grid i j -> (0 <= k < neq)%Z -> ~ interior i j -> off_interior (idx3 i j k).
Proof.
  intros Hij Hk Hni i' j' k' Hint Hk' Heq.
  unfold in_grid in Hij. unfold interior in Hint, Hni.
  apply idx3_inj in Heq; idx_lia.
Qed.

(** The three entries that the body writes are determined by [uold], the two
    dissipation arrays, [dt] and [s]: the array [w] it writes into does not
    matter. *)
Lemma pj_cell_value (uold : Array3) (viscx viscy dt : Array2) (s : Array3)
    (i j k : Z) (w w' : Array3) :
  (0 <= j < jmax)%Z -> (0 <= k < neq)%Z ->
  get3 (pj_cell uold viscx viscy dt s i j w) i j k =
  get3 (pj_cell uold viscx viscy dt s i j w') i j k.
Proof.
  intros Hj Hk. unfold pj_cell. cbv zeta.
  assert (Hc : (k = 0 \/ k = 1 \/ k = 2)%Z) by idx_lia.
  destruct Hc as [-> | [-> | ->]]; arr3; reflexivity.
Qed.

Lemma pj_cell_frame (uold : Array3) (viscx viscy dt : Array2) (s : Array3)
    (i j : Z) (w : Array3) (n : Z) :
  n <> idx3 i j 0 -> n <> idx3 i j 1 -> n <> idx3 i j 2 ->
  pj_cell uold viscx viscy dt s i j w n = w n.
Proof.
  intros H0 H1 H2. unfold pj_cell, set3. cbv zeta.
  rewrite !upd_neq by assumption. reflexivity.
Qed.

Lemma pj_cell_other (uold : Array3) (viscx viscy dt : Array2) (s : Array3)
    (i j : Z) (w : Array3) (i' j' k' : Z) :
  (0 <= j < jmax)%Z -> (0 <= j' < jmax)%Z -> (0 <= k' < neq)%Z ->
  (i' <> i \/ j' <> j)%Z ->
  get3 (pj_cell uold viscx viscy dt s i j w) i' j' k' = get3 w i' j' k'.
Proof.
  intros Hj Hj' Hk' Hne. unfold get3. apply pj_cell_frame;
    intros Heq; apply idx3_inj in Heq; idx_lia.
Qed.

(** What [point_Jacobi] leaves in [u]. *)
Lemma point_Jacobi_result (u uold : Array3) (viscx viscy dt : Array2) (s : Array3) :
  (forall n, off_interior n -> point_Jacobi u uold viscx viscy dt s n = u n) /\
  (forall i j k w, interior i j -> (0 <= k < neq)%Z ->
     get3 (point_Jacobi u uold viscx viscy dt s) i j k =
     get3 (pj_cell uold viscx viscy dt s i j w) i j k).
Proof.
  destruct (Z_le_dec 1 (imax - 1)) as [Hi|Hi];
    [destruct (Z_le_dec 1 (jmax - 1)) as [Hj|Hj]|].
  - set (P := fun (a b : Z) (t : Array3) =>
      (forall n, off_interior n -> t n = u n) /\
      (forall i j k w, interior i j -> (0 <= k < neq)%Z ->
         (i < a \/ (i = a /\ j < b))%Z ->
         get3 t i j k = get3 (pj_cell uold viscx viscy dt s i j w) i j k)).
    assert (H : P (imax - 1)%Z 1%Z (point_Jacobi u uold viscx viscy dt s)).
    { unfold point_Jacobi.
      apply (for2_lt_inv P); [exact Hi | exact Hj | | |]; unfold P.
      + split; [reflexivity | intros; grid_lia].
      + intros a b t Ha Hb (Hoff & Hdone). split.
        * intros n Hn. rewrite pj_cell_frame; [apply Hoff; exact Hn | | |];
            apply Hn; unfold interior; idx_lia.
        * intros i j k w Hint Hk Hlt. pose proof Hint as Hint'. unfold interior in Hint'.
          destruct (Z.eq_dec i a) as [->|Hia]; [destruct (Z.eq_dec j b) as [->|Hjb]|].
          -- apply pj_cell_value; idx_lia.
          -- rewrite pj_cell_other by idx_lia. apply Hdone; [exact Hint | exact Hk | lia].
          -- rewrite pj_cell_other by idx_lia. apply Hdone; [exact Hint | exact Hk | lia].
      + intros a t Ha (Hoff & Hdone). split; [exact Hoff|].
        intros i j k w Hint Hk Hlt. apply Hdone; [exact Hint | exact Hk |].
        unfold interior in Hint. lia. }
    destruct H as (Hoff & Hdone). split; [exact Hoff|].
    intros i j k w Hint Hk. apply Hdone; [exact Hint | exact Hk |].
    unfold interior in Hint. lia.
  - unfold point_Jacobi. split.
    + intros n _.
      apply (for_lt_inv (fun _ t => t n = u n)); [exact Hi | reflexivity |].
      intros a t _ Ht. rewrite for_lt_nop by lia. exact Ht.
    + intros i j k w Hint. unfold interior in Hint. lia.
  - unfold point_Jacobi. rewrite for_lt_nop by lia. split; [reflexivity|].
    intros i j k w Hint. unfold interior in Hint. lia.
Qed.

(** C6.  In a Point-Jacobi iteration, after the swap of the current and the
    old field ([uold] now holds the pre-update iterate), the per-cell update
    writes only interior cells of the current field, takes every value it
    uses of the solution from the old field (the previous contents of the
    current field have no influence on what is written), and leaves every
    border cell of the current field as it was; the boundary-condition
    provider is applied to the result afterwards. *)
Theorem PJ_update_writes_interior_reads_old
    (set_boundary_conditions : boundaryConditionPointer) (g : AVlocals) (f : Fields) :
  let uold := fst (swapData3 (f_uold f) (f_u f)) in
  let u := snd (swapData3 (f_uold f) (f_u f)) in
  let visc := Compute_Artificial_Viscosity g uold (f_viscx f) (f_viscy f) in
  let u' := point_Jacobi u uold (fst visc) (snd visc) (f_dt f) (f_src f) in
  uold = f_u f /\ u = f_uold f /\
  f_uold (PJ_iteration set_boundary_conditions g f) = uold /\
  f_u (PJ_iteration set_boundary_conditions g f) = set_boundary_conditions u' /\
  (forall n, off_interior n -> u' n = u n) /\
  (forall i j k, border i j -> (0 <= k < neq)%Z -> get3 u' i j k = get3 u i j k) /\
  (forall w i j k, interior i j -> (0 <= k < neq)%Z ->
     get3 u' i j k =
     get3 (point_Jacobi w uold (fst visc) (snd visc) (f_dt f) (f_src f)) i j k).
Proof.
  intros uold u visc u'.
  destruct (point_Jacobi_result u uold (fst visc) (snd visc) (f_dt f) (f_src f))
    as (Hoff & Hin).
  repeat split.
  - exact Hoff.
  - intros i j k (Hij & Hb) Hk. unfold get3. apply Hoff.
    apply border_off_interior; [exact Hij | exact Hk |].
    unfold interior. unfold in_grid in Hij. lia.
  - intros w i j k Hint Hk.
    destruct (point_Jacobi_result w uold (fst visc) (snd visc) (f_dt f) (f_src f))
      as (_ & Hin').
    unfold u'. rewrite (Hin i j k w Hint Hk). rewrite (Hin' i j k w Hint Hk).
    reflexivity.
Qed.

(** ** The Gauss-Seidel sweeps *)

Lemma sgs_cell_frame (viscx viscy dt : Array2) (s : Array3)
    (i j : Z) (w : Array3) (n : Z) :
  n <> idx3 i j 0 -> n <> idx3 i j 1 -> n <> idx3 i j 2 ->
  sgs_cell viscx viscy dt s i j w n = w n.
Proof.
  intros H0 H1 H2. unfold sgs_cell, set3. cbv zeta.
  rewrite !upd_neq by assumption. reflexivity.
Qed.

Lemma sgs_cell_other (viscx viscy dt : Array2) (s : Array3)
    (i j : Z) (w : Array3) (i' j' : Z) :
  (0 <= j < jmax)%Z -> (0 <= j' < jmax)%Z ->
  (i' <> i \/ j' <> j)%Z ->
  agree_at (sgs_cell viscx viscy dt s i j w) w i' j'.
Proof.
  intros Hj Hj' Hne k Hk. unfold get3. apply sgs_cell_frame;
    intros Heq; apply idx3_inj in Heq; idx_lia.
Qed.

(** The body reads the field at the cell and at its four neighbours only. *)
Lemma sgs_cell_local (viscx viscy dt : Array2) (s : Array3)
    (i j : Z) (w1 w2 : Array3) :
  (0 <= j < jmax)%Z ->
  agree_at w1 w2 i j ->
  agree_at w1 w2 (i + 1) j -> agree_at w1 w2 (i - 1) j ->
  agree_at w1 w2 i (j + 1) -> agree_at w1 w2 i (j - 1) ->
  agree_at (sgs_cell viscx viscy dt s i j w1) (sgs_cell viscx viscy dt s i j w2) i j.
Proof.
  intros Hj Hc He Hw Hn Hs k Hk.
  assert (K0 : (0 <= 0 < neq)%Z) by idx_lia.
  assert (K1 : (0 <= 1 < neq)%Z) by idx_lia.
  assert (K2 : (0 <= 2 < neq)%Z) by idx_lia.
  pose proof (Hc _ K0) as Hc0. pose proof (Hc _ K1) as Hc1. pose proof (Hc _ K2) as Hc2.
  pose proof (He _ K0) as He0. pose proof (He _ K1) as He1. pose proof (He _ K2) as He2.
  pose proof (Hw _ K0) as Hw0. pose proof (Hw _ K1) as Hw1. pose proof (Hw _ K2) as Hw2.
  pose proof (Hn _ K0) as Hn0. pose proof (Hn _ K1) as Hn1. pose proof (Hn _ K2) as Hn2.
  pose proof (Hs _ K0) as Hs0. pose proof (Hs _ K1) as Hs1. pose proof (Hs _ K2) as Hs2.
  unfold sgs_cell. cbv zeta.
  assert (Hcase : (k = 0 \/ k = 1 \/ k = 2)%Z) by idx_lia.
  destruct Hcase as [-> | [-> | ->]]; arr3;
    rewrite ?Hc0, ?Hc1, ?Hc2, ?He0, ?He1, ?He2, ?Hw0, ?Hw1, ?Hw2,
            ?Hn0, ?Hn1, ?Hn2, ?Hs0, ?Hs1, ?Hs2; reflexivity.
Qed.

Section Sweep.

Variables viscx viscy dt : Array2.
Variables s u : Array3.

(** Direction of the sweep: [1] for ascending, [-1] for descending indices. *)
Variable d : Z.
Hypothesis Hd : (d = 1 \/ d = -1)%Z.

Lemma sweep_inv_ext (Done Done' : Z -> Z -> Prop) (t : Array3) :
  (forall i j, interior i j -> (Done i j <-> Done' i j)) ->
  sweep_inv viscx viscy dt s u d Done t -> sweep_inv viscx viscy dt s u d Done' t.
Proof.
  intros Hext (Hoff & Hold & Hnew). repeat split.
  - exact Hoff.
  - intros i j Hij Hn. apply Hold; [exact Hij|].
    intros (Hint & HD). apply Hn. split; [exact Hint|]. apply Hext; assumption.
  - intros i j Hint HD. apply Hnew; [exact Hint|]. apply Hext; assumption.
Qed.

Lemma sweep_inv_step (Done : Z -> Z -> Prop) (t : Array3) (a b : Z) :
  interior a b ->
  ~ Done a b -> ~ Done (a + d)%Z b -> ~ Done a (b + d)%Z ->
  (forall i j, interior i j -> Done i j ->
     ((i - d <> a \/ j <> b) /\ (i <> a \/ j - d <> b))%Z) ->
  sweep_inv viscx viscy dt s u d Done t ->
  sweep_inv viscx viscy dt s u d (fun i j => Done i j \/ (i = a /\ j = b)) (sgs_cell viscx viscy dt s a b t).
Proof.
  intros Hab Hnab Hne Hnn Hup (Hoff & Hold & Hnew).
  pose proof Hab as Hab'. unfold interior in Hab'.
  repeat split.
  - intros n Hn. rewrite sgs_cell_frame; [apply Hoff; exact Hn | | |];
      apply Hn; solve [exact Hab | idx_lia].
  - intros i j Hij Hn k Hk. pose proof Hij as Hij'. unfold in_grid in Hij'.
    destruct (Z.eq_dec i a) as [Hia|Hia]; [destruct (Z.eq_dec j b) as [Hjb|Hjb]|].
    + exfalso. apply Hn. subst. split; [exact Hab | right; split; reflexivity].
    + rewrite sgs_cell_other by idx_lia.
      apply Hold; [exact Hij | | exact Hk].
      intros (Hint & HD). apply Hn. split; [exact Hint | left; exact HD].
    + rewrite sgs_cell_other by idx_lia.
      apply Hold; [exact Hij | | exact Hk].
      intros (Hint & HD). apply Hn. split; [exact Hint | left; exact HD].
  - intros i j Hint [HD | (Hia & Hjb)].
    + (* a cell visited earlier *)
      pose proof Hint as Hint'. unfold interior in Hint'.
      destruct (Hup i j Hint HD) as (Hu1 & Hu2).
      assert (Hne' : (i <> a \/ j <> b)%Z).
      { destruct (Z.eq_dec i a) as [->|]; [|left; assumption].
        destruct (Z.eq_dec j b) as [->|]; [contradiction | right; assumption]. }
      intros w H1 H2 H3 H4 H5 k Hk.
      rewrite sgs_cell_other by idx_lia.
      apply (Hnew i j Hint HD w); try assumption.
      * intros k' Hk'. rewrite H1 by exact Hk'. apply sgs_cell_other; idx_lia.
      * intros k' Hk'. rewrite H2 by exact Hk'. apply sgs_cell_other; idx_lia.
    + (* the cell visited now *)
      subst i j. intros w H1 H2 H3 H4 H5.
      assert (Hg : forall i j, in_grid i j -> ~ Done i j -> agree_at t u i j).
      { intros i j Hij HnD. apply Hold; [exact Hij|]. intros (_ & HD). contradiction. }
      assert (Ht_c : agree_at t u a b) by (apply Hg; [grid_lia | exact Hnab]).
      assert (Ht_e : agree_at t u (a + d) b) by (apply Hg; [grid_lia | exact Hne]).
      assert (Ht_n : agree_at t u a (b + d)) by (apply Hg; [grid_lia | exact Hnn]).
      assert (H1' : agree_at w t (a - d) b).
      { intros k Hk. rewrite H1 by exact Hk. apply sgs_cell_other; idx_lia. }
      assert (H2' : agree_at w t a (b - d)).
      { intros k Hk. rewrite H2 by exact Hk. apply sgs_cell_other; idx_lia. }
      assert (H3' : agree_at w t a b).
      { intros k Hk. rewrite H3, Ht_c by exact Hk. reflexivity. }
      assert (H4' : agree_at w t (a + d) b).
      { intros k Hk. rewrite H4, Ht_e by exact Hk. reflexivity. }
      assert (H5' : agree_at w t a (b + d)).
      { intros k Hk. rewrite H5, Ht_n by exact Hk. reflexivity. }
      intros k Hk. symmetry. revert k Hk.
      change (agree_at (sgs_cell viscx viscy dt s a b w) (sgs_cell viscx viscy dt s a b t) a b).
      destruct Hd as [Hd1 | Hd1]; rewrite Hd1 in H1', H2', H4', H5'.
      * apply sgs_cell_local; try assumption; try lia.
      * replace (a - -1)%Z with (a + 1)%Z in H1' by lia.
        replace (b - -1)%Z with (b + 1)%Z in H2' by lia.
        replace (a + -1)%Z with (a - 1)%Z in H4' by lia.
        replace (b + -1)%Z with (b - 1)%Z in H5' by lia.
        apply sgs_cell_local; try assumption; try lia.
Qed.

End Sweep.

Lemma sweep_inv_start (viscx viscy dt : Array2) (s u : Array3) (d : Z)
    (Done : Z -> Z -> Prop) :
  (forall i j, interior i j -> ~ Done i j) ->
  sweep_inv viscx viscy dt s u d Done u.
Proof.
  intros Hnone. repeat split.
  - intros i j Hint HD. exfalso. apply (Hnone i j Hint HD).
Qed.

(** After the forward sweep every interior cell has been visited. *)
Lemma SGS_forward_sweep_result (u : Array3) (viscx viscy dt : Array2) (s : Array3) :
  sweep_inv viscx viscy dt s u 1 (fun _ _ => True)
    (SGS_forward_sweep u viscx viscy dt s).
Proof.
  destruct (Z_le_dec 1 (imax - 1)) as [Hi|Hi];
    [destruct (Z_le_dec 1 (jmax - 1)) as [Hj|Hj]|].
  - set (P := fun (a b : Z) (t : Array3) =>
      sweep_inv viscx viscy dt s u 1 (fun i j => (i < a \/ (i = a /\ j < b))%Z) t).
    assert (H : P (imax - 1)%Z 1%Z (SGS_forward_sweep u viscx viscy dt s)).
    { unfold SGS_forward_sweep.
      apply (for2_lt_inv P); [exact Hi | exact Hj | | |]; unfold P.
      - apply sweep_inv_start. intros i j Hint. grid_lia.
      - intros a b t Ha Hb Ht.
        apply (sweep_inv_ext viscx viscy dt s u 1
                 (fun i j => (i < a \/ (i = a /\ j < b)) \/ (i = a /\ j = b))%Z).
        + intros i j _. lia.
        + apply sweep_inv_step; try lia; [grid_lia | exact Ht].
      - intros a t Ha Ht.
        apply (sweep_inv_ext viscx viscy dt s u 1
                 (fun i j => (i < a \/ (i = a /\ j < jmax - 1)))%Z);
          [|exact Ht].
        intros i j Hint. grid_lia. }
    apply (sweep_inv_ext viscx viscy dt s u 1
             (fun i j => (i < imax - 1 \/ (i = imax - 1 /\ j < 1)))%Z); [|exact H].
    intros i j Hint. split; [trivial | intros _; grid_lia].
  - assert (E : SGS_forward_sweep u viscx viscy dt s = u).
    { unfold SGS_forward_sweep.
      apply (for_lt_inv (fun _ t => t = u)); [exact Hi | reflexivity |].
      intros a t _ ->. apply for_lt_nop. lia. }
    rewrite E. apply (sweep_inv_ext viscx viscy dt s u 1 (fun _ _ => False)).
    + intros i j Hint. grid_lia.
    + apply sweep_inv_start. intros i j _ F. exact F.
  - assert (E : SGS_forward_sweep u viscx viscy dt s = u).
    { unfold SGS_forward_sweep. apply for_lt_nop. lia. }
    rewrite E. apply (sweep_inv_ext viscx viscy dt s u 1 (fun _ _ => False)).
    + intros i j Hint. grid_lia.
    + apply sweep_inv_start. intros i j _ F. exact F.
Qed.

Lemma for_gt_nop {St : Type} (hi lo : Z) (body : Z -> St -> St) (s : St) :
  (hi <= lo)%Z -> for_gt hi lo body s = s.
Proof.
  intros H. unfold for_gt. replace (Z.to_nat (hi - lo)) with O by lia. reflexivity.
Qed.

(** After the backward sweep every interior cell has been visited. *)
Lemma SGS_backward_sweep_result (u : Array3) (viscx viscy dt : Array2) (s : Array3) :
  sweep_inv viscx viscy dt s u (-1) (fun _ _ => True)
    (SGS_backward_sweep u viscx viscy dt s).
Proof.
  destruct (Z_le_dec 0 (imax - 2)) as [Hi|Hi];
    [destruct (Z_le_dec 0 (jmax - 2)) as [Hj|Hj]|].
  - set (P := fun (a b : Z) (t : Array3) =>
      sweep_inv viscx viscy dt s u (-1) (fun i j => (i > a \/ (i = a /\ j > b))%Z) t).
    assert (H : P 0%Z (jmax - 2)%Z (SGS_backward_sweep u viscx viscy dt s)).
    { unfold SGS_backward_sweep.
      apply (for2_gt_inv P); [exact Hi | exact Hj | | |]; unfold P.
      - apply sweep_inv_start. intros i j Hint. grid_lia.
      - intros a b t Ha Hb Ht.
        apply (sweep_inv_ext viscx viscy dt s u (-1)
                 (fun i j => (i > a \/ (i = a /\ j > b)) \/ (i = a /\ j = b))%Z).
        + intros i j _. lia.
        + apply sweep_inv_step; try lia; [grid_lia | exact Ht].
      - intros a t Ha Ht.
        apply (sweep_inv_ext viscx viscy dt s u (-1)
                 (fun i j => (i > a \/ (i = a /\ j > 0)))%Z);
          [|exact Ht].
        intros i j Hint. grid_lia. }
    apply (sweep_inv_ext viscx viscy dt s u (-1)
             (fun i j => (i > 0 \/ (i = 0 /\ j > jmax - 2)))%Z); [|exact H].
    intros i j Hint. split; [trivial | intros _; grid_lia].
  - assert (E : SGS_backward_sweep u viscx viscy dt s = u).
    { unfold SGS_backward_sweep.
      apply (for_gt_inv (fun _ t => t = u)); [exact Hi | reflexivity |].
      intros a t _ ->. apply for_gt_nop. lia. }
    rewrite E. apply (sweep_inv_ext viscx viscy dt s u (-1) (fun _ _ => False)).
    + intros i j Hint. grid_lia.
    + apply sweep_inv_start. intros i j _ F. exact F.
  - assert (E : SGS_backward_sweep u viscx viscy dt s = u).
    { unfold SGS_backward_sweep. apply for_gt_nop. lia. }
    rewrite E. apply (sweep_inv_ext viscx viscy dt s u (-1) (fun _ _ => False)).
    + intros i j Hint. grid_lia.
    + apply sweep_inv_start. intros i j _ F. exact F.
Qed.

Lemma gs_view_new (t u : Array3) (d i j : Z) (n : Z) :
  In n (cell_entries (i - d) j ++ cell_entries i (j - d)) ->
  gs_view t u d i j n = t n.
Proof.
  intros Hin. unfold gs_view.
  replace (existsb (Z.eqb n) (cell_entries (i - d) j ++ cell_entries i (j - d)))
    with true; [reflexivity|].
  symmetry. apply existsb_exists. exists n. split; [exact Hin | apply Z.eqb_refl].
Qed.

Lemma gs_view_old (t u : Array3) (d i j : Z) (n : Z) :
  ~ In n (cell_entries (i - d) j ++ cell_entries i (j - d)) ->
  gs_view t u d i j n = u n.
Proof.
  intros Hin. unfold gs_view.
  destruct (existsb (Z.eqb n) (cell_entries (i - d) j ++ cell_entries i (j - d))) eqn:E;
    [|reflexivity].
  apply existsb_exists in E. destruct E as (m & Hm & Heq).
  apply Z.eqb_eq in Heq. subst m. contradiction.
Qed.

Lemma in_cell_entries (i j k : Z) :
  (0 <= k < neq)%Z -> In (idx3 i j k) (cell_entries i j).
Proof.
  intros Hk. assert (Hc : (k = 0 \/ k = 1 \/ k = 2)%Z) by idx_lia.
  unfold cell_entries. destruct Hc as [-> | [-> | ->]]; simpl; auto.
Qed.

Lemma not_in_cell_entries (i j k i' j' : Z) :
  (0 <= j < jmax)%Z -> (0 <= j' < jmax)%Z -> (0 <= k < neq)%Z ->
  (i <> i' \/ j <> j')%Z ->
  ~ In (idx3 i j k) (cell_entries i' j').
Proof.
  intros Hj Hj' Hk Hne Hin. unfold cell_entries in Hin. simpl in Hin.
  destruct Hin as [H | [H | [H | []]]]; apply idx3_inj in H; idx_lia.
Qed.

Lemma gs_view_agree (t u : Array3) (d i j : Z) :
  (d = 1 \/ d = -1)%Z -> interior i j ->
  agree_at (gs_view t u d i j) t (i - d) j /\
  agree_at (gs_view t u d i j) t i (j - d) /\
  agree_at (gs_view t u d i j) u i j /\
  agree_at (gs_view t u d i j) u (i + d) j /\
  agree_at (gs_view t u d i j) u i (j + d).
Proof.
  intros Hd Hint. unfold interior in Hint.
  repeat split; intros k Hk; unfold get3.
  - apply gs_view_new. apply in_or_app. left. apply in_cell_entries. exact Hk.
  - apply gs_view_new. apply in_or_app. right. apply in_cell_entries. exact Hk.
  - apply gs_view_old. intros Hin. apply in_app_or in Hin.
    destruct Hin as [Hin|Hin]; revert Hin; apply not_in_cell_entries; lia.
  - apply gs_view_old. intros Hin. apply in_app_or in Hin.
    destruct Hin as [Hin|Hin]; revert Hin; apply not_in_cell_entries; lia.
  - apply gs_view_old. intros Hin. apply in_app_or in Hin.
    destruct Hin as [Hin|Hin]; revert Hin; apply not_in_cell_entries; lia.
Qed.

Lemma copyData3_snapshot (a b : Array3) (n : Z) :
  (0 <= n < imax * jmax * neq)%Z -> copyData3 a b n = b n.
Proof.
  intros Hn. unfold copyData3, memcpy.
  destruct (Z_le_dec 0 n); [|lia]. destruct (Z_lt_dec n (imax * jmax * neq)); [reflexivity | lia].
Qed.

(** What the three assignments of the loop body of a sweep store, in terms
    of the values of the cell and of its four neighbours. *)
Lemma sgs_cell_update (viscx viscy dt : Array2) (s : Array3) (i j k : Z) (w : Array3) :
  (0 <= j < jmax)%Z -> (0 <= k < neq)%Z ->
  get3 (sgs_cell viscx viscy dt s i j w) i j k =
  gs_update viscx viscy dt s i j (get3 w i j) (get3 w (i - 1) j) (get3 w (i + 1) j)
    (get3 w i (j - 1)) (get3 w i (j + 1)) k.
Proof.
  intros Hj Hk. assert (Hc : (k = 0 \/ k = 1 \/ k = 2)%Z) by idx_lia.
  unfold sgs_cell, gs_update. cbv zeta.
  destruct Hc as [-> | [-> | ->]]; arr3.
  - destruct (Z.eq_dec 0 0) as [_|N]; [reflexivity | contradiction].
  - destruct (Z.eq_dec 1 0) as [E|_]; [discriminate E|].
    destruct (Z.eq_dec 1 1) as [_|N]; [reflexivity | contradiction].
  - destruct (Z.eq_dec 2 0) as [E|_]; [discriminate E|].
    destruct (Z.eq_dec 2 1) as [E|_]; [discriminate E|]. reflexivity.
Qed.

Lemma gs_update_ext (viscx viscy dt : Array2) (s : Array3) (i j : Z)
    (c w e so n c' w' e' so' n' : Z -> R) (k : Z) :
  (forall a, (0 <= a < neq)%Z -> c a = c' a) ->
  (forall a, (0 <= a < neq)%Z -> w a = w' a) ->
  (forall a, (0 <= a < neq)%Z -> e a = e' a) ->
  (forall a, (0 <= a < neq)%Z -> so a = so' a) ->
  (forall a, (0 <= a < neq)%Z -> n a = n' a) ->
  gs_update viscx viscy dt s i j c w e so n k
  = gs_update viscx viscy dt s i j c' w' e' so' n' k.
Proof.
  intros Hc Hw He Hs Hn.
  assert (K0 : (0 <= 0 < neq)%Z) by idx_lia.
  assert (K1 : (0 <= 1 < neq)%Z) by idx_lia.
  assert (K2 : (0 <= 2 < neq)%Z) by idx_lia.
  unfold gs_update. cbv zeta.
  rewrite (Hc _ K0), (Hc _ K1), (Hc _ K2), (Hw _ K0), (Hw _ K1), (Hw _ K2),
          (He _ K0), (He _ K1), (He _ K2), (Hs _ K0), (Hs _ K1), (Hs _ K2),
          (Hn _ K0), (Hn _ K1), (Hn _ K2).
  reflexivity.
Qed.

Lemma GS_iteration_viscx (set_boundary_conditions : boundaryConditionPointer)
    (g1 g2 : AVlocals) (f : Fields) :
  f_viscx (GS_iteration set_boundary_conditions g1 g2 f) =
  let visc1 := Compute_Artificial_Viscosity g1 (f_u f) (f_viscx f) (f_viscy f) in
  fst (Compute_Artificial_Viscosity g2
         (set_boundary_conditions
            (SGS_forward_sweep (f_u f) (fst visc1) (snd visc1) (f_dt f) (f_src f)))
         (fst visc1) (snd visc1)).
Proof. reflexivity. Qed.

(** The steps of one Symmetric Gauss-Seidel iteration, for every input: the
    resulting field and dissipation arrays are those of the sequence forward
    sweep, boundary conditions, second run of the dissipation operator,
    backward sweep, boundary conditions; [uold] is a snapshot of the field
    on entry and no sweep reads it; a sweep assigns interior cells only; and
    the value it stores in entry [k] of an interior cell is [gs_update] of
    the cell, with the neighbours that the sweep has already visited taken
    from the field after the sweep (west and south in the forward sweep,
    east and north in the backward sweep) and the cell itself and the other
    two neighbours from the field before it. *)
Lemma GS_iteration_steps
    (set_boundary_conditions : boundaryConditionPointer) (g1 g2 : AVlocals) (f : Fields) :
  let u0 := f_u f in
  let visc1 := Compute_Artificial_Viscosity g1 u0 (f_viscx f) (f_viscy f) in
  let u1 := SGS_forward_sweep u0 (fst visc1) (snd visc1) (f_dt f) (f_src f) in
  let u2 := set_boundary_conditions u1 in
  let visc2 := Compute_Artificial_Viscosity g2 u2 (fst visc1) (snd visc1) in
  let u3 := SGS_backward_sweep u2 (fst visc2) (snd visc2) (f_dt f) (f_src f) in
  let f' := GS_iteration set_boundary_conditions g1 g2 f in
  f_u f' = set_boundary_conditions u3 /\
  f_viscx f' = fst visc2 /\ f_viscy f' = snd visc2 /\
  (forall n, (0 <= n < imax * jmax * neq)%Z -> f_uold f' n = u0 n) /\
  (forall uold',
     f_u (GS_iteration set_boundary_conditions g1 g2
            (mkFields (f_u f) uold' (f_src f) (f_viscx f) (f_viscy f) (f_dt f)))
     = f_u f') /\
  (forall n, off_interior n -> u1 n = u0 n) /\
  (forall i j k, interior i j -> (0 <= k < neq)%Z ->
     get3 u1 i j k =
     gs_update (fst visc1) (snd visc1) (f_dt f) (f_src f) i j
       (get3 u0 i j) (get3 u1 (i - 1) j) (get3 u0 (i + 1) j)
       (get3 u1 i (j - 1)) (get3 u0 i (j + 1)) k) /\
  (forall n, off_interior n -> u3 n = u2 n) /\
  (forall i j k, interior i j -> (0 <= k < neq)%Z ->
     get3 u3 i j k =
     gs_update (fst visc2) (snd visc2) (f_dt f) (f_src f) i j
       (get3 u2 i j) (get3 u2 (i - 1) j) (get3 u3 (i + 1) j)
       (get3 u2 i (j - 1)) (get3 u3 i (j + 1)) k).
Proof.
  intros u0 visc1 u1 u2 visc2 u3 f'.
  destruct (SGS_forward_sweep_result u0 (fst visc1) (snd visc1) (f_dt f) (f_src f))
    as (Hoff1 & _ & Hnew1).
  destruct (SGS_backward_sweep_result u2 (fst visc2) (snd visc2) (f_dt f) (f_src f))
    as (Hoff3 & _ & Hnew3).
  split; [reflexivity|]. split; [reflexivity|]. split; [reflexivity|].
  split; [intros n Hn; apply copyData3_snapshot; exact Hn|].
  split; [intros uold'; reflexivity|].
  split; [exact Hoff1|].
  split; [|split; [exact Hoff3|]].
  - intros i j k Hint Hk. pose proof Hint as Hint'. unfold interior in Hint'.
    destruct (gs_view_agree u1 u0 1 i j (or_introl eq_refl) Hint) as (A1 & A2 & A3 & A4 & A5).
    etransitivity;
      [exact (Hnew1 i j Hint I (gs_view u1 u0 1 i j) A1 A2 A3 A4 A5 k Hk)|].
    rewrite sgs_cell_update by (try exact Hk; lia).
    apply gs_update_ext; assumption.
  - intros i j k Hint Hk. pose proof Hint as Hint'. unfold interior in Hint'.
    destruct (gs_view_agree u3 u2 (-1) i j (or_intror eq_refl) Hint) as (A1 & A2 & A3 & A4 & A5).
    etransitivity;
      [exact (Hnew3 i j Hint I (gs_view u3 u2 (-1) i j) A1 A2 A3 A4 A5 k Hk)|].
    rewrite sgs_cell_update by (try exact Hk; lia).
    replace (i - -1)%Z with (i + 1)%Z in A1 by lia.
    replace (j - -1)%Z with (j + 1)%Z in A2 by lia.
    replace (i + -1)%Z with (i - 1)%Z in A4 by lia.
    replace (j + -1)%Z with (j - 1)%Z in A5 by lia.
    apply gs_update_ext; assumption.
Qed.

(** ** One Point-Jacobi step on a steady field *)

Lemma bndry_interior (w : Array3) (i j k : Z) :
  interior i j -> (0 <= k < neq)%Z -> get3 (bndry w) i j k = get3 w i j k.
Proof.
  intros Hint Hk. pose proof Hint as Hint'. unfold interior in Hint'.
  unfold bndry. cbv zeta.
  apply (for_lt_preserve (fun t => get3 t i j k = get3 w i j k)).
  - apply (for_lt_preserve (fun t => get3 t i j k = get3 w i j k)); [reflexivity|].
    intros a t Ha Ht. rewrite bndry_side_frame by idx_lia. exact Ht.
  - intros a t Ha Ht. rewrite bndry_topbot_frame by idx_lia. exact Ht.
Qed.

Lemma pj_cell_steady (uold : Array3) (viscx viscy dt : Array2) (s : Array3)
    (i j : Z) (w : Array3) :
  (0 <= j < jmax)%Z ->
  steady_at uold s i j ->
  get3 (pj_cell uold viscx viscy dt s i j w) i j 0 =
    get3 uold i j 0
    + Rmax (get3 uold i j 1 * get3 uold i j 1 + get3 uold i j 2 * get3 uold i j 2)
           (rkappa * vel2ref)
      * get2 dt i j * (get2 viscx i j + get2 viscy i j) /\
  get3 (pj_cell uold viscx viscy dt s i j w) i j 1 = get3 uold i j 1 /\
  get3 (pj_cell uold viscx viscy dt s i j w) i j 2 = get3 uold i j 2.
Proof.
  intros Hj (D1 & D2 & D3 & D4 & D5 & D6 & D7 & D8 & D9 & D10 & S0 & S1 & S2).
  unfold pj_cell. cbv zeta. arr3.
  rewrite D1, D2, D3, D4, D5, D6, D7, D8, D9, D10, S0, S1, S2.
  repeat split; ring.
Qed.

Lemma PJ_iteration_fields (bc : boundaryConditionPointer) (g : AVlocals) (f : Fields) :
  PJ_iteration bc g f =
  let visc := Compute_Artificial_Viscosity g (f_u f) (f_viscx f) (f_viscy f) in
  mkFields
    (bc (point_Jacobi (f_uold f) (f_u f) (fst visc) (snd visc) (f_dt f) (f_src f)))
    (f_u f) (f_src f) (fst visc) (snd visc) (f_dt f).
Proof. reflexivity. Qed.

(** C9, as it holds.  For every interior cell at which the ten central
    differences of the field before the step vanish and the source is zero,
    one Point-Jacobi iteration with the wall boundary conditions leaves the
    x- and y-velocity of the cell unchanged and adds
    beta2 * dt(i,j) * (viscx(i,j) + viscy(i,j)) to its pressure, so that the
    pressure is unchanged too wherever the two dissipation entries of the
    cell cancel.  (Border cells are set by the boundary-condition provider.) *)
Theorem PJ_iteration_steady_interior (g : AVlocals) (f : Fields) (i j : Z) :
  interior i j ->
  steady_at (f_u f) (f_src f) i j ->
  let f' := PJ_iteration bndry g f in
  get3 (f_u f') i j 1 = get3 (f_u f) i j 1 /\
  get3 (f_u f') i j 2 = get3 (f_u f) i j 2 /\
  get3 (f_u f') i j 0 =
    get3 (f_u f) i j 0
    + Rmax (get3 (f_u f) i j 1 * get3 (f_u f) i j 1
            + get3 (f_u f) i j 2 * get3 (f_u f) i j 2) (rkappa * vel2ref)
      * get2 (f_dt f) i j * (get2 (f_viscx f') i j + get2 (f_viscy f') i j) /\
  (get2 (f_viscx f') i j + get2 (f_viscy f') i j = 0 ->
   get3 (f_u f') i j 0 = get3 (f_u f) i j 0).
Proof.
  intros Hint Hst f'.
  pose proof Hint as Hint'. unfold interior in Hint'.
  assert (K0 : (0 <= 0 < neq)%Z) by idx_lia.
  assert (K1 : (0 <= 1 < neq)%Z) by idx_lia.
  assert (K2 : (0 <= 2 < neq)%Z) by idx_lia.
  unfold f'. rewrite PJ_iteration_fields. cbv zeta.
  set (visc := Compute_Artificial_Viscosity g (f_u f) (f_viscx f) (f_viscy f)).
  cbn [f_u f_viscx f_viscy].
  destruct (point_Jacobi_result (f_uold f) (f_u f) (fst visc) (snd visc)
              (f_dt f) (f_src f)) as (_ & Hin).
  rewrite !bndry_interior by assumption.
  rewrite (Hin i j 0%Z (f_uold f) Hint K0).
  rewrite (Hin i j 1%Z (f_uold f) Hint K1).
  rewrite (Hin i j 2%Z (f_uold f) Hint K2).
  destruct (pj_cell_steady (f_u f) (fst visc) (snd visc) (f_dt f) (f_src f)
              i j (f_uold f)) as (P0 & P1 & P2); [lia | exact Hst |].
  rewrite P0, P1, P2.
  repeat split. intros Hz. rewrite Hz. ring.
Qed.

(** ** Compute_Artificial_Viscosity: what is written *)

Lemma snd_rd_bind {A B : Type} (m : Rd A) (f : A -> Rd B) :
  snd (rd_bind m f) = snd (f (snd m)).
Proof. reflexivity. Qed.

Lemma fst_rd_bind {A B : Type} (m : Rd A) (f : A -> Rd B) :
  fst (rd_bind m f) = fst m ++ fst (f (snd m)).
Proof. reflexivity. Qed.

Lemma visc_same_refl (s : AVst) (i j : Z) : visc_same s s i j.
Proof. split; reflexivity. Qed.

Lemma visc_same_trans (s1 s2 s3 : AVst) (i j : Z) :
  visc_same s1 s2 i j -> visc_same s2 s3 i j -> visc_same s1 s3 i j.
Proof. intros (A & B) (C & D). split; congruence. Qed.

Lemma av_write_other (s : AVst) (i j : Z) (a b : R) (i' j' : Z) :
  (0 <= j < jmax)%Z -> (0 <= j' < jmax)%Z -> (i' <> i \/ j' <> j)%Z ->
  visc_same s (av_write s i j a b) i' j'.
Proof.
  intros Hj Hj' Hne. unfold visc_same, av_write. cbn [av_viscx av_viscy].
  rewrite !get2_set2_neq by lia. split; reflexivity.
Qed.

Lemma av_write_locals (s : AVst) (i j : Z) (a b : R) :
  av_uvel2 (av_write s i j a b) = av_uvel2 s /\
  av_beta2 (av_write s i j a b) = av_beta2 s /\
  av_lambda_x (av_write s i j a b) = av_lambda_x s /\
  av_lambda_y (av_write s i j a b) = av_lambda_y s.
Proof. repeat split. Qed.

(** With both eigenvalue locals zero, the two assignments store zero. *)
Lemma av_write_zero (s : AVst) (i j : Z) (a b : R) :
  av_lambda_x s = 0 -> av_lambda_y s = 0 ->
  get2 (av_viscx (av_write s i j a b)) i j = 0 /\
  get2 (av_viscy (av_write s i j a b)) i j = 0.
Proof.
  intros Hx Hy. unfold av_write. cbn [av_viscx av_viscy].
  rewrite !get2_set2_eq, Hx, Hy, Rabs_R0. unfold Rdiv. split; ring.
Qed.

(** One pass of the interior loop: [(1/2)] is the integer 0, so both
    eigenvalue locals become zero and zero is stored in both arrays. *)
Lemma av_interior_cell_state (u : Array3) (i j : Z) (s : AVst) :
  let s' := snd (av_interior_cell u i j s) in
  get2 (av_viscx s') i j = 0 /\ get2 (av_viscy s') i j = 0 /\
  av_lambda_x s' = 0 /\ av_lambda_y s' = 0 /\
  av_uvel2 s' = av_uvel2 s /\
  (forall i' j', (0 <= j < jmax)%Z -> (0 <= j' < jmax)%Z ->
     (i' <> i \/ j' <> j)%Z -> visc_same s s' i' j').
Proof.
  unfold av_interior_cell, stencil5, rd. cbv zeta.
  repeat rewrite snd_rd_bind. cbn [snd rd_ret].
  change (1 ÷ 2)%Z with 0%Z.
  match goal with |- context [av_write ?t i j ?a ?b] =>
    set (s1 := t); set (da := a); set (db := b) end.
  assert (Hx : av_lambda_x s1 = 0) by (unfold s1; cbn [av_lambda_x]; ring).
  assert (Hy : av_lambda_y s1 = 0) by (unfold s1; cbn [av_lambda_y]; ring).
  destruct (av_write_zero s1 i j da db Hx Hy) as (Zx & Zy).
  destruct (av_write_locals s1 i j da db) as (Lu & _ & Lx & Ly).
  split; [exact Zx|]. split; [exact Zy|].
  split; [rewrite Lx; exact Hx|]. split; [rewrite Ly; exact Hy|].
  split; [rewrite Lu; reflexivity|].
  intros i' j' Hj Hj' Hne.
  apply (visc_same_trans s s1); [split; reflexivity|].
  apply av_write_other; assumption.
Qed.

Lemma av_interior_state (u : Array3) (m0 : Rd AVst) :
  (forall i j, av_block i j ->
     get2 (av_viscx (snd (av_interior u m0))) i j = 0 /\
     get2 (av_viscy (snd (av_interior u m0))) i j = 0) /\
  (forall i j, (0 <= j < jmax)%Z -> ~ av_block i j ->
     visc_same (snd m0) (snd (av_interior u m0)) i j).
Proof.
  destruct (Z_le_dec 2 (imax - 3)) as [Hi|Hi];
    [destruct (Z_le_dec 2 (jmax - 3)) as [Hj|Hj]|].
  - set (P := fun (a b : Z) (m : Rd AVst) =>
      (forall i j, av_block i j -> (i < a \/ (i = a /\ j < b))%Z ->
         get2 (av_viscx (snd m)) i j = 0 /\ get2 (av_viscy (snd m)) i j = 0) /\
      (forall i j, (0 <= j < jmax)%Z ->
         ~ (av_block i j /\ (i < a \/ (i = a /\ j < b))%Z) ->
         visc_same (snd m0) (snd m) i j)).
    assert (H : P (imax - 3)%Z 2%Z (av_interior u m0)).
    { unfold av_interior.
      apply (for2_lt_inv P); [exact Hi | exact Hj | | |]; unfold P.
      - split; [intros i j Hb; unfold av_block in Hb; lia|].
        intros i j _ _. apply visc_same_refl.
      - intros a b m Ha Hb (Hz & Hs). rewrite snd_rd_bind.
        destruct (av_interior_cell_state u a b (snd m)) as (Zx & Zy & _ & _ & _ & Hfr).
        split.
        + intros i j Hblk Hlt.
          destruct (Z.eq_dec i a) as [->|Hia]; [destruct (Z.eq_dec j b) as [->|Hjb]|].
          * split; assumption.
          * destruct (Hfr a j) as (Fx & Fy); [lia | unfold av_block in Hblk; lia | lia |].
            rewrite Fx, Fy. apply Hz; [exact Hblk | lia].
          * destruct (Hfr i j) as (Fx & Fy); [lia | unfold av_block in Hblk; lia | lia |].
            rewrite Fx, Fy. apply Hz; [exact Hblk | lia].
        + intros i j Hjr Hn.
          apply (visc_same_trans _ (snd m)).
          * apply Hs; [exact Hjr|]. intros (Hblk & Hlt). apply Hn. split; [exact Hblk | lia].
          * apply Hfr; [lia | exact Hjr |].
            destruct (Z.eq_dec i a) as [->|]; [|left; assumption].
            destruct (Z.eq_dec j b) as [->|]; [|right; assumption].
            exfalso. apply Hn. split; [unfold av_block; lia | lia].
      - intros a m Ha (Hz & Hs). split.
        + intros i j Hblk Hlt. apply Hz; [exact Hblk | unfold av_block in Hblk; lia].
        + intros i j Hjr Hn. apply Hs; [exact Hjr|].
          intros (Hblk & Hlt). apply Hn. split; [exact Hblk | unfold av_block in Hblk; lia]. }
    destruct H as (Hz & Hs). split.
    + intros i j Hblk. apply Hz; [exact Hblk | unfold av_block in Hblk; lia].
    + intros i j Hjr Hn. apply Hs; [exact Hjr|]. intros (Hblk & _). contradiction.
  - assert (E : av_interior u m0 = m0).
    { unfold av_interior.
      apply (for_lt_preserve (fun m => m = m0)); [reflexivity|].
      intros a m _ ->. apply for_lt_nop. lia. }
    rewrite E. split; [intros i j Hb; unfold av_block in Hb; lia|].
    intros i j _ _. apply visc_same_refl.
  - assert (E : av_interior u m0 = m0).
    { unfold av_interior. apply for_lt_nop. lia. }
    rewrite E. split; [intros i j Hb; unfold av_block in Hb; lia|].
    intros i j _ _. apply visc_same_refl.
Qed.

(** The near-boundary blocks assign the cells of [av_edge_written] only. *)
Lemma av_corners_frame (u : Array3) (s : AVst) (i j : Z) :
  (2 <= jmax)%Z -> (0 <= j < jmax)%Z -> ~ av_edge_written i j ->
  visc_same s (snd (av_corners u s)) i j.
Proof.
  intros Hjm Hj Hn. unfold av_edge_written in Hn.
  unfold av_corners, stencil5, rd. cbv zeta.
  repeat rewrite snd_rd_bind. cbn [snd rd_ret].
  repeat match goal with
  | |- visc_same ?s0 (av_write ?t ?a ?b ?x ?y) i j =>
      apply (visc_same_trans s0 t); [|apply av_write_other; lia]
  end.
  apply visc_same_refl.
Qed.

Lemma av_side_cell_frame (u : Array3) (b : Z) (s : AVst) (i j : Z) :
  (0 <= b < jmax)%Z -> (0 <= j < jmax)%Z -> (i <> imax - 2 \/ j <> b)%Z ->
  visc_same s (snd (av_side_cell u b s)) i j.
Proof.
  intros Hb Hj Hn. unfold av_side_cell, stencil5, rd. cbv zeta.
  repeat rewrite snd_rd_bind. cbn [snd rd_ret].
  apply av_write_other; lia.
Qed.

Lemma av_topbot_cell_frame (u : Array3) (a : Z) (s : AVst) (i j : Z) :
  (2 <= jmax)%Z -> (0 <= j < jmax)%Z -> (i <> a \/ j <> jmax - 2)%Z ->
  visc_same s (snd (av_topbot_cell u a s)) i j.
Proof.
  intros Hjm Hj Hn. unfold av_topbot_cell, stencil5, rd. cbv zeta.
  repeat rewrite snd_rd_bind. cbn [snd rd_ret].
  apply av_write_other; lia.
Qed.

Lemma av_boundary_frame (u : Array3) (m : Rd AVst) (i j : Z) :
  (2 <= jmax)%Z -> (0 <= j < jmax)%Z -> ~ av_edge_written i j ->
  visc_same (snd m) (snd (av_boundary u m)) i j.
Proof.
  intros Hjm Hj Hn. pose proof Hn as Hn'. unfold av_edge_written in Hn'.
  unfold av_boundary, av_topbot, av_sides.
  apply (for_lt_preserve (fun t => visc_same (snd m) (snd t) i j)).
  - apply (for_lt_preserve (fun t => visc_same (snd m) (snd t) i j)).
    + rewrite snd_rd_bind. apply av_corners_frame; assumption.
    + intros b t Hb Ht. rewrite snd_rd_bind.
      apply (visc_same_trans _ (snd t)); [exact Ht|].
      apply av_side_cell_frame; lia.
  - intros a t Ha Ht. rewrite snd_rd_bind.
    apply (visc_same_trans _ (snd t)); [exact Ht|].
    apply av_topbot_cell_frame; lia.
Qed.

Lemma Compute_Artificial_Viscosity_interior_zero (g : AVlocals) (u : Array3)
    (viscx viscy : Array2) (i j : Z) :
  av_block i j ->
  get2 (fst (Compute_Artificial_Viscosity g u viscx viscy)) i j = 0 /\
  get2 (snd (Compute_Artificial_Viscosity g u viscx viscy)) i j = 0.
Proof.
  intros Hblk. pose proof Hblk as Hb. unfold av_block in Hb.
  unfold Compute_Artificial_Viscosity, Compute_Artificial_Viscosity_rd. cbv zeta.
  cbn [fst snd].
  set (m1 := av_interior u (rd_ret (av_entry g viscx viscy))).
  destruct (av_interior_state u (rd_ret (av_entry g viscx viscy))) as (Hz & _).
  destruct (Hz i j Hblk) as (Zx & Zy). fold m1 in Zx, Zy.
  destruct (av_boundary_frame u m1 i j) as (Fx & Fy);
    [lia | lia | unfold av_edge_written; lia |].
  rewrite Fx, Fy. split; assumption.
Qed.

Lemma Compute_Artificial_Viscosity_unwritten (g : AVlocals) (u : Array3)
    (viscx viscy : Array2) (i j : Z) :
  (2 <= jmax)%Z -> (0 <= j < jmax)%Z ->
  ~ av_block i j -> ~ av_edge_written i j ->
  get2 (fst (Compute_Artificial_Viscosity g u viscx viscy)) i j = get2 viscx i j /\
  get2 (snd (Compute_Artificial_Viscosity g u viscx viscy)) i j = get2 viscy i j.
Proof.
  intros Hjm Hj Hnb Hne.
  unfold Compute_Artificial_Viscosity, Compute_Artificial_Viscosity_rd. cbv zeta.
  cbn [fst snd].
  set (m1 := av_interior u (rd_ret (av_entry g viscx viscy))).
  destruct (av_interior_state u (rd_ret (av_entry g viscx viscy))) as (_ & Hs).
  destruct (Hs i j Hj Hnb) as (Sx & Sy). fold m1 in Sx, Sy.
  destruct (av_boundary_frame u m1 i j Hjm Hj Hne) as (Fx & Fy).
  rewrite Fx, Fy, Sx, Sy. split; reflexivity.
Qed.

(** ** Compute_Artificial_Viscosity: what is read *)

Lemma reads_kept {A B : Type} (m : Rd A) (f : A -> Rd B) (x : Idx) :
  In x (fst m) -> In x (fst (rd_bind m f)).
Proof. intros H. rewrite fst_rd_bind. apply in_or_app. left. exact H. Qed.

Lemma reads_added {A B : Type} (m : Rd A) (f : A -> Rd B) (x : Idx) :
  In x (fst (f (snd m))) -> In x (fst (rd_bind m f)).
Proof. intros H. rewrite fst_rd_bind. apply in_or_app. right. exact H. Qed.

(** An access performed by pass [k0] of a loop is an access of the loop. *)
Lemma reads_for_bind {A : Type} (body : Z -> A -> Rd A) (lo hi k0 : Z)
    (x : Idx) (m0 : Rd A) :
  (lo <= k0 < hi)%Z ->
  (forall s, In x (fst (body k0 s))) ->
  In x (fst (for_lt lo hi (fun k m => rd_bind m (body k)) m0)).
Proof.
  intros Hk Hx.
  assert (H : (k0 < hi)%Z -> In x (fst (for_lt lo hi (fun k m => rd_bind m (body k)) m0))).
  { apply (for_lt_inv (fun k m => (k0 < k)%Z -> In x (fst m))); [lia | lia |].
    intros k m Hkr Hm Hlt.
    destruct (Z.eq_dec k k0) as [->|Hne].
    - apply reads_added. apply Hx.
    - apply reads_kept. apply Hm. lia. }
  apply H. lia.
Qed.

Lemma av_side_cell_reads (u : Array3) (j : Z) (s : AVst) :
  In (2, j + 2, 0)%Z (fst (av_side_cell u j s)) /\
  In (imax - 2, j + 2, 0)%Z (fst (av_side_cell u j s)).
Proof.
  unfold av_side_cell, stencil5, rd. cbv zeta.
  repeat rewrite fst_rd_bind. cbn [fst snd rd_ret app].
  split; simpl In; tauto.
Qed.

Lemma av_topbot_cell_reads (u : Array3) (i : Z) (s : AVst) :
  In (i + 2, 2, 0)%Z (fst (av_topbot_cell u i s)) /\
  In (i + 2, jmax - 2, 0)%Z (fst (av_topbot_cell u i s)).
Proof.
  unfold av_topbot_cell, stencil5, rd. cbv zeta.
  repeat rewrite fst_rd_bind. cbn [fst snd rd_ret app].
  split; simpl In; tauto.
Qed.

Lemma av_topbot_keeps_reads (u : Array3) (m : Rd AVst) (x : Idx) :
  In x (fst m) -> In x (fst (av_topbot u m)).
Proof.
  intros H. unfold av_topbot.
  apply (for_lt_preserve (fun t => In x (fst t))); [exact H|].
  intros k t _ Ht. apply reads_kept. exact Ht.
Qed.

(** C2 (the code departs from it).  For every field, the near-boundary part
    of [Compute_Artificial_Viscosity] reads cells outside the logical domain
    [0,imax) x [0,jmax): the last pass (j = jmax-2) of the left/right wall
    loop reads [u(2,jmax,0)] and [u(imax-2,jmax,0)], and the last pass
    (i = imax-2) of the bottom/top wall loop reads [u(imax,2,0)] and
    [u(imax,jmax-2,0)]; the flat index of the latter two lies beyond the
    [imax*jmax*neq] doubles of the buffer. *)
Theorem av_boundary_reads_outside_domain (u : Array3) (m : Rd AVst) :
  (5 <= imax)%Z -> (5 <= jmax)%Z ->
  In (2, jmax, 0)%Z (fst (av_boundary u m)) /\
  In (imax - 2, jmax, 0)%Z (fst (av_boundary u m)) /\
  In (imax, 2, 0)%Z (fst (av_boundary u m)) /\
  In (imax, jmax - 2, 0)%Z (fst (av_boundary u m)) /\
  ~ in_dom (2, jmax, 0)%Z /\ ~ in_dom (imax - 2, jmax, 0)%Z /\
  ~ in_dom (imax, 2, 0)%Z /\ ~ in_dom (imax, jmax - 2, 0)%Z /\
  (imax * jmax * neq <= idx3 imax 2 0)%Z /\
  (imax * jmax * neq <= idx3 imax (jmax - 2) 0)%Z.
Proof.
  intros Hi Hj.
  assert (Rs : forall s,
    In (2, jmax, 0)%Z (fst (av_side_cell u (jmax - 2) s)) /\
    In (imax - 2, jmax, 0)%Z (fst (av_side_cell u (jmax - 2) s))).
  { intros s. pose proof (av_side_cell_reads u (jmax - 2) s) as H.
    replace (jmax - 2 + 2)%Z with jmax in H by lia. exact H. }
  assert (Rt : forall s,
    In (imax, 2, 0)%Z (fst (av_topbot_cell u (imax - 2) s)) /\
    In (imax, jmax - 2, 0)%Z (fst (av_topbot_cell u (imax - 2) s))).
  { intros s. pose proof (av_topbot_cell_reads u (imax - 2) s) as H.
    replace (imax - 2 + 2)%Z with imax in H by lia. exact H. }
  repeat split.
  - unfold av_boundary. apply av_topbot_keeps_reads. unfold av_sides.
    apply (reads_for_bind (av_side_cell u) 2 (jmax - 1) (jmax - 2)); [lia|].
    intros s. apply Rs.
  - unfold av_boundary. apply av_topbot_keeps_reads. unfold av_sides.
    apply (reads_for_bind (av_side_cell u) 2 (jmax - 1) (jmax - 2)); [lia|].
    intros s. apply Rs.
  - unfold av_boundary, av_topbot.
    apply (reads_for_bind (av_topbot_cell u) 2 (imax - 1) (imax - 2)); [lia|].
    intros s. apply Rt.
  - unfold av_boundary, av_topbot.
    apply (reads_for_bind (av_topbot_cell u) 2 (imax - 1) (imax - 2)); [lia|].
    intros s. apply Rt.
  - unfold in_dom. lia.
  - unfold in_dom. lia.
  - unfold in_dom. lia.
  - unfold in_dom. lia.
  - unfold idx3, neq. lia.
  - unfold idx3, neq. lia.
Qed.

(** The four corner blocks, in contrast, stay inside the domain. *)
Lemma av_corners_reads_in_domain (u : Array3) (s : AVst) :
  (5 <= imax)%Z -> (5 <= jmax)%Z ->
  Forall in_dom (fst (av_corners u s)).
Proof.
  intros Hi Hj. unfold av_corners, stencil5, rd. cbv zeta.
  repeat rewrite fst_rd_bind. cbn [fst snd rd_ret app].
  repeat constructor; unfold neq; lia.
Qed.

(** ** compute_time_step *)

Lemma cts_cell_eq (u : Array3) (i j : Z) (st : Array2 * R) :
  cts_cell u i j st =
  (set2 (fst st) i j (local_step u i j), Rmin (snd st) (local_step u i j)).
Proof.
  unfold cts_cell, local_step. cbv zeta. rewrite get2_set2_eq. reflexivity.
Qed.

Lemma cts_interior_result (u : Array3) (dt : Array2) (dtmin0 : R) :
  (1 <= imax - 1)%Z -> (1 <= jmax - 1)%Z ->
  cts_inv u dtmin0 (imax - 1) 1
    (for_lt 1 (imax - 1) (fun i st =>
       for_lt 1 (jmax - 1) (fun j st0 => cts_cell u i j st0) st) (dt, dtmin0)).
Proof.
  intros Hi Hj.
  apply (for2_lt_inv (fun a b st => cts_inv u dtmin0 a b st)); [exact Hi | exact Hj | | |].
  - unfold cts_inv. cbn [fst snd]. split; [lra|]. split; [|left; reflexivity].
    intros i j Hint Hlt. grid_lia.
  - intros a b st Ha Hb (H1 & H2 & H3). rewrite cts_cell_eq.
    unfold cts_inv. cbn [fst snd].
    pose proof (Rmin_l (snd st) (local_step u a b)) as Ml.
    pose proof (Rmin_r (snd st) (local_step u a b)) as Mr.
    split; [lra|]. split.
    + intros i j Hint Hlt. pose proof Hint as Hint'. unfold interior in Hint'.
      destruct (Z.eq_dec i a) as [->|Hia]; [destruct (Z.eq_dec j b) as [->|Hjb]|].
      * rewrite get2_set2_eq. split; [exact Mr | reflexivity].
      * rewrite get2_set2_neq by lia.
        destruct (H2 a j Hint) as (Le & Eq); [lia|]. split; [lra | exact Eq].
      * rewrite get2_set2_neq by lia.
        destruct (H2 i j Hint) as (Le & Eq); [lia|]. split; [lra | exact Eq].
    + unfold Rmin. destruct (Rle_dec (snd st) (local_step u a b)) as [Hle|Hgt].
      * destruct H3 as [E | (i & j & Hint & Hlt & E)]; [left; exact E|].
        right. exists i, j. split; [exact Hint|]. split; [lia | exact E].
      * right. exists a, b. split; [unfold interior; lia|]. split; [lia | reflexivity].
  - intros a st Ha (H1 & H2 & H3). unfold cts_inv. split; [exact H1|]. split.
    + intros i j Hint Hlt. apply H2; [exact Hint | grid_lia].
    + destruct H3 as [E | (i & j & Hint & Hlt & E)]; [left; exact E|].
      right. exists i, j. split; [exact Hint|]. split; [grid_lia | exact E].
Qed.

Lemma set2_same_value (t : Array2) (i0 j0 i j : Z) (m : R) :
  get2 t i j = m -> get2 (set2 t i0 j0 m) i j = m.
Proof.
  intros H. unfold get2, set2, upd in *.
  destruct (Z.eq_dec (idx2 i j) (idx2 i0 j0)); [reflexivity | exact H].
Qed.

Lemma cts_border_result (m : R) (dt : Array2) :
  (forall i j, border i j -> get2 (cts_border m dt) i j = m) /\
  (forall i j, interior i j -> get2 (cts_border m dt) i j = get2 dt i j).
Proof.
  unfold cts_border. cbv zeta.
  set (body1 := fun (i : Z) (t : Array2) => set2 (set2 t i 0 m) i (jmax - 1) m).
  set (body2 := fun (j : Z) (t : Array2) => set2 (set2 t 0 j m) (imax - 1) j m).
  set (t1 := for_lt 0 imax body1 dt).
  split.
  - intros i j ((Hi & Hj) & Hb).
    assert (Hrow : (j = 0 \/ j = jmax - 1)%Z -> get2 t1 i j = m).
    { intros Hj0.
      assert (H : (i < imax)%Z -> get2 t1 i j = m); [|apply H; lia].
      unfold t1.
      apply (for_lt_inv (fun k t => (i < k)%Z -> get2 t i j = m)); [lia | lia |].
      intros k t Hk Ht Hlt. unfold body1.
      destruct (Z.eq_dec k i) as [->|Hne].
      - destruct Hj0 as [-> | ->].
        + apply set2_same_value. apply get2_set2_eq.
        + apply get2_set2_eq.
      - do 2 apply set2_same_value. apply Ht. lia. }
    destruct (Z.eq_dec j 0) as [Hj0|Hj0];
      [|destruct (Z.eq_dec j (jmax - 1)) as [Hj1|Hj1]].
    + apply (for_lt_preserve (fun t => get2 t i j = m)); [apply Hrow; lia|].
      intros k t _ Ht. unfold body2. do 2 apply set2_same_value. exact Ht.
    + apply (for_lt_preserve (fun t => get2 t i j = m)); [apply Hrow; lia|].
      intros k t _ Ht. unfold body2. do 2 apply set2_same_value. exact Ht.
    + assert (H : (j < jmax)%Z -> get2 (for_lt 0 jmax body2 t1) i j = m); [|apply H; lia].
      apply (for_lt_inv (fun k t => (j < k)%Z -> get2 t i j = m)); [lia | lia |].
      intros k t Hk Ht Hlt. unfold body2.
      destruct (Z.eq_dec k j) as [->|Hne].
      * assert (Hi0 : (i = 0 \/ i = imax - 1)%Z) by lia.
        destruct Hi0 as [-> | ->].
        -- apply set2_same_value. apply get2_set2_eq.
        -- apply get2_set2_eq.
      * do 2 apply set2_same_value. apply Ht. lia.
  - intros i j Hint. pose proof Hint as Hint'. unfold interior in Hint'.
    apply (for_lt_preserve (fun t => get2 t i j = get2 dt i j)).
    + unfold t1. apply (for_lt_preserve (fun t => get2 t i j = get2 dt i j)); [reflexivity|].
      intros k t Hk Ht. unfold body1. rewrite !get2_set2_neq by lia. exact Ht.
    + intros k t Hk Ht. unfold body2. rewrite !get2_set2_neq by lia. exact Ht.
Qed.

(** What [compute_time_step] returns: the local step in the interior of
    [dt], the returned [dtmin] on its border, and as [dtmin] the least of
    the value that [dtmin] had on entry and of the local steps. *)
Lemma compute_time_step_result (u : Array3) (dt : Array2) (dtmin0 : R) :
  (2 <= imax)%Z -> (2 <= jmax)%Z ->
  snd (compute_time_step u dt dtmin0) <= dtmin0 /\
  (forall i j, interior i j ->
     snd (compute_time_step u dt dtmin0) <= local_step u i j /\
     get2 (fst (compute_time_step u dt dtmin0)) i j = local_step u i j) /\
  (snd (compute_time_step u dt dtmin0) = dtmin0 \/
   exists i j, interior i j /\
               snd (compute_time_step u dt dtmin0) = local_step u i j) /\
  (forall i j, border i j ->
     get2 (fst (compute_time_step u dt dtmin0)) i j
     = snd (compute_time_step u dt dtmin0)).
Proof.
  intros Hi Hj. unfold compute_time_step. cbv zeta. cbn [fst snd].
  destruct (cts_interior_result u dt dtmin0) as (H1 & H2 & H3); [lia | lia |].
  set (st := for_lt 1 (imax - 1) (fun i st =>
       for_lt 1 (jmax - 1) (fun j st0 => cts_cell u i j st0) st) (dt, dtmin0)) in *.
  destruct (cts_border_result (snd st) (fst st)) as (B1 & B2).
  split; [exact H1|]. split; [|split].
  - intros i j Hint. destruct (H2 i j Hint) as (Le & Eq); [grid_lia|].
    split; [exact Le|]. rewrite B2 by exact Hint. exact Eq.
  - destruct H3 as [E | (i & j & Hint & _ & E)]; [left; exact E|].
    right. exists i, j. split; assumption.
  - exact B1.
Qed.

(** The scalar [dtmin] during a run.  On return from [compute_time_step],
    [dtmin] is the least of the value it had on entry and of the local steps
    [cfl*min(dtvisc,dtconv)] of the interior cells of the current field, and
    every border cell of [dt] holds the returned [dtmin]; in the main loop
    the entry value is the [dtmin] of the previous pass, so [dtmin] never
    increases during a run. *)
Lemma compute_time_step_keeps_running_minimum
    (iterationStep : iterationStepPointer)
    (set_boundary_conditions : boundaryConditionPointer)
    (g : AVlocals * AVlocals) (s : Solver) :
  (2 <= imax)%Z -> (2 <= jmax)%Z ->
  let r := compute_time_step (f_u (sv_f s)) (f_dt (sv_f s)) (sv_dtmin s) in
  sv_dtmin (main_body iterationStep set_boundary_conditions g s) = snd r /\
  snd r <= sv_dtmin s /\
  (forall i j, interior i j -> snd r <= local_step (f_u (sv_f s)) i j) /\
  (snd r = sv_dtmin s \/
   exists i j, interior i j /\ snd r = local_step (f_u (sv_f s)) i j) /\
  (forall i j, border i j -> get2 (fst r) i j = snd r).
Proof.
  intros Hi Hj r.
  destruct (compute_time_step_result (f_u (sv_f s)) (f_dt (sv_f s)) (sv_dtmin s) Hi Hj)
    as (H1 & H2 & H3 & H4).
  split; [reflexivity|]. split; [exact H1|]. split; [|split; [exact H3 | exact H4]].
  intros i j Hint. apply (H2 i j Hint).
Qed.

(** ** check_iterative_convergence *)

(** A loop that adds [f a k] to entry [k] of a small array in pass [a]. *)
Lemma iter_up_accumulate (body : Z -> buffer -> buffer) (f : Z -> Z -> R) (k : Z) :
  (forall a t, body a t k = t k + f a k) ->
  forall (n : nat) (lo : Z) (t : buffer),
    iter_up n lo body t k = t k + sum_from n lo (fun a => f a k).
Proof.
  intros Hb. induction n as [|n IH]; intros lo t.
  - simpl. ring.
  - simpl. rewrite IH, Hb. ring.
Qed.

Lemma for_lt_accumulate (body : Z -> buffer -> buffer) (f : Z -> Z -> R) (k : Z)
    (lo hi : Z) (t : buffer) :
  (forall a t0, body a t0 k = t0 k + f a k) ->
  for_lt lo hi body t k = t k + sum_range lo hi (fun a => f a k).
Proof. intros Hb. unfold for_lt, sum_range. apply iter_up_accumulate. exact Hb. Qed.

Lemma for_lt_neq {St : Type} (body : Z -> St -> St) (s : St) :
  for_lt 0 neq body s = body 2%Z (body 1%Z (body 0%Z s)).
Proof. reflexivity. Qed.

Lemma cic_accum_result (u uold : Array3) (dt : Array2) (res : buffer) (k : Z) :
  (0 <= k < neq)%Z ->
  cic_accum u uold dt res k = res k + sum_interior (sq_diff u uold dt k).
Proof.
  intros Hk. unfold cic_accum, sum_interior.
  apply (for_lt_accumulate _
           (fun i k0 => sum_range 1 (jmax - 1) (fun j => sq_diff u uold dt k0 i j))).
  intros i t.
  apply (for_lt_accumulate _ (fun j k0 => sq_diff u uold dt k0 i j)).
  intros j t0. rewrite for_lt_neq. unfold sq_diff.
  assert (Hc : (k = 0 \/ k = 1 \/ k = 2)%Z) by idx_lia.
  destruct Hc as [-> | [-> | ->]];
    repeat first [rewrite upd_eq | rewrite upd_neq by lia]; reflexivity.
Qed.

(** What [check_iterative_convergence] returns: each [res[k]] is the raw RMS
    residual divided by [resinit[k]], and [conv] is the largest of the
    three. *)
Lemma check_iterative_convergence_result (u uold : Array3) (dt : Array2)
    (res resinit : buffer) :
  (forall k, (0 <= k < neq)%Z ->
     fst (check_iterative_convergence u uold dt res resinit) k
     = raw_residual u uold dt k / resinit k) /\
  snd (check_iterative_convergence u uold dt res resinit)
  = Rmax (Rmax (raw_residual u uold dt 0 / resinit 0%Z)
               (raw_residual u uold dt 1 / resinit 1%Z))
         (raw_residual u uold dt 2 / resinit 2%Z).
Proof.
  unfold check_iterative_convergence. cbv zeta. cbn [fst snd].
  set (r0 := for_lt 0 neq (fun k res0 => upd res0 k 0)
               (upd (upd (upd res 0 zero) 1 zero) 2 zero)).
  assert (Hz : forall k, (0 <= k < neq)%Z -> r0 k = 0).
  { intros k Hk. unfold r0. rewrite for_lt_neq.
    assert (Hc : (k = 0 \/ k = 1 \/ k = 2)%Z) by idx_lia.
    destruct Hc as [-> | [-> | ->]];
      repeat first [rewrite upd_eq | rewrite upd_neq by lia]; reflexivity. }
  assert (Hn : forall k, (0 <= k < neq)%Z ->
    cic_normalize resinit (cic_accum u uold dt r0) k = raw_residual u uold dt k / resinit k).
  { intros k Hk. unfold cic_normalize. rewrite for_lt_neq.
    assert (Hc : (k = 0 \/ k = 1 \/ k = 2)%Z) by idx_lia.
    unfold raw_residual.
    destruct Hc as [-> | [-> | ->]];
      repeat first [rewrite upd_eq | rewrite upd_neq by lia];
      rewrite cic_accum_result by idx_lia; rewrite Hz by idx_lia;
      rewrite Rplus_0_l; reflexivity. }
  split; [exact Hn|].
  rewrite !Hn by idx_lia. reflexivity.
Qed.

(** ** The divisor [resinit] during a run *)

Lemma main_body_resinit (iterationStep : iterationStepPointer)
    (bc : boundaryConditionPointer) (g : AVlocals * AVlocals) (s : Solver) :
  sv_resinit (main_body iterationStep bc g s) = sv_resinit s.
Proof. reflexivity. Qed.

Lemma main_loop_succ (iterationStep : iterationStepPointer)
    (bc : boundaryConditionPointer) (g : Z -> AVlocals * AVlocals)
    (count : nat) (n : Z) (s : Solver) :
  main_loop (S count) n iterationStep bc g s =
  if Rlt_dec (sv_conv (main_body iterationStep bc (g n) s)) toler
  then (Converged, n, main_body iterationStep bc (g n) s)
  else main_loop count (n + 1) iterationStep bc g (main_body iterationStep bc (g n) s).
Proof. reflexivity. Qed.

Lemma main_loop_resinit (iterationStep : iterationStepPointer)
    (bc : boundaryConditionPointer) (g : Z -> AVlocals * AVlocals) :
  forall (count : nat) (n : Z) (s : Solver),
    sv_resinit (snd (main_loop count n iterationStep bc g s)) = sv_resinit s.
Proof.
  induction count as [|c IH]; intros n s.
  - reflexivity.
  - rewrite main_loop_succ.
    destruct (Rlt_dec (sv_conv (main_body iterationStep bc (g n) s)) toler).
    + reflexivity.
    + rewrite IH. reflexivity.
Qed.

Lemma initial_resinit (file : option Restart) (resinit : buffer) (u s : Array3)
    (init : Init) (k : Z) :
  initial 0 file resinit u s = Some init ->
  (0 <= k < neq)%Z -> in_resinit init k = one.
Proof.
  unfold initial. destruct (Z.eq_dec 0 0) as [_|N]; [|contradiction].
  intros E Hk. injection E as <-. cbn [in_resinit]. rewrite for_lt_neq.
  assert (Hc : (k = 0 \/ k = 1 \/ k = 2)%Z) by idx_lia.
  destruct Hc as [-> | [-> | ->]];
    repeat first [rewrite upd_eq | rewrite upd_neq by lia]; reflexivity.
Qed.

Lemma initial_fresh (file : option Restart) (resinit : buffer) (u s : Array3) :
  exists init, initial 0 file resinit u s = Some init.
Proof.
  unfold initial. destruct (Z.eq_dec 0 0) as [_|N]; [|contradiction].
  eexists. reflexivity.
Qed.

Lemma main_body_res (iterationStep : iterationStepPointer)
    (bc : boundaryConditionPointer) (g : AVlocals * AVlocals) (s : Solver) :
  sv_res (main_body iterationStep bc g s) =
  fst (check_iterative_convergence
         (f_u (sv_f (main_body iterationStep bc g s)))
         (f_uold (sv_f (main_body iterationStep bc g s)))
         (f_dt (sv_f (main_body iterationStep bc g s)))
         (sv_res s) (sv_resinit s)).
Proof. reflexivity. Qed.

(** In a run started from scratch ([irstr = 0]) [initial] sets every
    [resinit[k]] to 1 and no pass of the main loop assigns [resinit]: after
    any number of passes the divisor is still 1, and the [res[k]] that the
    next pass computes is the raw RMS residual itself. *)
Lemma convergence_check_divides_by_one
    (file : option Restart) (resinit0 : buffer) (u0 s0 : Array3) (init : Init)
    (iterationStep : iterationStepPointer) (bc : boundaryConditionPointer)
    (g : Z -> AVlocals * AVlocals) (count : nat) (n : Z) (st : Solver)
    (g' : AVlocals * AVlocals) (k : Z) :
  initial 0 file resinit0 u0 s0 = Some init ->
  sv_resinit st = in_resinit init ->
  (0 <= k < neq)%Z ->
  let st1 := snd (main_loop count n iterationStep bc g st) in
  let st2 := main_body iterationStep bc g' st1 in
  sv_resinit st1 k = one /\
  sv_resinit st2 k = one /\
  sv_res st2 k
  = raw_residual (f_u (sv_f st2)) (f_uold (sv_f st2)) (f_dt (sv_f st2)) k.
Proof.
  intros Hinit Hst Hk st1 st2.
  assert (H1 : sv_resinit st1 k = one).
  { unfold st1. rewrite main_loop_resinit, Hst.
    apply (initial_resinit file resinit0 u0 s0 init k Hinit Hk). }
  split; [exact H1|]. split; [exact H1|].
  unfold st2 at 1. rewrite main_body_res. fold st2.
  destruct (check_iterative_convergence_result (f_u (sv_f st2)) (f_uold (sv_f st2))
              (f_dt (sv_f st2)) (sv_res st1) (sv_resinit st1)) as (Hr & _).
  rewrite (Hr k Hk), H1. unfold one. field.
Qed.

(** ** Sums over index ranges *)

Lemma sum_from_ext (f g : Z -> R) :
  forall (n : nat) (lo : Z),
    (forall k, (lo <= k < lo + Z.of_nat n)%Z -> f k = g k) ->
    sum_from n lo f = sum_from n lo g.
Proof.
  induction n as [|n IH]; intros lo H.
  - reflexivity.
  - simpl. rewrite (H lo) by lia. rewrite (IH (lo + 1)%Z); [reflexivity|].
    intros k Hk. apply H. lia.
Qed.

Lemma sum_range_ext (lo hi : Z) (f g : Z -> R) :
  (forall k, (lo <= k < hi)%Z -> f k = g k) ->
  sum_range lo hi f = sum_range lo hi g.
Proof.
  intros H. unfold sum_range. apply sum_from_ext. intros k Hk. apply H. lia.
Qed.

Lemma sum_from_const (c : R) :
  forall (n : nat) (lo : Z), sum_from n lo (fun _ => c) = INR n * c.
Proof.
  induction n as [|n IH]; intros lo.
  - simpl. ring.
  - rewrite S_INR. simpl sum_from. rewrite IH. ring.
Qed.

Lemma sum_range_const (lo hi : Z) (c : R) :
  (lo <= hi)%Z -> sum_range lo hi (fun _ => c) = IZR (hi - lo) * c.
Proof.
  intros H. unfold sum_range. rewrite sum_from_const.
  rewrite INR_IZR_INZ. rewrite Z2Nat.id by lia. reflexivity.
Qed.

Lemma sum_from_zero :
  forall (n : nat) (lo : Z), sum_from n lo (fun _ => 0) = 0.
Proof. intros n lo. rewrite sum_from_const. ring. Qed.

(** A sum with a single non-zero term. *)
Lemma sum_from_single (k0 : Z) (c : R) :
  forall (n : nat) (lo : Z),
    (lo <= k0 < lo + Z.of_nat n)%Z ->
    sum_from n lo (fun k => if Z.eq_dec k k0 then c else 0) = c.
Proof.
  induction n as [|n IH]; intros lo H.
  - lia.
  - simpl sum_from. destruct (Z.eq_dec lo k0) as [->|Hne].
    + rewrite (sum_from_ext _ (fun _ => 0)).
      * rewrite sum_from_zero. ring.
      * intros k Hk. destruct (Z.eq_dec k k0); [lia | reflexivity].
    + rewrite IH by lia. ring.
Qed.

Lemma sum_range_single (lo hi k0 : Z) (c : R) :
  (lo <= k0 < hi)%Z ->
  sum_range lo hi (fun k => if Z.eq_dec k k0 then c else 0) = c.
Proof. intros H. unfold sum_range. apply sum_from_single. lia. Qed.

(** ** The local step is positive *)

Lemma dx_pos : (2 <= imax)%Z -> 0 < dx.
Proof.
  intros H. unfold dx, xmax, xmin.
  assert (0 < IZR (imax - 1)) by (apply IZR_lt; lia).
  apply Rdiv_lt_0_compat; lra.
Qed.

Lemma dy_pos : (2 <= jmax)%Z -> 0 < dy.
Proof.
  intros H. unfold dy, ymax, ymin.
  assert (0 < IZR (jmax - 1)) by (apply IZR_lt; lia).
  apply Rdiv_lt_0_compat; lra.
Qed.

Lemma nu_pos : 0 < nu.
Proof. unfold nu, rmu, rho, uinf, rlength, xmax, xmin, Re. lra. Qed.

Lemma local_step_pos (u : Array3) (i j : Z) :
  (2 <= imax)%Z -> (2 <= jmax)%Z -> 0 < local_step u i j.
Proof.
  intros Hi Hj. pose proof (dx_pos Hi) as Hx. pose proof (dy_pos Hj) as Hy.
  pose proof nu_pos as Hn.
  unfold local_step. cbv zeta.
  set (b2 := Rmax (get3 u i j 1 * get3 u i j 1 + get3 u i j 2 * get3 u i j 2)
                  (rkappa * vel2ref)).
  assert (Hb : 0 < b2).
  { pose proof (Rmax_r (get3 u i j 1 * get3 u i j 1 + get3 u i j 2 * get3 u i j 2)
                  (rkappa * vel2ref)) as Hr.
    fold b2 in Hr. unfold rkappa, vel2ref, uinf in Hr. lra. }
  set (lx := 1 / 2 * (Rabs (get3 u i j 1) + sqrt (get3 u i j 1 * get3 u i j 1 + 4 * b2))).
  set (ly := 1 / 2 * (Rabs (get3 u i j 2) + sqrt (get3 u i j 2 * get3 u i j 2 + 4 * b2))).
  assert (Hlx : 0 < lx).
  { unfold lx. pose proof (Rabs_pos (get3 u i j 1)) as Ha.
    assert (0 < sqrt (get3 u i j 1 * get3 u i j 1 + 4 * b2)).
    { apply sqrt_lt_R0. pose proof (Rle_0_sqr (get3 u i j 1)) as Hs.
      unfold Rsqr in Hs. lra. }
    lra. }
  pose proof (Rmax_l lx ly) as Hm.
  assert (Hlm : 0 < Rabs (Rmax lx ly)) by (rewrite Rabs_pos_eq; lra).
  assert (Hmin : 0 < Rmin dx dy) by (apply Rmin_glb_lt; assumption).
  assert (Hc : 0 < Rmin dx dy / Rabs (Rmax lx ly)) by (apply Rdiv_lt_0_compat; assumption).
  assert (Hv : 0 < dx * dy / (4 * nu)).
  { apply Rdiv_lt_0_compat; [apply Rmult_lt_0_compat; assumption | lra]. }
  assert (Hr : 0 < Rmin (dx * dy / (4 * nu)) (Rmin dx dy / Rabs (Rmax lx ly)))
    by (apply Rmin_glb_lt; assumption).
  unfold cfl. apply Rmult_lt_0_compat; [lra | exact Hr].
Qed.

(** ** The field at the entry of the main loop *)

Lemma set3_keeps_initial (w : Array3) (i j k : Z) (v : R) :
  is_initial_field w -> (0 <= j < jmax)%Z -> (0 <= k < neq)%Z ->
  v = initial_value j k ->
  is_initial_field (set3 w i j k v).
Proof.
  intros Hw Hj Hk Hv i' j' k' Hg Hk'. pose proof Hg as Hg'. unfold in_grid in Hg'.
  destruct (Z.eq_dec i i') as [<-|Hi]; [destruct (Z.eq_dec j j') as [<-|Hjj];
    [destruct (Z.eq_dec k k') as [<-|Hkk]|]|].
  - rewrite get3_set3_eq. exact Hv.
  - rewrite get3_set3_neq by idx_lia. apply Hw; assumption.
  - rewrite get3_set3_neq by idx_lia. apply Hw; assumption.
  - rewrite get3_set3_neq by idx_lia. apply Hw; assumption.
Qed.

Lemma initial_value_p (j : Z) : initial_value j 0 = pinf.
Proof. reflexivity. Qed.

Lemma initial_value_u (j : Z) :
  initial_value j 1 = if Z.eq_dec j (jmax - 1) then uinf else zero.
Proof. reflexivity. Qed.

Lemma initial_value_v (j : Z) : initial_value j 2 = zero.
Proof. reflexivity. Qed.

Lemma initial_pressure (w : Array3) (i j : Z) :
  is_initial_field w -> in_grid i j -> get3 w i j 0 = pinf.
Proof. intros Hw Hg. rewrite (Hw i j 0%Z Hg) by idx_lia. reflexivity. Qed.

(** [bndry] leaves the entry field as it is. *)
Lemma bndry_side_keeps_initial (j : Z) (w : Array3) :
  (3 <= imax)%Z -> (1 <= j <= jmax - 2)%Z ->
  is_initial_field w -> is_initial_field (bndry_side j w).
Proof.
  intros Hi Hj Hw. unfold bndry_side. cbv zeta.
  assert (H1 : is_initial_field (set3 w 0 j 0 (2 * get3 w 1 j 0 - get3 w 2 j 0))).
  { apply set3_keeps_initial; [exact Hw | lia | idx_lia |].
    rewrite !(initial_pressure w) by (try exact Hw; unfold in_grid; lia).
    rewrite initial_value_p. ring. }
  set (w1 := set3 w 0 j 0 (2 * get3 w 1 j 0 - get3 w 2 j 0)) in *.
  assert (H2 : is_initial_field (set3 w1 0 j 1 0)).
  { apply set3_keeps_initial; [exact H1 | lia | idx_lia |].
    rewrite initial_value_u. destruct (Z.eq_dec j (jmax - 1)); [lia | reflexivity]. }
  set (w2 := set3 w1 0 j 1 0) in *.
  assert (H3 : is_initial_field (set3 w2 0 j 2 0)).
  { apply set3_keeps_initial; [exact H2 | lia | idx_lia | reflexivity]. }
  set (w3 := set3 w2 0 j 2 0) in *.
  assert (H4 : is_initial_field
    (set3 w3 (imax - 1) j 0 (2 * get3 w3 (imax - 2) j 0 - get3 w3 (imax - 3) j 0))).
  { apply set3_keeps_initial; [exact H3 | lia | idx_lia |].
    rewrite !(initial_pressure w3) by (try exact H3; unfold in_grid; lia).
    rewrite initial_value_p. ring. }
  set (w4 := set3 w3 (imax - 1) j 0 _) in *.
  assert (H5 : is_initial_field (set3 w4 (imax - 1) j 1 0)).
  { apply set3_keeps_initial; [exact H4 | lia | idx_lia |].
    rewrite initial_value_u. destruct (Z.eq_dec j (jmax - 1)); [lia | reflexivity]. }
  apply set3_keeps_initial; [exact H5 | lia | idx_lia | reflexivity].
Qed.

Lemma bndry_topbot_keeps_initial (i : Z) (w : Array3) :
  (3 <= jmax)%Z -> (0 <= i < imax)%Z ->
  is_initial_field w -> is_initial_field (bndry_topbot i w).
Proof.
  intros Hj Hi Hw. unfold bndry_topbot. cbv zeta.
  assert (H1 : is_initial_field (set3 w i 0 0 (2 * get3 w i 1 0 - get3 w i 2 0))).
  { apply set3_keeps_initial; [exact Hw | lia | idx_lia |].
    rewrite !(initial_pressure w) by (try exact Hw; unfold in_grid; lia).
    rewrite initial_value_p. ring. }
  set (w1 := set3 w i 0 0 (2 * get3 w i 1 0 - get3 w i 2 0)) in *.
  assert (H2 : is_initial_field (set3 w1 i 0 1 0)).
  { apply set3_keeps_initial; [exact H1 | lia | idx_lia |].
    rewrite initial_value_u. destruct (Z.eq_dec 0 (jmax - 1)); [lia | reflexivity]. }
  set (w2 := set3 w1 i 0 1 0) in *.
  assert (H3 : is_initial_field (set3 w2 i 0 2 0)).
  { apply set3_keeps_initial; [exact H2 | lia | idx_lia | reflexivity]. }
  set (w3 := set3 w2 i 0 2 0) in *.
  assert (H4 : is_initial_field
    (set3 w3 i (jmax - 1) 0 (2 * get3 w3 i (jmax - 2) 0 - get3 w3 i (jmax - 3) 0))).
  { apply set3_keeps_initial; [exact H3 | lia | idx_lia |].
    rewrite !(initial_pressure w3) by (try exact H3; unfold in_grid; lia).
    rewrite initial_value_p. ring. }
  set (w4 := set3 w3 i (jmax - 1) 0 _) in *.
  assert (H5 : is_initial_field (set3 w4 i (jmax - 1) 1 uinf)).
  { apply set3_keeps_initial; [exact H4 | lia | idx_lia |].
    rewrite initial_value_u. destruct (Z.eq_dec (jmax - 1) (jmax - 1)); [reflexivity | lia]. }
  apply set3_keeps_initial; [exact H5 | lia | idx_lia | reflexivity].
Qed.

Lemma bndry_keeps_initial (w : Array3) :
  (3 <= imax)%Z -> (3 <= jmax)%Z ->
  is_initial_field w -> is_initial_field (bndry w).
Proof.
  intros Hi Hj Hw. unfold bndry. cbv zeta.
  apply (for_lt_preserve is_initial_field).
  - apply (for_lt_preserve is_initial_field); [exact Hw|].
    intros j t Hjr Ht. apply bndry_side_keeps_initial; [exact Hi | lia | exact Ht].
  - intros i t Hir Ht. apply bndry_topbot_keeps_initial; [exact Hj | lia | exact Ht].
Qed.

(** What [initial] builds in a run from scratch. *)
Lemma initial_builds_entry_field (file : option Restart) (resinit : buffer)
    (u s : Array3) (init : Init) :
  (1 <= jmax)%Z ->
  initial 0 file resinit u s = Some init ->
  is_initial_field (in_u init) /\ zero_source (in_s init).
Proof.
  intros Hjm. unfold initial. destruct (Z.eq_dec 0 0) as [_|N]; [|contradiction].
  intros E. injection E as <-. cbn [in_u in_s].
  set (inner := fun (i j : Z) (us : Array3 * Array3) =>
    (set3 (set3 (set3 (fst us) i j 0 pinf) i j 1 zero) i j 2 zero,
     set3 (set3 (set3 (snd us) i j 0 zero) i j 1 zero) i j 2 zero)).
  set (outer := fun (i : Z) (us : Array3 * Array3) =>
    (set3 (fst (for_lt 0 jmax (inner i) us)) i (jmax - 1) 1 uinf,
     snd (for_lt 0 jmax (inner i) us))).
  change (is_initial_field (fst (for_lt 0 imax outer (u, s))) /\
          zero_source (snd (for_lt 0 imax outer (u, s)))).
  set (rows_done := fun (a : Z) (us : Array3 * Array3) =>
    forall i j k, in_grid i j -> (i < a)%Z -> (0 <= k < neq)%Z ->
      get3 (fst us) i j k = initial_value j k /\ get3 (snd us) i j k = zero).
  set (row_part := fun (a b : Z) (us : Array3 * Array3) =>
    forall j k, (0 <= j < b)%Z -> (j < jmax)%Z -> (0 <= k < neq)%Z ->
      get3 (fst us) a j k = (if Z.eq_dec k 0 then pinf else zero) /\
      get3 (snd us) a j k = zero).
  assert (Hinner : forall a us, (0 <= a < imax)%Z -> rows_done a us ->
            rows_done a (for_lt 0 jmax (inner a) us) /\
            row_part a jmax (for_lt 0 jmax (inner a) us)).
  { intros a us Ha Hd.
    apply (for_lt_inv (fun b t => rows_done a t /\ row_part a b t)); [lia | |].
    - split; [exact Hd|]. intros j k Hj. lia.
    - intros b t Hb (Hd' & Hp). unfold rows_done, row_part in *. unfold inner.
      cbn [fst snd]. split.
      + intros i j k Hg Hia Hk. pose proof Hg as Hg'. unfold in_grid in Hg'.
        rewrite !get3_set3_neq by idx_lia. apply Hd'; assumption.
      + intros j k Hj Hjm' Hk.
        destruct (Z.eq_dec j b) as [->|Hne].
        * assert (Hc : (k = 0 \/ k = 1 \/ k = 2)%Z) by idx_lia.
          destruct Hc as [-> | [-> | ->]];
            repeat first [rewrite get3_set3_eq | rewrite get3_set3_neq by idx_lia];
            split; reflexivity.
        * rewrite !get3_set3_neq by idx_lia. apply Hp; lia. }
  assert (H : (0 <= imax)%Z -> rows_done imax (for_lt 0 imax outer (u, s))).
  { intros Him.
    apply (for_lt_inv rows_done); [exact Him | intros i j k Hg; unfold in_grid in Hg; lia |].
    intros a us Ha Hd. destruct (Hinner a us Ha Hd) as (Hd' & Hp).
    unfold rows_done, row_part in *. unfold outer. cbn [fst snd].
    intros i j k Hg Hia Hk. pose proof Hg as Hg'. unfold in_grid in Hg'.
    destruct (Z.eq_dec i a) as [->|Hne].
    - destruct (Hp j k) as (Pu & Ps); [lia | lia | exact Hk |].
      split; [|exact Ps].
      destruct (Z.eq_dec j (jmax - 1)) as [->|Hj1]; [destruct (Z.eq_dec k 1) as [->|Hk1]|].
      + rewrite get3_set3_eq. rewrite initial_value_u.
        destruct (Z.eq_dec (jmax - 1) (jmax - 1)); [reflexivity | lia].
      + rewrite get3_set3_neq by idx_lia. rewrite Pu. unfold initial_value.
        destruct (Z.eq_dec k 0); [reflexivity|]. destruct (Z.eq_dec k 1); [lia | reflexivity].
      + rewrite get3_set3_neq by idx_lia. rewrite Pu. unfold initial_value.
        destruct (Z.eq_dec k 0); [reflexivity|]. destruct (Z.eq_dec k 1); [|reflexivity].
        destruct (Z.eq_dec j (jmax - 1)); [lia | reflexivity].
    - rewrite get3_set3_neq by idx_lia. apply Hd'; [exact Hg | lia | exact Hk]. }
  split.
  - intros i j k Hg Hk. pose proof Hg as Hg'. unfold in_grid in Hg'.
    apply H; [lia | exact Hg | lia | exact Hk].
  - intros i j k Hg Hk. pose proof Hg as Hg'. unfold in_grid in Hg'.
    apply H; [lia | exact Hg | lia | exact Hk].
Qed.

(** ** The first pass of a run from scratch *)

Lemma pj_cell_entry_u (uold : Array3) (viscx viscy dt : Array2) (s : Array3)
    (i j : Z) (w : Array3) :
  is_initial_field uold -> zero_source s -> interior i j ->
  get3 (pj_cell uold viscx viscy dt s i j w) i j 1 =
  get2 dt i j * (if Z.eq_dec j (jmax - 2) then lid_rate else 0).
Proof.
  intros Hu Hs Hint. pose proof Hint as Hint'. unfold interior in Hint'.
  assert (K0 : (0 <= 0 < neq)%Z) by idx_lia.
  assert (K1 : (0 <= 1 < neq)%Z) by idx_lia.
  assert (K2 : (0 <= 2 < neq)%Z) by idx_lia.
  unfold pj_cell. cbv zeta. arr3.
  rewrite !(Hu _ _ _) by (try assumption; unfold in_grid; lia).
  rewrite (Hs i j 1%Z) by (try assumption; unfold in_grid; lia).
  rewrite !initial_value_p, !initial_value_u, !initial_value_v.
  destruct (Z.eq_dec j (jmax - 1)) as [E|_]; [lia|].
  destruct (Z.eq_dec (j - 1) (jmax - 1)) as [E|_]; [lia|].
  unfold lid_rate, zero.
  destruct (Z.eq_dec (j + 1) (jmax - 1)) as [E1|E1];
    destruct (Z.eq_dec j (jmax - 2)) as [E2|E2]; try lia;
    unfold Rdiv; ring.
Qed.

(** The arrays that the convergence check of a Point-Jacobi pass compares. *)
Lemma main_body_PJ_fields (bc : boundaryConditionPointer)
    (g : AVlocals * AVlocals) (st : Solver) :
  sv_f (main_body (fun b g1 _ f => PJ_iteration b g1 f) bc g st) =
  let f0 := sv_f st in
  let dt' := fst (compute_time_step (f_u f0) (f_dt f0) (sv_dtmin st)) in
  let visc := Compute_Artificial_Viscosity (fst g) (f_u f0) (f_viscx f0) (f_viscy f0) in
  mkFields
    (pressure_rescaling
       (bc (point_Jacobi (f_uold f0) (f_u f0) (fst visc) (snd visc) dt' (f_src f0))))
    (f_u f0) (f_src f0) (fst visc) (snd visc) dt'.
Proof. reflexivity. Qed.

Lemma first_pass_sq_diff (g : AVlocals * AVlocals) (st : Solver) (i j : Z) :
  (3 <= imax)%Z -> (3 <= jmax)%Z ->
  is_initial_field (f_u (sv_f st)) -> zero_source (f_src (sv_f st)) ->
  interior i j ->
  let f1 := sv_f (main_body (fun b g1 _ f => PJ_iteration b g1 f) bndry g st) in
  sq_diff (f_u f1) (f_uold f1) (f_dt f1) 1 i j =
  if Z.eq_dec j (jmax - 2) then lid_rate * lid_rate else 0.
Proof.
  intros Hi Hj Hu Hs Hint f1. pose proof Hint as Hint'. unfold interior in Hint'.
  assert (K1 : (0 <= 1 < neq)%Z) by idx_lia.
  unfold f1. rewrite main_body_PJ_fields. cbv zeta. cbn [f_u f_uold f_dt].
  set (f0 := sv_f st) in *.
  set (visc := Compute_Artificial_Viscosity (fst g) (f_u f0) (f_viscx f0) (f_viscy f0)).
  set (ts := compute_time_step (f_u f0) (f_dt f0) (sv_dtmin st)).
  unfold sq_diff.
  rewrite pressure_rescaling_keeps_velocity_cells by (try (left; reflexivity); unfold in_grid; lia).
  rewrite bndry_interior by assumption.
  destruct (point_Jacobi_result (f_uold f0) (f_u f0) (fst visc) (snd visc) (fst ts) (f_src f0))
    as (_ & Hin).
  rewrite (Hin i j 1%Z (f_uold f0) Hint K1).
  rewrite pj_cell_entry_u by assumption.
  rewrite (Hu i j 1%Z) by (try assumption; unfold in_grid; lia).
  rewrite initial_value_u. destruct (Z.eq_dec j (jmax - 1)) as [E|_]; [lia|].
  destruct (compute_time_step_result (f_u f0) (f_dt f0) (sv_dtmin st)) as (_ & Hdt & _);
    [lia | lia |].
  destruct (Hdt i j Hint) as (_ & Edt). fold ts in Edt.
  assert (Hpos : 0 < local_step (f_u f0) i j) by (apply local_step_pos; lia).
  assert (Hnz : get2 (fst ts) i j <> 0) by (rewrite Edt; lra).
  unfold zero. destruct (Z.eq_dec j (jmax - 2)); field; exact Hnz.
Qed.

(** The raw x-momentum residual of the first pass. *)
Lemma first_pass_raw_residual (g : AVlocals * AVlocals) (st : Solver) :
  (3 <= imax)%Z -> (3 <= jmax)%Z ->
  is_initial_field (f_u (sv_f st)) -> zero_source (f_src (sv_f st)) ->
  let f1 := sv_f (main_body (fun b g1 _ f => PJ_iteration b g1 f) bndry g st) in
  raw_residual (f_u f1) (f_uold f1) (f_dt f1) 1 =
  sqrt (IZR (imax - 2) * (lid_rate * lid_rate) / IZR ((imax - 2) * (jmax - 2))).
Proof.
  intros Hi Hj Hu Hs f1. unfold raw_residual. f_equal. f_equal.
  unfold sum_interior.
  rewrite (sum_range_ext 1 (imax - 1) _ (fun _ => lid_rate * lid_rate)).
  - rewrite sum_range_const by lia. f_equal. f_equal. lia.
  - intros i Hir.
    rewrite (sum_range_ext 1 (jmax - 1) _
               (fun j => if Z.eq_dec j (jmax - 2) then lid_rate * lid_rate else 0)).
    + apply sum_range_single. lia.
    + intros j Hjr. apply (first_pass_sq_diff g st i j Hi Hj Hu Hs).
      unfold interior. lia.
Qed.

Lemma set3_keeps_zero_source (w : Array3) (i j k : Z) (v : R) :
  zero_source w -> (0 <= j < jmax)%Z -> (0 <= k < neq)%Z -> v = zero ->
  zero_source (set3 w i j k v).
Proof.
  intros Hw Hj Hk Hv i' j' k' Hg Hk'. pose proof Hg as Hg'. unfold in_grid in Hg'.
  destruct (Z.eq_dec i i') as [<-|Hi]; [destruct (Z.eq_dec j j') as [<-|Hjj];
    [destruct (Z.eq_dec k k') as [<-|Hkk]|]|].
  - rewrite get3_set3_eq. exact Hv.
  - rewrite get3_set3_neq by idx_lia. apply Hw; assumption.
  - rewrite get3_set3_neq by idx_lia. apply Hw; assumption.
  - rewrite get3_set3_neq by idx_lia. apply Hw; assumption.
Qed.

(** Without manufactured solution the source terms are zero. *)
Lemma compute_source_terms_zero (s : Array3) :
  imms = 0%Z -> zero_source s -> zero_source (compute_source_terms s).
Proof.
  intros Him Hs. unfold compute_source_terms.
  apply (for_lt_preserve zero_source); [exact Hs|].
  intros i t Hi Ht.
  apply (for_lt_preserve zero_source); [exact Ht|].
  intros j t0 Hj Ht0. cbv zeta. rewrite Him.
  repeat apply set3_keeps_zero_source; try exact Ht0; try idx_lia;
    unfold zero; ring.
Qed.

(** The state in which a Point-Jacobi run from scratch enters its loop. *)
Lemma main_entry_from_scratch (file : option Restart) (mem : Solver)
    (step : iterationStepPointer) (bc : boundaryConditionPointer)
    (ninit : Z) (st : Solver) :
  imms = 0%Z -> (3 <= imax)%Z -> (3 <= jmax)%Z ->
  main_entry 0 0 file mem = Some (step, bc, ninit, st) ->
  step = (fun b g1 _ f => PJ_iteration b g1 f) /\ bc = bndry /\ ninit = 1%Z /\
  is_initial_field (f_u (sv_f st)) /\ zero_source (f_src (sv_f st)) /\
  sv_dtmin st = dtmin_main /\
  exists init, initial 0 file (sv_resinit mem) (f_u (sv_f mem)) (f_src (sv_f mem))
               = Some init /\ sv_resinit st = in_resinit init.
Proof.
  intros Him Hi Hj. unfold main_entry, select_iterationStep, select_boundary_conditions.
  destruct (Z.eq_dec 0 1) as [N|_]; [lia|].
  destruct (Z.eq_dec 0 0) as [_|N]; [|contradiction].
  destruct (Z.eq_dec imms 0) as [_|N]; [|contradiction].
  cbv zeta.
  destruct (initial 0 file (sv_resinit mem) (f_u (sv_f mem)) (f_src (sv_f mem)))
    as [init|] eqn:E; [|discriminate].
  intros H. injection H as <- <- <- <-.
  destruct (initial_builds_entry_field file (sv_resinit mem) (f_u (sv_f mem))
              (f_src (sv_f mem)) init) as (Hu & Hs); [lia | exact E |].
  cbn [sv_f f_u f_src sv_dtmin sv_resinit].
  split; [reflexivity|]. split; [reflexivity|]. split.
  - revert E. unfold initial. destruct (Z.eq_dec 0 0) as [_|N]; [|contradiction].
    intros E. injection E as <-. reflexivity.
  - split; [apply bndry_keeps_initial; assumption|].
    split; [apply compute_source_terms_zero; assumption|].
    split; [reflexivity|].
    exists init. split; reflexivity.
Qed.

(** ** The flat layout of the two array classes *)

Lemma idx3_in_buffer (i j k : Z) :
  in_dom (i, j, k) -> (0 <= idx3 i j k < imax * jmax * neq)%Z.
Proof.
  unfold in_dom, idx3, neq. intros (Hi & Hj & Hk).
  assert (H1 : (0 <= i * jmax)%Z) by nia.
  assert (H2 : (i * jmax + jmax <= imax * jmax)%Z) by nia.
  lia.
Qed.

Lemma idx2_in_buffer (i j : Z) :
  in_grid i j -> (0 <= idx2 i j < imax * jmax)%Z.
Proof.
  unfold in_grid, idx2. intros (Hi & Hj).
  assert (H1 : (0 <= i * jmax)%Z) by nia.
  assert (H2 : (i * jmax + jmax <= imax * jmax)%Z) by nia.
  lia.
Qed.

(** X1.  [Array3::operator()] and [Array2::operator()] map the cells of the
    logical domain one-to-one into the allocated buffer: the flat index of an
    in-domain cell lies in [0, imax*jmax*neq) (resp. [0, imax*jmax)), and two
    in-domain cells with the same flat index are the same cell. *)
Theorem flat_index_layout :
  (forall i j k, in_dom (i, j, k) -> (0 <= idx3 i j k < imax * jmax * neq)%Z) /\
  (forall i j k i' j' k', in_dom (i, j, k) -> in_dom (i', j', k') ->
     idx3 i j k = idx3 i' j' k' -> i = i' /\ j = j' /\ k = k') /\
  (forall i j, in_grid i j -> (0 <= idx2 i j < imax * jmax)%Z) /\
  (forall i j i' j', in_grid i j -> in_grid i' j' ->
     idx2 i j = idx2 i' j' -> i = i' /\ j = j').
Proof.
  split; [exact idx3_in_buffer|]. split; [|split; [exact idx2_in_buffer|]].
  - intros i j k i' j' k' H H' E. unfold in_dom in H, H'.
    apply (idx3_inj i j k i' j' k'); lia.
  - intros i j i' j' H H' E. unfold in_grid in H, H'.
    apply (idx2_inj i j i' j'); lia.
Qed.

(** X2.  [A.copyData(B)] makes every cell of the logical domain of [A] equal
    to the cell of [B], and leaves whatever lies outside the
    [imax*jmax*neq] doubles of the buffer as it was. *)
Theorem copyData3_copies_the_grid (a b : Array3) :
  (forall i j k, in_dom (i, j, k) -> get3 (copyData3 a b) i j k = get3 b i j k) /\
  (forall n, ~ (0 <= n < imax * jmax * neq)%Z -> copyData3 a b n = a n).
Proof.
  split.
  - intros i j k H. unfold get3. apply copyData3_snapshot. apply idx3_in_buffer. exact H.
  - intros n Hn. unfold copyData3, memcpy.
    destruct (Z_le_dec 0 n); [|reflexivity].
    destruct (Z_lt_dec n (imax * jmax * neq)); [lia | reflexivity].
Qed.

(** ** bndry: the wall pressure *)

(** A loop whose pass [k] establishes [R k] and whose other passes keep it,
    under an invariant [Q] of the loop. *)
Lemma for_lt_rowwise {St : Type} (Q : St -> Prop) (R : Z -> St -> Prop)
    (lo hi : Z) (body : Z -> St -> St) (s : St) :
  Q s ->
  (forall k t, (lo <= k < hi)%Z -> Q t -> Q (body k t)) ->
  (forall k t, (lo <= k < hi)%Z -> Q t -> R k (body k t)) ->
  (forall k k' t, (lo <= k < hi)%Z -> (lo <= k' < hi)%Z -> k' <> k ->
     Q t -> R k' t -> R k' (body k t)) ->
  Q (for_lt lo hi body s) /\
  (forall k, (lo <= k < hi)%Z -> R k (for_lt lo hi body s)).
Proof.
  intros H0 HQ HR HK. destruct (Z_le_dec lo hi) as [Hle|Hgt].
  - assert (H : Q (for_lt lo hi body s) /\
                (forall k, (lo <= k < hi)%Z -> R k (for_lt lo hi body s))).
    { apply (for_lt_inv (fun a t => Q t /\ forall k, (lo <= k < a)%Z -> R k t));
        [exact Hle | split; [exact H0 | intros; lia] |].
      intros a t Ha (Hq & Hr). split; [apply HQ; assumption|].
      intros k Hk. destruct (Z.eq_dec k a) as [->|Hne].
      - apply HR; assumption.
      - apply HK; try assumption; try lia. apply Hr. lia. }
    exact H.
  - rewrite for_lt_nop by lia. split; [exact H0 | intros; lia].
Qed.

Lemma bndry_side_pressure (j : Z) (t : Array3) :
  (4 <= imax)%Z -> (0 <= j < jmax)%Z ->
  get3 (bndry_side j t) 0 j 0 = 2 * get3 t 1 j 0 - get3 t 2 j 0 /\
  get3 (bndry_side j t) (imax - 1) j 0
  = 2 * get3 t (imax - 2) j 0 - get3 t (imax - 3) j 0.
Proof.
  intros Hi Hj. unfold bndry_side. cbv zeta. arr3. split; reflexivity.
Qed.

Lemma bndry_topbot_pressure (i : Z) (t : Array3) :
  (4 <= jmax)%Z ->
  get3 (bndry_topbot i t) i 0 0 = 2 * get3 t i 1 0 - get3 t i 2 0 /\
  get3 (bndry_topbot i t) i (jmax - 1) 0
  = 2 * get3 t i (jmax - 2) 0 - get3 t i (jmax - 3) 0.
Proof.
  intros Hj. unfold bndry_topbot. cbv zeta. arr3. split; reflexivity.
Qed.

(** The field after the side-wall loop. *)
Lemma bndry_sides_result (u : Array3) :
  (4 <= imax)%Z -> (4 <= jmax)%Z ->
  let s1 := for_lt 1 (jmax - 1) bndry_side u in
  (forall i j k, (0 <= j < jmax)%Z -> (0 <= k < neq)%Z ->
     (1 <= i <= imax - 2 \/ j = 0 \/ j = jmax - 1)%Z ->
     get3 s1 i j k = get3 u i j k) /\
  (forall j, (1 <= j < jmax - 1)%Z ->
     get3 s1 0 j 0 = 2 * get3 u 1 j 0 - get3 u 2 j 0 /\
     get3 s1 (imax - 1) j 0 = 2 * get3 u (imax - 2) j 0 - get3 u (imax - 3) j 0).
Proof.
  intros Hi Hj s1. unfold s1.
  apply (for_lt_rowwise
    (fun t => forall i j k, (0 <= j < jmax)%Z -> (0 <= k < neq)%Z ->
       (1 <= i <= imax - 2 \/ j = 0 \/ j = jmax - 1)%Z ->
       get3 t i j k = get3 u i j k)
    (fun j t =>
       get3 t 0 j 0 = 2 * get3 u 1 j 0 - get3 u 2 j 0 /\
       get3 t (imax - 1) j 0 = 2 * get3 u (imax - 2) j 0 - get3 u (imax - 3) j 0)).
  - intros; reflexivity.
  - intros a t Ha Ht i j k Hjr Hk Hc.
    rewrite bndry_side_frame by idx_lia. apply Ht; assumption.
  - intros a t Ha Ht.
    destruct (bndry_side_pressure a t Hi) as (L & Rg); [lia|].
    rewrite L, Rg. rewrite !Ht by idx_lia. split; reflexivity.
  - intros a j t Ha Hjr Hne Ht (L & Rg).
    rewrite !bndry_side_frame by idx_lia. split; assumption.
Qed.

(** The field after the top/bottom loop, in terms of the field [s1] before
    it. *)
Lemma bndry_topbot_result (s1 : Array3) :
  (4 <= jmax)%Z ->
  let b := for_lt 0 imax bndry_topbot s1 in
  (forall i j k, (1 <= j <= jmax - 2)%Z -> (0 <= k < neq)%Z ->
     get3 b i j k = get3 s1 i j k) /\
  (forall i, (0 <= i < imax)%Z ->
     get3 b i 0 0 = 2 * get3 s1 i 1 0 - get3 s1 i 2 0 /\
     get3 b i (jmax - 1) 0 = 2 * get3 s1 i (jmax - 2) 0 - get3 s1 i (jmax - 3) 0).
Proof.
  intros Hj b. unfold b.
  apply (for_lt_rowwise
    (fun t => forall i j k, (1 <= j <= jmax - 2)%Z -> (0 <= k < neq)%Z ->
       get3 t i j k = get3 s1 i j k)
    (fun i t =>
       get3 t i 0 0 = 2 * get3 s1 i 1 0 - get3 s1 i 2 0 /\
       get3 t i (jmax - 1) 0 = 2 * get3 s1 i (jmax - 2) 0 - get3 s1 i (jmax - 3) 0)).
  - intros; reflexivity.
  - intros a t Ha Ht i j k Hjr Hk.
    rewrite bndry_topbot_frame by idx_lia. apply Ht; assumption.
  - intros a t Ha Ht.
    destruct (bndry_topbot_pressure a t Hj) as (Bo & To).
    rewrite Bo, To. rewrite !Ht by idx_lia. split; reflexivity.
  - intros a i t Ha Hir Hne Ht (Bo & To).
    rewrite !bndry_topbot_frame by idx_lia. split; assumption.
Qed.

(** What [bndry] leaves on the grid: the interior as it was, the wall
    velocities, and a wall pressure that continues the two nearest cells
    linearly. *)
Lemma bndry_result (u : Array3) :
  (4 <= imax)%Z -> (4 <= jmax)%Z ->
  (forall i j k, interior i j -> (0 <= k < neq)%Z ->
     get3 (bndry u) i j k = get3 u i j k) /\
  (forall j, (1 <= j <= jmax - 2)%Z ->
     get3 (bndry u) 0 j 0 = 2 * get3 (bndry u) 1 j 0 - get3 (bndry u) 2 j 0 /\
     get3 (bndry u) (imax - 1) j 0
     = 2 * get3 (bndry u) (imax - 2) j 0 - get3 (bndry u) (imax - 3) j 0) /\
  (forall i, (0 <= i < imax)%Z ->
     get3 (bndry u) i 0 0 = 2 * get3 (bndry u) i 1 0 - get3 (bndry u) i 2 0 /\
     get3 (bndry u) i (jmax - 1) 0
     = 2 * get3 (bndry u) i (jmax - 2) 0 - get3 (bndry u) i (jmax - 3) 0).
Proof.
  intros Hi Hj.
  destruct (bndry_sides_result u Hi Hj) as (S1 & S2).
  destruct (bndry_topbot_result (for_lt 1 (jmax - 1) bndry_side u) Hj) as (T1 & T2).
  assert (K0 : (0 <= 0 < neq)%Z) by idx_lia.
  change (for_lt 0 imax bndry_topbot (for_lt 1 (jmax - 1) bndry_side u))
    with (bndry u) in T1, T2.
  split; [intros i j k Hint Hk; apply bndry_interior; assumption|]. split.
  - intros j Hjr. destruct (S2 j) as (L & Rg); [lia|].
    rewrite !T1 by idx_lia. rewrite L, Rg. rewrite !S1 by idx_lia. split; reflexivity.
  - intros i Hir. destruct (T2 i Hir) as (Bo & To).
    rewrite Bo, To. rewrite !T1 by idx_lia. split; reflexivity.
Qed.

(** X4.  After [bndry] (grid of at least 4 x 4 cells): interior cells are
    untouched, and the pressure of every wall cell continues the two cells
    next to it, normal to the wall, linearly -- on the side walls
    [p(0,j) = 2 p(1,j) - p(2,j)] and [p(imax-1,j) = 2 p(imax-2,j) - p(imax-3,j)]
    for the rows [1 .. jmax-2], on the bottom and top walls
    [p(i,0) = 2 p(i,1) - p(i,2)] and
    [p(i,jmax-1) = 2 p(i,jmax-2) - p(i,jmax-3)] for every column, the corner
    columns included, where the two cells are side-wall cells set just
    before. *)
Theorem bndry_extrapolates_pressure (u : Array3) (i j : Z) :
  (4 <= imax)%Z -> (4 <= jmax)%Z -> in_grid i j ->
  (interior i j -> forall k, (0 <= k < neq)%Z -> get3 (bndry u) i j k = get3 u i j k) /\
  (i = 0%Z -> (1 <= j <= jmax - 2)%Z ->
     get3 (bndry u) 0 j 0 = 2 * get3 (bndry u) 1 j 0 - get3 (bndry u) 2 j 0) /\
  (i = (imax - 1)%Z -> (1 <= j <= jmax - 2)%Z ->
     get3 (bndry u) (imax - 1) j 0
     = 2 * get3 (bndry u) (imax - 2) j 0 - get3 (bndry u) (imax - 3) j 0) /\
  (j = 0%Z ->
     get3 (bndry u) i 0 0 = 2 * get3 (bndry u) i 1 0 - get3 (bndry u) i 2 0) /\
  (j = (jmax - 1)%Z ->
     get3 (bndry u) i (jmax - 1) 0
     = 2 * get3 (bndry u) i (jmax - 2) 0 - get3 (bndry u) i (jmax - 3) 0).
Proof.
  intros Hi Hj Hg. unfold in_grid in Hg.
  destruct (bndry_result u Hi Hj) as (A & B & C).
  split; [intros Hint k Hk; apply A; assumption|].
  split; [intros _ Hjr; apply (B j Hjr)|].
  split; [intros _ Hjr; apply (B j Hjr)|].
  split; intros _; apply (C i); lia.
Qed.

(** On the grid, the result of [bndry] is determined by the interior of its
    argument. *)
Lemma bndry_determined (u u' : Array3) :
  (4 <= imax)%Z -> (4 <= jmax)%Z ->
  (forall i j k, interior i j -> (0 <= k < neq)%Z -> get3 u i j k = get3 u' i j k) ->
  forall i j k, in_grid i j -> (0 <= k < neq)%Z ->
    get3 (bndry u) i j k = get3 (bndry u') i j k.
Proof.
  intros Hi Hj Hsame.
  destruct (bndry_result u Hi Hj) as (A & B & C).
  destruct (bndry_result u' Hi Hj) as (A' & B' & C').
  destruct (bndry_rows u) as (Vs & Vf); [lia|].
  destruct (bndry_rows u') as (Vs' & Vf'); [lia|].
  assert (K0 : (0 <= 0 < neq)%Z) by idx_lia.
  assert (Hin : forall i j k, interior i j -> (0 <= k < neq)%Z ->
            get3 (bndry u) i j k = get3 (bndry u') i j k).
  { intros i j k Hint Hk. rewrite A, A' by assumption. apply Hsame; assumption. }
  assert (Hside : forall i j k, (i = 0 \/ i = imax - 1)%Z -> (1 <= j <= jmax - 2)%Z ->
            (0 <= k < neq)%Z -> get3 (bndry u) i j k = get3 (bndry u') i j k).
  { intros i j k Hi0 Hjr Hk.
    destruct (Vs j) as (a1 & a2 & a3 & a4); [lia|].
    destruct (Vs' j) as (b1 & b2 & b3 & b4); [lia|].
    destruct (B j Hjr) as (L & Rg). destruct (B' j Hjr) as (L' & Rg').
    assert (Hc : (k = 0 \/ k = 1 \/ k = 2)%Z) by idx_lia.
    destruct Hi0 as [-> | ->]; destruct Hc as [-> | [-> | ->]]; try congruence.
    - rewrite L, L'. rewrite !Hin by (try assumption; unfold interior; lia). reflexivity.
    - rewrite Rg, Rg'. rewrite !Hin by (try assumption; unfold interior; lia). reflexivity. }
  assert (Hrow : forall i j k, (1 <= j <= jmax - 2)%Z -> (0 <= i < imax)%Z ->
            (0 <= k < neq)%Z -> get3 (bndry u) i j k = get3 (bndry u') i j k).
  { intros i j k Hjr Hir Hk.
    destruct (Z.eq_dec i 0) as [E|E]; [apply Hside; lia|].
    destruct (Z.eq_dec i (imax - 1)) as [E'|E']; [apply Hside; lia|].
    apply Hin; [unfold interior; lia | exact Hk]. }
  intros i j k Hg Hk. unfold in_grid in Hg.
  destruct (Z.eq_dec j 0) as [E0|E0]; [|destruct (Z.eq_dec j (jmax - 1)) as [E1|E1]].
  - subst j. destruct (Vf i) as (a1 & a2 & _); [lia|].
    destruct (Vf' i) as (b1 & b2 & _); [lia|].
    destruct (C i) as (Bo & _); [lia|]. destruct (C' i) as (Bo' & _); [lia|].
    assert (Hc : (k = 0 \/ k = 1 \/ k = 2)%Z) by idx_lia.
    destruct Hc as [-> | [-> | ->]]; try congruence.
    rewrite Bo, Bo'. rewrite !Hrow by idx_lia. reflexivity.
  - subst j. destruct (Vf i) as (_ & _ & a3 & a4); [lia|].
    destruct (Vf' i) as (_ & _ & b3 & b4); [lia|].
    destruct (C i) as (_ & To); [lia|]. destruct (C' i) as (_ & To'); [lia|].
    assert (Hc : (k = 0 \/ k = 1 \/ k = 2)%Z) by idx_lia.
    destruct Hc as [-> | [-> | ->]]; try congruence.
    rewrite To, To'. rewrite !Hrow by idx_lia. reflexivity.
  - apply Hrow; lia.
Qed.

(** X5.  On the grid, what [bndry] produces depends only on the interior
    cells of its argument, and applying [bndry] twice gives the same cells as
    applying it once. *)
Theorem bndry_idempotent (u u' : Array3) (i j k : Z) :
  (4 <= imax)%Z -> (4 <= jmax)%Z -> in_grid i j -> (0 <= k < neq)%Z ->
  ((forall a b c, interior a b -> (0 <= c < neq)%Z -> get3 u a b c = get3 u' a b c) ->
   get3 (bndry u) i j k = get3 (bndry u') i j k) /\
  get3 (bndry (bndry u)) i j k = get3 (bndry u) i j k.
Proof.
  intros Hi Hj Hg Hk. split.
  - intros Hsame. apply bndry_determined; assumption.
  - apply bndry_determined; try assumption.
    intros a b c Hint Hc. apply bndry_interior; assumption.
Qed.

(** ** initial: a run from scratch *)

(** X3.  With [irstr = 0], [initial] does not fail; it sets the first
    iteration number to 1, the time to 0 and every [resinit[k]] to 1, fills
    the grid with the pressure [pinf] and zero velocity except for the top
    row, which moves with the lid (x-velocity [uinf], corners included), and
    zeroes the source array on the grid. *)
Theorem initial_from_scratch (file : option Restart) (resinit : buffer) (u s : Array3) :
  (1 <= jmax)%Z ->
  exists init,
    initial 0 file resinit u s = Some init /\
    in_ninit init = 1%Z /\ in_rtime init = 0 /\
    (forall k, (0 <= k < neq)%Z -> in_resinit init k = 1) /\
    (forall i j, in_grid i j ->
       get3 (in_u init) i j 0 = pinf /\
       get3 (in_u init) i j 1 = (if Z.eq_dec j (jmax - 1) then uinf else 0) /\
       get3 (in_u init) i j 2 = 0 /\
       get3 (in_s init) i j 0 = 0 /\ get3 (in_s init) i j 1 = 0 /\
       get3 (in_s init) i j 2 = 0).
Proof.
  intros Hj. destruct (initial_fresh file resinit u s) as (init & E).
  exists init. split; [exact E|].
  destruct (initial_builds_entry_field file resinit u s init Hj E) as (Hu & Hs).
  assert (K0 : (0 <= 0 < neq)%Z) by idx_lia.
  assert (K1 : (0 <= 1 < neq)%Z) by idx_lia.
  assert (K2 : (0 <= 2 < neq)%Z) by idx_lia.
  split; [|split; [|split]].
  - revert E. unfold initial. destruct (Z.eq_dec 0 0) as [_|N]; [|contradiction].
    intros E. injection E as <-. reflexivity.
  - revert E. unfold initial. destruct (Z.eq_dec 0 0) as [_|N]; [|contradiction].
    intros E. injection E as <-. reflexivity.
  - intros k Hk. apply (initial_resinit file resinit u s init k E Hk).
  - intros i j Hg.
    rewrite (Hu i j 0%Z Hg K0), (Hu i j 1%Z Hg K1), (Hu i j 2%Z Hg K2).
    rewrite (Hs i j 0%Z Hg K0), (Hs i j 1%Z Hg K1), (Hs i j 2%Z Hg K2).
    repeat split.
Qed.

(** X6.  The field that [initial] builds already satisfies the wall
    conditions: [bndry] leaves every cell of it on the grid unchanged. *)
Theorem bndry_fixes_entry_field (w : Array3) (i j k : Z) :
  (3 <= imax)%Z -> (3 <= jmax)%Z ->
  is_initial_field w -> in_grid i j -> (0 <= k < neq)%Z ->
  get3 (bndry w) i j k = get3 w i j k.
Proof.
  intros Hi Hj Hw Hg Hk.
  rewrite (bndry_keeps_initial w Hi Hj Hw i j k Hg Hk).
  symmetry. apply Hw; assumption.
Qed.

(** ** bndrymms *)

Lemma bndrymms_side_frame (j : Z) (s : Array3) (i' j' k' : Z) :
  (0 <= j < jmax)%Z -> (0 <= j' < jmax)%Z -> (0 <= k' < neq)%Z ->
  (j' <> j \/ (i' <> 0 /\ i' <> imax - 1))%Z ->
  get3 (bndrymms_side j s) i' j' k' = get3 s i' j' k'.
Proof.
  intros Hj Hj' Hk' Hne. unfold bndrymms_side. cbv zeta. arr3. reflexivity.
Qed.

Lemma bndrymms_topbot_frame (i : Z) (s : Array3) (i' j' k' : Z) :
  (2 <= jmax)%Z -> (0 <= j' < jmax)%Z -> (0 <= k' < neq)%Z ->
  (i' <> i \/ (j' <> 0 /\ j' <> jmax - 1))%Z ->
  get3 (bndrymms_topbot i s) i' j' k' = get3 s i' j' k'.
Proof.
  intros Hj Hj' Hk' Hne. unfold bndrymms_topbot. cbv zeta. arr3. reflexivity.
Qed.

(** One pass of the side-wall loop: the pressure stored from [umms] is
    overwritten by the extrapolation; the two velocities stay. *)
Lemma bndrymms_side_values (j : Z) (t : Array3) :
  (4 <= imax)%Z -> (0 <= j < jmax)%Z ->
  (get3 (bndrymms_side j t) 0 j 0 = 2 * get3 t 1 j 0 - get3 t 2 j 0 /\
   get3 (bndrymms_side j t) (imax - 1) j 0
   = 2 * get3 t (imax - 2) j 0 - get3 t (imax - 3) j 0) /\
  mms_side_walls (bndrymms_side j t) j.
Proof.
  intros Hi Hj. unfold mms_side_walls, bndrymms_side, ynode, two. cbv zeta. arr3.
  repeat split; reflexivity.
Qed.

Lemma bndrymms_topbot_values (i : Z) (t : Array3) :
  (4 <= jmax)%Z ->
  (get3 (bndrymms_topbot i t) i 0 0 = 2 * get3 t i 1 0 - get3 t i 2 0 /\
   get3 (bndrymms_topbot i t) i (jmax - 1) 0
   = 2 * get3 t i (jmax - 2) 0 - get3 t i (jmax - 3) 0) /\
  mms_floor_and_lid (bndrymms_topbot i t) i.
Proof.
  intros Hj. unfold mms_floor_and_lid, bndrymms_topbot, xnode, two. cbv zeta. arr3.
  repeat split; reflexivity.
Qed.

Lemma bndrymms_sides_result (u : Array3) :
  (4 <= imax)%Z -> (4 <= jmax)%Z ->
  let s1 := for_lt 1 (jmax - 1) bndrymms_side u in
  (forall i j k, (0 <= j < jmax)%Z -> (0 <= k < neq)%Z ->
     (1 <= i <= imax - 2 \/ j = 0 \/ j = jmax - 1)%Z ->
     get3 s1 i j k = get3 u i j k) /\
  (forall j, (1 <= j < jmax - 1)%Z ->
     (get3 s1 0 j 0 = 2 * get3 u 1 j 0 - get3 u 2 j 0 /\
      get3 s1 (imax - 1) j 0 = 2 * get3 u (imax - 2) j 0 - get3 u (imax - 3) j 0) /\
     mms_side_walls s1 j).
Proof.
  intros Hi Hj s1. unfold s1.
  apply (for_lt_rowwise
    (fun t => forall i j k, (0 <= j < jmax)%Z -> (0 <= k < neq)%Z ->
       (1 <= i <= imax - 2 \/ j = 0 \/ j = jmax - 1)%Z ->
       get3 t i j k = get3 u i j k)
    (fun j t =>
       (get3 t 0 j 0 = 2 * get3 u 1 j 0 - get3 u 2 j 0 /\
        get3 t (imax - 1) j 0 = 2 * get3 u (imax - 2) j 0 - get3 u (imax - 3) j 0) /\
       mms_side_walls t j)).
  - intros; reflexivity.
  - intros a t Ha Ht i j k Hjr Hk Hc.
    rewrite bndrymms_side_frame by idx_lia. apply Ht; assumption.
  - intros a t Ha Ht.
    destruct (bndrymms_side_values a t Hi) as ((L & Rg) & V); [lia|].
    rewrite L, Rg. rewrite !Ht by idx_lia. split; [split; reflexivity | exact V].
  - intros a j t Ha Hjr Hne Ht ((L & Rg) & V). unfold mms_side_walls in *.
    rewrite !bndrymms_side_frame by idx_lia. split; [split; assumption | exact V].
Qed.

Lemma bndrymms_topbot_result (s1 : Array3) :
  (4 <= jmax)%Z ->
  let b := for_lt 0 imax bndrymms_topbot s1 in
  (forall i j k, (1 <= j <= jmax - 2)%Z -> (0 <= k < neq)%Z ->
     get3 b i j k = get3 s1 i j k) /\
  (forall i, (0 <= i < imax)%Z ->
     (get3 b i 0 0 = 2 * get3 s1 i 1 0 - get3 s1 i 2 0 /\
      get3 b i (jmax - 1) 0 = 2 * get3 s1 i (jmax - 2) 0 - get3 s1 i (jmax - 3) 0) /\
     mms_floor_and_lid b i).
Proof.
  intros Hj b. unfold b.
  apply (for_lt_rowwise
    (fun t => forall i j k, (1 <= j <= jmax - 2)%Z -> (0 <= k < neq)%Z ->
       get3 t i j k = get3 s1 i j k)
    (fun i t =>
       (get3 t i 0 0 = 2 * get3 s1 i 1 0 - get3 s1 i 2 0 /\
        get3 t i (jmax - 1) 0 = 2 * get3 s1 i (jmax - 2) 0 - get3 s1 i (jmax - 3) 0) /\
       mms_floor_and_lid t i)).
  - intros; reflexivity.
  - intros a t Ha Ht i j k Hjr Hk.
    rewrite bndrymms_topbot_frame by idx_lia. apply Ht; assumption.
  - intros a t Ha Ht.
    destruct (bndrymms_topbot_values a t Hj) as ((Bo & To) & V).
    rewrite Bo, To. rewrite !Ht by idx_lia. split; [split; reflexivity | exact V].
  - intros a i t Ha Hir Hne Ht ((Bo & To) & V). unfold mms_floor_and_lid in *.
    rewrite !bndrymms_topbot_frame by idx_lia. split; [split; assumption | exact V].
Qed.

Lemma bndrymms_interior (w : Array3) (i j k : Z) :
  interior i j -> (0 <= k < neq)%Z -> get3 (bndrymms w) i j k = get3 w i j k.
Proof.
  intros Hint Hk. pose proof Hint as Hint'. unfold interior in Hint'.
  unfold bndrymms. cbv zeta.
  apply (for_lt_preserve (fun t => get3 t i j k = get3 w i j k)).
  - apply (for_lt_preserve (fun t => get3 t i j k = get3 w i j k)); [reflexivity|].
    intros a t Ha Ht. rewrite bndrymms_side_frame by idx_lia. exact Ht.
  - intros a t Ha Ht. rewrite bndrymms_topbot_frame by idx_lia. exact Ht.
Qed.

Lemma bndrymms_result (u : Array3) :
  (4 <= imax)%Z -> (4 <= jmax)%Z ->
  wall_pressure_extrapolated (bndrymms u) /\
  (forall j, (1 <= j <= jmax - 2)%Z -> mms_side_walls (bndrymms u) j) /\
  (forall i, (0 <= i < imax)%Z -> mms_floor_and_lid (bndrymms u) i).
Proof.
  intros Hi Hj.
  destruct (bndrymms_sides_result u Hi Hj) as (S1 & S2).
  destruct (bndrymms_topbot_result (for_lt 1 (jmax - 1) bndrymms_side u) Hj) as (T1 & T2).
  assert (K0 : (0 <= 0 < neq)%Z) by idx_lia.
  change (for_lt 0 imax bndrymms_topbot (for_lt 1 (jmax - 1) bndrymms_side u))
    with (bndrymms u) in T1, T2.
  split; [split|split].
  - intros j Hjr. destruct (S2 j) as ((L & Rg) & _); [lia|].
    rewrite !T1 by idx_lia. rewrite L, Rg. rewrite !S1 by idx_lia. split; reflexivity.
  - intros i Hir. destruct (T2 i Hir) as ((Bo & To) & _).
    rewrite Bo, To. rewrite !T1 by idx_lia. split; reflexivity.
  - intros j Hjr. destruct (S2 j) as (_ & V); [lia|].
    unfold mms_side_walls in *. rewrite !T1 by idx_lia. exact V.
  - intros i Hir. destruct (T2 i Hir) as (_ & V). exact V.
Qed.

Lemma bndry_wall_pressure (u : Array3) :
  (4 <= imax)%Z -> (4 <= jmax)%Z -> wall_pressure_extrapolated (bndry u).
Proof.
  intros Hi Hj. destruct (bndry_result u Hi Hj) as (_ & B & C). split; assumption.
Qed.

(** The wall pressure is a function of the interior pressure. *)
Lemma extrapolated_pressure_unique (b b' : Array3) :
  (4 <= imax)%Z -> (4 <= jmax)%Z ->
  wall_pressure_extrapolated b -> wall_pressure_extrapolated b' ->
  (forall i j, interior i j -> get3 b i j 0 = get3 b' i j 0) ->
  forall i j, in_grid i j -> get3 b i j 0 = get3 b' i j 0.
Proof.
  intros Hi Hj (B & C) (B' & C') Hin.
  assert (Hrow : forall i j, (1 <= j <= jmax - 2)%Z -> (0 <= i < imax)%Z ->
            get3 b i j 0 = get3 b' i j 0).
  { intros i j Hjr Hir.
    destruct (B j Hjr) as (L & Rg). destruct (B' j Hjr) as (L' & Rg').
    destruct (Z.eq_dec i 0) as [->|E];
      [|destruct (Z.eq_dec i (imax - 1)) as [->|E']].
    - rewrite L, L'. rewrite !Hin by (unfold interior; lia). reflexivity.
    - rewrite Rg, Rg'. rewrite !Hin by (unfold interior; lia). reflexivity.
    - apply Hin. unfold interior. lia. }
  intros i j Hg. unfold in_grid in Hg.
  destruct (C i) as (Bo & To); [lia|]. destruct (C' i) as (Bo' & To'); [lia|].
  destruct (Z.eq_dec j 0) as [->|E0]; [|destruct (Z.eq_dec j (jmax - 1)) as [->|E1]].
  - rewrite Bo, Bo'. rewrite !Hrow by lia. reflexivity.
  - rewrite To, To'. rewrite !Hrow by lia. reflexivity.
  - apply Hrow; lia.
Qed.

Lemma xnode_ends : (2 <= imax)%Z -> xnode 0 = xmin /\ xnode (imax - 1) = xmax.
Proof.
  intros Hi. assert (H : IZR (imax - 1) <> 0) by (apply not_0_IZR; lia).
  unfold xnode, xmin, xmax. split; field; exact H.
Qed.

Lemma ynode_ends : (2 <= jmax)%Z -> ynode 0 = ymin /\ ynode (jmax - 1) = ymax.
Proof.
  intros Hj. assert (H : IZR (jmax - 1) <> 0) by (apply not_0_IZR; lia).
  unfold ynode, ymin, ymax. split; field; exact H.
Qed.

(** X7.  [bndrymms] (grid of at least 4 x 4 cells) leaves the interior
    untouched and gives every border cell the two velocities of the
    manufactured solution at the position of the cell.  The pressure that it
    first stores from [umms] in a wall cell is overwritten by the linear
    extrapolation from the two cells next to it: on the whole grid the
    pressure after [bndrymms] is the pressure after [bndry]. *)
Theorem bndrymms_walls (u : Array3) (i j : Z) :
  (4 <= imax)%Z -> (4 <= jmax)%Z -> in_grid i j ->
  get3 (bndrymms u) i j 0 = get3 (bndry u) i j 0 /\
  (interior i j -> forall k, (0 <= k < neq)%Z ->
     get3 (bndrymms u) i j k = get3 u i j k) /\
  (border i j ->
     get3 (bndrymms u) i j 1 = umms (xnode i) (ynode j) 1 /\
     get3 (bndrymms u) i j 2 = umms (xnode i) (ynode j) 2).
Proof.
  intros Hi Hj Hg.
  destruct (bndrymms_result u Hi Hj) as (W & Vs & Vf).
  assert (K0 : (0 <= 0 < neq)%Z) by idx_lia.
  split; [|split].
  - apply extrapolated_pressure_unique; try assumption.
    + apply bndry_wall_pressure; assumption.
    + intros a b Hint. rewrite bndrymms_interior, bndry_interior by assumption.
      reflexivity.
  - intros Hint k Hk. apply bndrymms_interior; assumption.
  - intros (_ & Hb). unfold in_grid in Hg.
    destruct (xnode_ends) as (X0 & X1); [lia|].
    destruct (ynode_ends) as (Y0 & Y1); [lia|].
    destruct (Z.eq_dec j 0) as [->|E0]; [|destruct (Z.eq_dec j (jmax - 1)) as [->|E1]].
    + destruct (Vf i) as (a1 & a2 & _); [lia|]. rewrite Y0. split; assumption.
    + destruct (Vf i) as (_ & _ & a3 & a4); [lia|]. rewrite Y1. split; assumption.
    + destruct (Vs j) as (a1 & a2 & a3 & a4); [lia|].
      assert (Hi0 : (i = 0 \/ i = imax - 1)%Z) by lia.
      destruct Hi0 as [-> | ->].
      * rewrite X0. split; assumption.
      * rewrite X1. split; assumption.
Qed.

(** ** compute_source_terms *)

Lemma compute_source_terms_result (s : Array3) :
  (2 <= imax)%Z -> (2 <= jmax)%Z ->
  sources_upto s (imax - 1) 1 (compute_source_terms s).
Proof.
  intros Hi Hj. unfold compute_source_terms.
  apply (for2_lt_inv (fun a b t => sources_upto s a b t)); [lia | lia | | |].
  - intros i j k Hjr Hk. split; [intros (Hint & Hlt); grid_lia | reflexivity].
  - intros a b t Ha Hb Ht i j k Hjr Hk. cbv zeta.
    fold (xnode a). fold (ynode b).
    destruct (Ht i j k Hjr Hk) as (Hv & Hs).
    destruct (Z.eq_dec i a) as [->|Hia]; [destruct (Z.eq_dec j b) as [->|Hjb]|].
    + split; [|intros Hn; exfalso; apply Hn; unfold interior; lia].
      intros _. unfold srcmms.
      assert (Hc : (k = 0 \/ k = 1 \/ k = 2)%Z) by idx_lia.
      destruct Hc as [-> | [-> | ->]]; arr3; reflexivity.
    + arr3. split.
      * intros (Hint & Hlt). apply Hv. split; [exact Hint | lia].
      * intros Hn. apply Hs. intros (Hint & Hlt). apply Hn. split; [exact Hint | lia].
    + arr3. split.
      * intros (Hint & Hlt). apply Hv. split; [exact Hint | lia].
      * intros Hn. apply Hs. intros (Hint & Hlt). apply Hn. split; [exact Hint | lia].
  - intros a t Ha Ht i j k Hjr Hk.
    destruct (Ht i j k Hjr Hk) as (Hv & Hs). split.
    + intros (Hint & Hlt). apply Hv. split; [exact Hint | grid_lia].
    + intros Hn. apply Hs. intros (Hint & Hlt). apply Hn. split; [exact Hint | grid_lia].
Qed.

(** X8.  [compute_source_terms] assigns the interior cells only: an interior
    cell receives [imms] times the manufactured source of each equation at
    the position of the cell, so zero when [imms = 0]; a border cell keeps
    what the array held. *)
Theorem compute_source_terms_cells (s : Array3) (i j k : Z) :
  (2 <= imax)%Z -> (2 <= jmax)%Z -> in_grid i j -> (0 <= k < neq)%Z ->
  (interior i j ->
     get3 (compute_source_terms s) i j k = IZR imms * srcmms k (xnode i) (ynode j) /\
     (imms = 0%Z -> get3 (compute_source_terms s) i j k = 0)) /\
  (border i j -> get3 (compute_source_terms s) i j k = get3 s i j k).
Proof.
  intros Hi Hj Hg Hk. unfold in_grid in Hg.
  destruct (compute_source_terms_result s Hi Hj i j k) as (Hv & Hs); [lia | exact Hk |].
  split.
  - intros Hint.
    assert (E : get3 (compute_source_terms s) i j k
                = IZR imms * srcmms k (xnode i) (ynode j)).
    { apply Hv. split; [exact Hint | grid_lia]. }
    split; [exact E|]. intros H0. rewrite E, H0. ring.
  - intros (_ & Hb). apply Hs. intros (Hint & _). grid_lia.
Qed.

(** ** pressure_rescaling applied twice *)

Lemma deltap_rescaled (u : Array3) :
  (0 < imax)%Z -> (0 < jmax)%Z -> deltap (pressure_rescaling u) = 0.
Proof.
  intros Hi Hj. unfold deltap.
  destruct (pressure_rescaling_cells u Hi Hj iref jref (center_in_grid Hi Hj)) as (E & _).
  rewrite E. unfold deltap. ring.
Qed.

(** X9.  [pressure_rescaling] shifts the pressure by one constant: the
    pressure difference between any two cells of the grid is kept, and a
    second application changes no cell of the grid. *)
Theorem pressure_rescaling_idempotent (u : Array3) (i j a b : Z) :
  (0 < imax)%Z -> (0 < jmax)%Z -> in_grid i j -> in_grid a b ->
  get3 (pressure_rescaling u) i j 0 - get3 (pressure_rescaling u) a b 0
  = get3 u i j 0 - get3 u a b 0 /\
  (forall k, (0 <= k < neq)%Z ->
     get3 (pressure_rescaling (pressure_rescaling u)) i j k
     = get3 (pressure_rescaling u) i j k).
Proof.
  intros Hi Hj Hg Hg'.
  destruct (pressure_rescaling_cells u Hi Hj i j Hg) as (E0 & _).
  destruct (pressure_rescaling_cells u Hi Hj a b Hg') as (E0' & _).
  destruct (pressure_rescaling_cells (pressure_rescaling u) Hi Hj i j Hg) as (F0 & F1 & F2).
  split; [rewrite E0, E0'; ring|].
  intros k Hk. assert (Hc : (k = 0 \/ k = 1 \/ k = 2)%Z) by idx_lia.
  destruct Hc as [-> | [-> | ->]]; [|assumption|assumption].
  rewrite F0, deltap_rescaled by assumption. ring.
Qed.

(** ** umms *)

Lemma tab3_cases (P : R -> Prop) (a b c : R) (k : Z) :
  P a -> P b -> P c -> P (tab3 a b c k).
Proof.
  intros Ha Hb Hc. unfold tab3.
  destruct (Z.eq_dec k 0); [exact Ha|]. destruct (Z.eq_dec k 1); assumption.
Qed.

Lemma sin_or_cos_bounded (f a : R) :
  f = 0 \/ f = 1 -> Rabs (f * sin a + (one - f) * cos a) <= 1.
Proof.
  intros [-> | ->]; unfold one.
  - replace (0 * sin a + (1 - 0) * cos a) with (cos a) by ring.
    apply Rabs_le. pose proof (COS_bound a). lra.
  - replace (1 * sin a + (1 - 1) * cos a) with (sin a) by ring.
    apply Rabs_le. pose proof (SIN_bound a). lra.
Qed.

Lemma mode_term_bounded (c f a : R) :
  0 <= c -> f = 0 \/ f = 1 -> Rabs (c * (f * sin a + (one - f) * cos a)) <= c.
Proof.
  intros Hc Hf. rewrite Rabs_mult, (Rabs_pos_eq c Hc).
  pose proof (sin_or_cos_bounded f a Hf) as H.
  replace c with (c * 1) at 2 by ring. apply Rmult_le_compat_l; assumption.
Qed.

(** X10.  The manufactured solution stays within the sum of its three
    amplitudes of its constant part, at every position and for every
    equation index: [|umms(x,y,k) - phi0[k]| <= phix[k] + phiy[k] + phixy[k]]. *)
Theorem umms_bounded (x y : R) (k : Z) :
  (0 <= k < neq)%Z ->
  Rabs (umms x y k - phi0 k) <= phix k + phiy k + phixy k.
Proof.
  intros _. unfold umms. cbv zeta.
  set (tx := phix k * _). set (ty := phiy k * _). set (txy := phixy k * _).
  replace (phi0 k + tx + ty + txy - phi0 k) with (tx + ty + txy) by ring.
  assert (Hx : Rabs tx <= phix k).
  { apply mode_term_bounded.
    - unfold phix. apply tab3_cases; lra.
    - unfold fsinx. apply (tab3_cases (fun f => f = 0 \/ f = 1)); auto. }
  assert (Hy : Rabs ty <= phiy k).
  { apply mode_term_bounded.
    - unfold phiy. apply tab3_cases; lra.
    - unfold fsiny. apply (tab3_cases (fun f => f = 0 \/ f = 1)); auto. }
  assert (Hxy : Rabs txy <= phixy k).
  { apply mode_term_bounded.
    - unfold phixy. apply tab3_cases; lra.
    - unfold fsinxy. apply (tab3_cases (fun f => f = 0 \/ f = 1)); auto. }
  pose proof (Rabs_triang (tx + ty) txy). pose proof (Rabs_triang tx ty). lra.
Qed.

(** ** compute_time_step: bounds on the steps *)

Lemma grid_interior_or_border (i j : Z) :
  in_grid i j -> interior i j \/ border i j.
Proof.
  intros Hg. unfold in_grid in Hg.
  destruct (Z.eq_dec i 0); [right; unfold border, in_grid; lia|].
  destruct (Z.eq_dec i (imax - 1)); [right; unfold border, in_grid; lia|].
  destruct (Z.eq_dec j 0); [right; unfold border, in_grid; lia|].
  destruct (Z.eq_dec j (jmax - 1)); [right; unfold border, in_grid; lia|].
  left. unfold interior. lia.
Qed.

Lemma sqrt_4_times (b : R) : 0 <= b -> sqrt (4 * b) = 2 * sqrt b.
Proof.
  intros Hb. rewrite sqrt_mult by lra.
  replace 4 with (2 * 2) by ring. rewrite sqrt_square by lra. reflexivity.
Qed.

(** Each of the two eigenvalue bounds is at least [sqrt(beta2)], whatever the
    velocity. *)
Lemma lambda_lower_bound (v b : R) :
  0 <= b -> sqrt b <= 1 / 2 * (Rabs v + sqrt (v * v + 4 * b)).
Proof.
  intros Hb. pose proof (Rabs_pos v) as Ha.
  assert (H : 2 * sqrt b <= sqrt (v * v + 4 * b)).
  { rewrite <- sqrt_4_times by exact Hb. apply sqrt_le_1; [lra | | ].
    - pose proof (Rle_0_sqr v) as Hs. unfold Rsqr in Hs. lra.
    - pose proof (Rle_0_sqr v) as Hs. unfold Rsqr in Hs. lra. }
  lra.
Qed.

Lemma local_step_bounds (u : Array3) (i j : Z) :
  (2 <= imax)%Z -> (2 <= jmax)%Z ->
  local_step u i j <= cfl * (dx * dy / (4 * nu)) /\
  local_step u i j <= cfl * (Rmin dx dy / sqrt (rkappa * vel2ref)).
Proof.
  intros Hi Hj. pose proof (dx_pos Hi) as Hx. pose proof (dy_pos Hj) as Hy.
  unfold local_step. cbv zeta.
  set (b2 := Rmax (get3 u i j 1 * get3 u i j 1 + get3 u i j 2 * get3 u i j 2)
                  (rkappa * vel2ref)).
  assert (Hk : 0 < rkappa * vel2ref) by (unfold rkappa, vel2ref, uinf; lra).
  assert (Hb : rkappa * vel2ref <= b2) by apply Rmax_r.
  set (lx := 1 / 2 * (Rabs (get3 u i j 1) + sqrt (get3 u i j 1 * get3 u i j 1 + 4 * b2))).
  set (ly := 1 / 2 * (Rabs (get3 u i j 2) + sqrt (get3 u i j 2 * get3 u i j 2 + 4 * b2))).
  assert (Hs : 0 < sqrt (rkappa * vel2ref)) by (apply sqrt_lt_R0; exact Hk).
  assert (Hlx : sqrt (rkappa * vel2ref) <= lx).
  { apply Rle_trans with (sqrt b2); [apply sqrt_le_1; lra|].
    apply lambda_lower_bound. lra. }
  pose proof (Rmax_l lx ly) as Hm.
  set (lm := Rmax lx ly) in *. clearbody lm lx ly b2.
  rewrite (Rabs_pos_eq lm) by lra.
  assert (Hmin : 0 < Rmin dx dy) by (apply Rmin_glb_lt; assumption).
  assert (Hc : Rmin dx dy / lm <= Rmin dx dy / sqrt (rkappa * vel2ref)).
  { unfold Rdiv. apply Rmult_le_compat_l; [lra|].
    apply Rinv_le_contravar; lra. }
  pose proof (Rmin_l (dx * dy / (4 * nu)) (Rmin dx dy / lm)) as Ml.
  pose proof (Rmin_r (dx * dy / (4 * nu)) (Rmin dx dy / lm)) as Mr.
  assert (Hcfl : 0 < cfl) by (unfold cfl; lra).
  split; apply Rmult_le_compat_l; lra.
Qed.

Lemma local_step_rest (u : Array3) (i j : Z) :
  get3 u i j 1 = 0 -> get3 u i j 2 = 0 ->
  local_step u i j
  = cfl * Rmin (dx * dy / (4 * nu)) (Rmin dx dy / sqrt (rkappa * vel2ref)).
Proof.
  intros H1 H2. unfold local_step. cbv zeta. rewrite H1, H2.
  assert (Hk : 0 < rkappa * vel2ref) by (unfold rkappa, vel2ref, uinf; lra).
  replace (0 * 0 + 0 * 0) with 0 by ring.
  rewrite (Rmax_right 0 (rkappa * vel2ref)) by lra.
  rewrite Rabs_R0.
  replace (0 * 0 + 4 * (rkappa * vel2ref)) with (4 * (rkappa * vel2ref)) by ring.
  rewrite sqrt_4_times by lra.
  assert (Hs : 0 < sqrt (rkappa * vel2ref)) by (apply sqrt_lt_R0; exact Hk).
  replace (1 / 2 * (0 + 2 * sqrt (rkappa * vel2ref))) with (sqrt (rkappa * vel2ref))
    by field.
  rewrite Rmax_left by lra. rewrite Rabs_pos_eq by lra. reflexivity.
Qed.

Lemma compute_time_step_min_unique (u : Array3) (dt dt' : Array2) (dtmin0 : R) :
  (2 <= imax)%Z -> (2 <= jmax)%Z ->
  snd (compute_time_step u dt dtmin0) = snd (compute_time_step u dt' dtmin0).
Proof.
  intros Hi Hj.
  destruct (compute_time_step_result u dt dtmin0 Hi Hj) as (A1 & A2 & A3 & _).
  destruct (compute_time_step_result u dt' dtmin0 Hi Hj) as (B1 & B2 & B3 & _).
  apply Rle_antisym.
  - destruct B3 as [E | (i & j & Hint & E)]; rewrite E; [exact A1|].
    apply (A2 i j Hint).
  - destruct A3 as [E | (i & j & Hint & E)]; rewrite E; [exact B1|].
    apply (B2 i j Hint).
Qed.

(** X11.  On return from [compute_time_step], entered with a positive
    [dtmin]: the returned [dtmin] is positive, every entry of [dt] on the grid
    is at least the returned [dtmin] (so positive), and neither depends on
    what [dt] held on entry. *)
Theorem compute_time_step_positive (u : Array3) (dt dt' : Array2) (dtmin0 : R)
    (i j : Z) :
  (2 <= imax)%Z -> (2 <= jmax)%Z -> 0 < dtmin0 -> in_grid i j ->
  0 < snd (compute_time_step u dt dtmin0) /\
  snd (compute_time_step u dt dtmin0) <= get2 (fst (compute_time_step u dt dtmin0)) i j /\
  snd (compute_time_step u dt' dtmin0) = snd (compute_time_step u dt dtmin0) /\
  get2 (fst (compute_time_step u dt' dtmin0)) i j
  = get2 (fst (compute_time_step u dt dtmin0)) i j.
Proof.
  intros Hi Hj Hd Hg.
  pose proof (compute_time_step_min_unique u dt' dt dtmin0 Hi Hj) as Hu.
  destruct (compute_time_step_result u dt dtmin0 Hi Hj) as (A1 & A2 & A3 & A4).
  destruct (compute_time_step_result u dt' dtmin0 Hi Hj) as (_ & B2 & _ & B4).
  split; [|split; [|split; [exact Hu|]]].
  - destruct A3 as [E | (a & b & Hint & E)]; rewrite E; [exact Hd|].
    apply local_step_pos; assumption.
  - destruct (grid_interior_or_border i j Hg) as [Hint | Hb].
    + destruct (A2 i j Hint) as (Le & Eq). rewrite Eq. exact Le.
    + rewrite (A4 i j Hb). apply Rle_refl.
  - destruct (grid_interior_or_border i j Hg) as [Hint | Hb].
    + destruct (A2 i j Hint) as (_ & Eq). destruct (B2 i j Hint) as (_ & Eq').
      rewrite Eq, Eq'. reflexivity.
    + rewrite (A4 i j Hb), (B4 i j Hb). exact Hu.
Qed.

(** X12.  The step that [compute_time_step] stores at an interior cell is
    bounded above, whatever the velocity there, by [cfl] times the viscous
    limit [dx*dy/(4 nu)] and by [cfl] times
    [min(dx,dy)/sqrt(rkappa*vel2ref)], since both eigenvalue bounds are at
    least [sqrt(beta2)] and [beta2 >= rkappa*vel2ref]; at a cell at rest it is
    [cfl] times the smaller of these two. *)
Theorem compute_time_step_interior_bounds (u : Array3) (dt : Array2) (dtmin0 : R)
    (i j : Z) :
  (2 <= imax)%Z -> (2 <= jmax)%Z -> interior i j ->
  let step := get2 (fst (compute_time_step u dt dtmin0)) i j in
  0 < step /\
  step <= cfl * (dx * dy / (4 * nu)) /\
  step <= cfl * (Rmin dx dy / sqrt (rkappa * vel2ref)) /\
  (get3 u i j 1 = 0 -> get3 u i j 2 = 0 ->
   step = cfl * Rmin (dx * dy / (4 * nu)) (Rmin dx dy / sqrt (rkappa * vel2ref))).
Proof.
  intros Hi Hj Hint step. unfold step.
  destruct (compute_time_step_result u dt dtmin0 Hi Hj) as (_ & A2 & _).
  destruct (A2 i j Hint) as (_ & Eq). rewrite Eq.
  destruct (local_step_bounds u i j Hi Hj) as (B1 & B2).
  split; [apply local_step_pos; assumption|].
  split; [exact B1|]. split; [exact B2|].
  intros H1 H2. apply local_step_rest; assumption.
Qed.

(** ** Compute_Artificial_Viscosity: what the near-boundary blocks store *)

Lemma av_write_quiet (s : AVst) (i j : Z) (a b : R) :
  av_quiet s -> av_quiet (av_write s i j a b).
Proof. intros H. exact H. Qed.

Lemma av_write_zero_here (s : AVst) (i j : Z) (a b : R) :
  av_quiet s -> av_zero_at (av_write s i j a b) i j.
Proof. intros (Hx & Hy). apply av_write_zero; assumption. Qed.

Lemma av_write_zero_kept (s : AVst) (i' j' : Z) (a b : R) (i j : Z) :
  av_quiet s -> av_zero_at s i j -> av_zero_at (av_write s i' j' a b) i j.
Proof.
  intros (Hx & Hy) (Zx & Zy). unfold av_zero_at, av_write. cbn [av_viscx av_viscy].
  unfold get2, set2, upd in *. rewrite Hx, Hy, Rabs_R0.
  split; destruct (Z.eq_dec (idx2 i j) (idx2 i' j')); try assumption;
    unfold Rdiv; ring.
Qed.

(** After the interior loop has run at least one pass, both eigenvalue
    locals are zero. *)
Lemma av_interior_quiet (u : Array3) (m0 : Rd AVst) :
  (6 <= imax)%Z -> (6 <= jmax)%Z -> av_quiet (snd (av_interior u m0)).
Proof.
  intros Hi Hj. unfold av_interior.
  assert (H : (2 < imax - 3)%Z -> av_quiet (snd (for_lt 2 (imax - 3) (fun i m =>
     for_lt 2 (jmax - 3) (fun j m1 => rd_bind m1 (av_interior_cell u i j)) m) m0)));
    [|apply H; lia].
  apply (for_lt_inv (fun a m => (2 < a)%Z -> av_quiet (snd m))); [lia | lia |].
  intros a m Ha _ _.
  assert (H : (2 < jmax - 3)%Z -> av_quiet (snd (for_lt 2 (jmax - 3)
     (fun j m1 => rd_bind m1 (av_interior_cell u a j)) m))); [|apply H; lia].
  apply (for_lt_inv (fun b m1 => (2 < b)%Z -> av_quiet (snd m1))); [lia | lia |].
  intros b m1 Hb _ _. rewrite snd_rd_bind.
  destruct (av_interior_cell_state u a b (snd m1)) as (_ & _ & Lx & Ly & _).
  split; assumption.
Qed.

Lemma av_corners_zero (u : Array3) (s : AVst) :
  av_quiet s ->
  av_quiet (snd (av_corners u s)) /\
  (forall i j, av_zero_at s i j -> av_zero_at (snd (av_corners u s)) i j) /\
  av_zero_at (snd (av_corners u s)) 1 1 /\
  av_zero_at (snd (av_corners u s)) 1 (jmax - 2) /\
  av_zero_at (snd (av_corners u s)) (imax - 2) 1 /\
  av_zero_at (snd (av_corners u s)) (imax - 2) (jmax - 2).
Proof.
  intros Hq. unfold av_corners, stencil5, rd. cbv zeta.
  repeat rewrite snd_rd_bind. cbn [snd rd_ret].
  split; [repeat apply av_write_quiet; exact Hq|].
  split; [intros i j Hz; repeat (apply av_write_zero_kept;
            [repeat apply av_write_quiet; exact Hq|]); exact Hz|].
  repeat split;
    repeat first
      [ apply av_write_zero_here; repeat apply av_write_quiet; exact Hq
      | apply av_write_zero_kept; [repeat apply av_write_quiet; exact Hq|] ].
Qed.

Lemma av_side_cell_zero (u : Array3) (j : Z) (s : AVst) :
  av_quiet s ->
  av_quiet (snd (av_side_cell u j s)) /\
  (forall i' j', av_zero_at s i' j' -> av_zero_at (snd (av_side_cell u j s)) i' j') /\
  av_zero_at (snd (av_side_cell u j s)) (imax - 2) j.
Proof.
  intros Hq. unfold av_side_cell, stencil5, rd. cbv zeta.
  repeat rewrite snd_rd_bind. cbn [snd rd_ret].
  split; [apply av_write_quiet; exact Hq|].
  split; [intros i' j' Hz; apply av_write_zero_kept; assumption|].
  apply av_write_zero_here; exact Hq.
Qed.

Lemma av_topbot_cell_zero (u : Array3) (i : Z) (s : AVst) :
  av_quiet s ->
  av_quiet (snd (av_topbot_cell u i s)) /\
  (forall i' j', av_zero_at s i' j' -> av_zero_at (snd (av_topbot_cell u i s)) i' j') /\
  av_zero_at (snd (av_topbot_cell u i s)) i (jmax - 2).
Proof.
  intros Hq. unfold av_topbot_cell, stencil5, rd. cbv zeta.
  repeat rewrite snd_rd_bind. cbn [snd rd_ret].
  split; [apply av_write_quiet; exact Hq|].
  split; [intros i' j' Hz; apply av_write_zero_kept; assumption|].
  apply av_write_zero_here; exact Hq.
Qed.

Lemma av_sides_zero (u : Array3) (m : Rd AVst) :
  av_quiet (snd m) ->
  av_quiet (snd (av_sides u m)) /\
  (forall i j, av_zero_at (snd m) i j -> av_zero_at (snd (av_sides u m)) i j) /\
  (forall j, (2 <= j < jmax - 1)%Z -> av_zero_at (snd (av_sides u m)) (imax - 2) j).
Proof.
  intros Hq. unfold av_sides.
  assert (Hkeep : forall i j, av_zero_at (snd m) i j ->
    av_quiet (snd (for_lt 2 (jmax - 1) (fun b m1 => rd_bind m1 (av_side_cell u b)) m)) /\
    av_zero_at (snd (for_lt 2 (jmax - 1) (fun b m1 => rd_bind m1 (av_side_cell u b)) m)) i j).
  { intros i j Hz.
    apply (for_lt_preserve (fun m1 => av_quiet (snd m1) /\ av_zero_at (snd m1) i j));
      [split; assumption|].
    intros b m1 _ (Hq1 & Hz1). rewrite snd_rd_bind.
    destruct (av_side_cell_zero u b (snd m1) Hq1) as (Q & K & _).
    split; [exact Q | apply K; exact Hz1]. }
  destruct (for_lt_rowwise (fun m1 : Rd AVst => av_quiet (snd m1))
              (fun b (m1 : Rd AVst) => av_zero_at (snd m1) (imax - 2) b)
              2 (jmax - 1) (fun b m1 => rd_bind m1 (av_side_cell u b)) m) as (Q & Rw).
  - exact Hq.
  - intros b m1 _ Hq1. rewrite snd_rd_bind.
    apply (av_side_cell_zero u b (snd m1) Hq1).
  - intros b m1 _ Hq1. rewrite snd_rd_bind.
    apply (av_side_cell_zero u b (snd m1) Hq1).
  - intros b b' m1 _ _ _ Hq1 Hz1. rewrite snd_rd_bind.
    destruct (av_side_cell_zero u b (snd m1) Hq1) as (_ & K & _). apply K. exact Hz1.
  - split; [exact Q|]. split; [|exact Rw].
    intros i j Hz. apply (Hkeep i j Hz).
Qed.

Lemma av_topbot_zero (u : Array3) (m : Rd AVst) :
  av_quiet (snd m) ->
  av_quiet (snd (av_topbot u m)) /\
  (forall i j, av_zero_at (snd m) i j -> av_zero_at (snd (av_topbot u m)) i j) /\
  (forall i, (2 <= i < imax - 1)%Z -> av_zero_at (snd (av_topbot u m)) i (jmax - 2)).
Proof.
  intros Hq. unfold av_topbot.
  assert (Hkeep : forall i j, av_zero_at (snd m) i j ->
    av_quiet (snd (for_lt 2 (imax - 1) (fun a m1 => rd_bind m1 (av_topbot_cell u a)) m)) /\
    av_zero_at (snd (for_lt 2 (imax - 1) (fun a m1 => rd_bind m1 (av_topbot_cell u a)) m)) i j).
  { intros i j Hz.
    apply (for_lt_preserve (fun m1 => av_quiet (snd m1) /\ av_zero_at (snd m1) i j));
      [split; assumption|].
    intros a m1 _ (Hq1 & Hz1). rewrite snd_rd_bind.
    destruct (av_topbot_cell_zero u a (snd m1) Hq1) as (Q & K & _).
    split; [exact Q | apply K; exact Hz1]. }
  destruct (for_lt_rowwise (fun m1 : Rd AVst => av_quiet (snd m1))
              (fun a (m1 : Rd AVst) => av_zero_at (snd m1) a (jmax - 2))
              2 (imax - 1) (fun a m1 => rd_bind m1 (av_topbot_cell u a)) m) as (Q & Rw).
  - exact Hq.
  - intros a m1 _ Hq1. rewrite snd_rd_bind.
    apply (av_topbot_cell_zero u a (snd m1) Hq1).
  - intros a m1 _ Hq1. rewrite snd_rd_bind.
    apply (av_topbot_cell_zero u a (snd m1) Hq1).
  - intros a a' m1 _ _ _ Hq1 Hz1. rewrite snd_rd_bind.
    destruct (av_topbot_cell_zero u a (snd m1) Hq1) as (_ & K & _). apply K. exact Hz1.
  - split; [exact Q|]. split; [|exact Rw].
    intros i j Hz. apply (Hkeep i j Hz).
Qed.

Lemma av_boundary_zero (u : Array3) (m : Rd AVst) (i j : Z) :
  av_quiet (snd m) -> av_edge_written i j ->
  av_zero_at (snd (av_boundary u m)) i j.
Proof.
  intros Hq He. unfold av_boundary.
  pose proof (av_corners_zero u (snd m) Hq) as Hc.
  rewrite <- (snd_rd_bind m (av_corners u)) in Hc.
  set (m1 := rd_bind m (av_corners u)) in *. clearbody m1.
  destruct Hc as (Q1 & _ & C1 & C2 & C3 & C4).
  destruct (av_sides_zero u m1 Q1) as (Q2 & K2 & S2).
  destruct (av_topbot_zero u (av_sides u m1) Q2) as (_ & K3 & S3).
  unfold av_edge_written in He.
  destruct He as [([-> | ->] & [-> | ->]) | [(-> & Hj) | (-> & Hi)]].
  - apply K3, K2, C1.
  - apply K3, K2, C2.
  - apply K3, K2, C3.
  - apply K3, K2, C4.
  - apply K3, S2. lia.
  - apply S3. lia.
Qed.

(** In the model, where the indeterminate locals are real numbers: on a grid
    of at least 6 x 6 cells every cell that the function assigns receives
    zero, and every other cell keeps its contents. *)
Lemma Compute_Artificial_Viscosity_cells (g : AVlocals) (u : Array3)
    (viscx viscy : Array2) (i j : Z) :
  (6 <= imax)%Z -> (6 <= jmax)%Z -> in_grid i j ->
  (av_block i j \/ av_edge_written i j ->
     get2 (fst (Compute_Artificial_Viscosity g u viscx viscy)) i j = 0 /\
     get2 (snd (Compute_Artificial_Viscosity g u viscx viscy)) i j = 0) /\
  (~ av_block i j -> ~ av_edge_written i j ->
     get2 (fst (Compute_Artificial_Viscosity g u viscx viscy)) i j = get2 viscx i j /\
     get2 (snd (Compute_Artificial_Viscosity g u viscx viscy)) i j = get2 viscy i j).
Proof.
  intros Hi Hj Hg. unfold in_grid in Hg. split.
  - intros [Hb | He].
    + apply Compute_Artificial_Viscosity_interior_zero. exact Hb.
    + unfold Compute_Artificial_Viscosity, Compute_Artificial_Viscosity_rd.
      cbv zeta. cbn [fst snd].
      apply (av_boundary_zero u (av_interior u (rd_ret (av_entry g viscx viscy))) i j);
        [apply av_interior_quiet; assumption | exact He].
  - intros Hb He. apply Compute_Artificial_Viscosity_unwritten; try assumption; lia.
Qed.

(** X13.  [Compute_Artificial_Viscosity] never assigns the interior cells of
    the ring around the block of its interior loop: the cells with [i = 1] or
    [j = 1] (the corner (1,1) apart) and the cells with [i = imax-3] or
    [j = jmax-3].  Whatever the field and the never-assigned locals are,
    both arrays hold there on return what they held on entry.  Every
    interior cell belongs to the block of the interior loop, to the
    near-boundary cells or to this ring. *)
Theorem Compute_Artificial_Viscosity_skips_ring (g : AVlocals) (u : Array3)
    (viscx viscy : Array2) (i j : Z) :
  (av_skipped i j ->
     interior i j /\ ~ av_block i j /\ ~ av_edge_written i j /\
     get2 (fst (Compute_Artificial_Viscosity g u viscx viscy)) i j = get2 viscx i j /\
     get2 (snd (Compute_Artificial_Viscosity g u viscx viscy)) i j = get2 viscy i j) /\
  (interior i j -> av_block i j \/ av_edge_written i j \/ av_skipped i j).
Proof.
  split.
  - intros Hs. pose proof Hs as Hs'. unfold av_skipped in Hs'.
    assert (Hb : ~ av_block i j) by (unfold av_block; lia).
    assert (He : ~ av_edge_written i j) by (unfold av_edge_written; lia).
    split; [unfold interior; lia|]. split; [exact Hb|]. split; [exact He|].
    apply Compute_Artificial_Viscosity_unwritten; try assumption; lia.
  - unfold interior, av_block, av_edge_written, av_skipped. lia.
Qed.

(** ** Compute_Artificial_Viscosity: the reads of the interior loop *)

Lemma av_interior_cell_reads (u : Array3) (i j : Z) (s : AVst) :
  av_block i j -> Forall in_dom (fst (av_interior_cell u i j s)).
Proof.
  intros Hb. unfold av_block in Hb. unfold av_interior_cell, stencil5, rd. cbv zeta.
  repeat rewrite fst_rd_bind. cbn [fst snd rd_ret app].
  repeat constructor; unfold neq; lia.
Qed.

Lemma av_interior_reads (u : Array3) (m : Rd AVst) :
  Forall in_dom (fst m) -> Forall in_dom (fst (av_interior u m)).
Proof.
  intros Hm. unfold av_interior.
  apply (for_lt_preserve (fun m1 : Rd AVst => Forall in_dom (fst m1))); [exact Hm|].
  intros a m1 Ha Hm1.
  apply (for_lt_preserve (fun m2 : Rd AVst => Forall in_dom (fst m2))); [exact Hm1|].
  intros b m2 Hb Hm2. rewrite fst_rd_bind. apply Forall_app. split; [exact Hm2|].
  apply av_interior_cell_reads. unfold av_block. lia.
Qed.

(** X14.  Up to the end of the four corner blocks,
    [Compute_Artificial_Viscosity] reads the field inside its index domain
    only (grid of at least 5 x 5 cells): the interior loop stops two cells
    short of the walls and the corner stencils are one-sided. *)
Theorem av_interior_and_corners_read_in_domain (u : Array3) (s : AVst) :
  (5 <= imax)%Z -> (5 <= jmax)%Z ->
  Forall in_dom (fst (rd_bind (av_interior u (rd_ret s)) (av_corners u))).
Proof.
  intros Hi Hj. rewrite fst_rd_bind. apply Forall_app. split.
  - apply av_interior_reads. constructor.
  - apply av_corners_reads_in_domain; assumption.
Qed.

(** ** The sweeps on a field at steady state *)

Lemma for_gt_preserve {St : Type} (Q : St -> Prop) (hi lo : Z)
    (body : Z -> St -> St) (s : St) :
  Q s ->
  (forall k t, (lo < k <= hi)%Z -> Q t -> Q (body k t)) ->
  Q (for_gt hi lo body s).
Proof.
  intros H0 Hstep. destruct (Z_le_dec lo hi) as [Hle|Hgt].
  - apply (for_gt_inv (fun _ t => Q t)); [exact Hle | exact H0 | exact Hstep].
  - rewrite for_gt_nop by lia. exact H0.
Qed.

Lemma sgs_cell_steady (viscx viscy dt : Array2) (s : Array3) (i j : Z) (u : Array3) :
  (0 <= j < jmax)%Z -> steady_at u s i j ->
  get2 viscx i j + get2 viscy i j = 0 ->
  agree_at (sgs_cell viscx viscy dt s i j u) u i j.
Proof.
  intros Hj (D1 & D2 & D3 & D4 & D5 & D6 & D7 & D8 & D9 & D10 & S0 & S1 & S2) Hv k Hk.
  assert (Hvx : get2 viscx i j = - get2 viscy i j) by lra.
  assert (Hc : (k = 0 \/ k = 1 \/ k = 2)%Z) by idx_lia.
  unfold sgs_cell. cbv zeta.
  destruct Hc as [-> | [-> | ->]]; arr3;
    rewrite ?D1, ?D2, ?D3, ?D4, ?D5, ?D6, ?D7, ?D8, ?D9, ?D10, ?S0, ?S1, ?S2, ?Hvx;
    ring.
Qed.

Lemma sgs_cell_fixed (viscx viscy dt : Array2) (s : Array3) (i j : Z) (w u : Array3) :
  (0 <= j < jmax)%Z -> (forall n, w n = u n) -> steady_at u s i j ->
  get2 viscx i j + get2 viscy i j = 0 ->
  forall n, sgs_cell viscx viscy dt s i j w n = u n.
Proof.
  intros Hj Hw Hst Hv n.
  assert (Hag : forall a b, agree_at w u a b).
  { intros a b k _. unfold get3. apply Hw. }
  assert (Hcell : forall k, (0 <= k < neq)%Z ->
            sgs_cell viscx viscy dt s i j w (idx3 i j k) = u (idx3 i j k)).
  { intros k Hk.
    change (get3 (sgs_cell viscx viscy dt s i j w) i j k = get3 u i j k).
    rewrite (sgs_cell_local viscx viscy dt s i j w u Hj
               (Hag _ _) (Hag _ _) (Hag _ _) (Hag _ _) (Hag _ _) k Hk).
    apply sgs_cell_steady; assumption. }
  destruct (Z.eq_dec n (idx3 i j 0)) as [->|N0]; [apply Hcell; idx_lia|].
  destruct (Z.eq_dec n (idx3 i j 1)) as [->|N1]; [apply Hcell; idx_lia|].
  destruct (Z.eq_dec n (idx3 i j 2)) as [->|N2]; [apply Hcell; idx_lia|].
  rewrite sgs_cell_frame by assumption. apply Hw.
Qed.

(** X15.  A field at steady state (the ten central differences and the
    source vanish at every interior cell) whose two dissipation entries
    cancel at every interior cell is a fixed point of both sweeps of the
    Symmetric Gauss-Seidel scheme: neither sweep changes any entry of the
    buffer. *)
Theorem SGS_sweeps_keep_steady_state (u : Array3) (viscx viscy dt : Array2)
    (s : Array3) (n : Z) :
  steady_state u s ->
  (forall i j, interior i j -> get2 viscx i j + get2 viscy i j = 0) ->
  SGS_forward_sweep u viscx viscy dt s n = u n /\
  SGS_backward_sweep u viscx viscy dt s n = u n.
Proof.
  intros Hst Hv. split; revert n.
  - unfold SGS_forward_sweep.
    apply (for_lt_preserve (fun t : Array3 => forall n, t n = u n)); [reflexivity|].
    intros a t Ha Ht.
    apply (for_lt_preserve (fun t0 : Array3 => forall n, t0 n = u n)); [exact Ht|].
    intros b t0 Hb Ht0.
    assert (Hint : interior a b) by (unfold interior; lia).
    apply sgs_cell_fixed; [lia | exact Ht0 | apply Hst; exact Hint | apply Hv; exact Hint].
  - unfold SGS_backward_sweep.
    apply (for_gt_preserve (fun t : Array3 => forall n, t n = u n)); [reflexivity|].
    intros a t Ha Ht.
    apply (for_gt_preserve (fun t0 : Array3 => forall n, t0 n = u n)); [exact Ht|].
    intros b t0 Hb Ht0.
    assert (Hint : interior a b) by (unfold interior; lia).
    apply sgs_cell_fixed; [lia | exact Ht0 | apply Hst; exact Hint | apply Hv; exact Hint].
Qed.

(** X16.  The pass of a sweep at a cell, started on the field [u], stores the
    pressure and the x-velocity that the Point-Jacobi update computes from
    [u]; its y-velocity differs from the Point-Jacobi one by
    [dt * rhoinv * rho * dvdx] times the change of the x-velocity, because the
    third assignment reads [u(i,j,1)] after the second has overwritten it. *)
Theorem sgs_cell_reads_updated_velocity (viscx viscy dt : Array2) (s : Array3)
    (i j : Z) (u w : Array3) :
  (0 <= j < jmax)%Z ->
  let g := sgs_cell viscx viscy dt s i j u in
  let p := pj_cell u viscx viscy dt s i j w in
  get3 g i j 0 = get3 p i j 0 /\
  get3 g i j 1 = get3 p i j 1 /\
  get3 g i j 2 =
    get3 p i j 2
    - get2 dt i j * rhoinv
      * (rho * (get3 p i j 1 - get3 u i j 1)
         * ((get3 u (i + 1) j 2 - get3 u (i - 1) j 2) / (2 * dx))).
Proof.
  intros Hj g p. unfold g, p, sgs_cell, pj_cell. cbv zeta. arr3.
  repeat split; ring.
Qed.

(** ** check_iterative_convergence: bounds *)

Lemma raw_residual_nonneg (u uold : Array3) (dt : Array2) (k : Z) :
  0 <= raw_residual u uold dt k.
Proof. unfold raw_residual. apply sqrt_pos. Qed.

Lemma sum_interior_zero (f : Z -> Z -> R) :
  (forall i j, interior i j -> f i j = 0) -> sum_interior f = 0.
Proof.
  intros H. unfold sum_interior.
  rewrite (sum_range_ext 1 (imax - 1) _ (fun _ => 0)).
  - unfold sum_range. apply sum_from_zero.
  - intros i Hi. rewrite (sum_range_ext 1 (jmax - 1) _ (fun _ => 0)).
    + unfold sum_range. apply sum_from_zero.
    + intros j Hj. apply H. unfold interior. lia.
Qed.

(** X17.  On a grid with interior cells (at least 3 x 3), with a non-zero
    step [dt(i,j)] at every interior cell and positive divisors
    [resinit[k]]: every [res[k]] that [check_iterative_convergence] returns
    is non-negative and at most [conv], and [conv] is one of the three; what
    [res] held on entry does not matter; and when the two fields agree on
    the interior cells, every [res[k]] and [conv] are zero. *)
Theorem check_iterative_convergence_bounds (u uold : Array3) (dt : Array2)
    (res res' resinit : buffer) (k : Z) :
  (3 <= imax)%Z -> (3 <= jmax)%Z ->
  (0 <= k < neq)%Z ->
  (forall i j, interior i j -> get2 dt i j <> 0) ->
  (forall c, (0 <= c < neq)%Z -> 0 < resinit c) ->
  let r := check_iterative_convergence u uold dt res resinit in
  0 <= fst r k <= snd r /\
  (snd r = fst r 0%Z \/ snd r = fst r 1%Z \/ snd r = fst r 2%Z) /\
  fst (check_iterative_convergence u uold dt res' resinit) k = fst r k /\
  snd (check_iterative_convergence u uold dt res' resinit) = snd r /\
  ((forall i j c, interior i j -> (0 <= c < neq)%Z ->
      get3 u i j c = get3 uold i j c) ->
   fst r k = 0 /\ snd r = 0).
Proof.
  intros _ _ Hk _ Hpos r. unfold r.
  destruct (check_iterative_convergence_result u uold dt res resinit) as (Hr & Hc).
  destruct (check_iterative_convergence_result u uold dt res' resinit) as (Hr' & Hc').
  assert (K0 : (0 <= 0 < neq)%Z) by idx_lia.
  assert (K1 : (0 <= 1 < neq)%Z) by idx_lia.
  assert (K2 : (0 <= 2 < neq)%Z) by idx_lia.
  rewrite Hc', Hc, (Hr' k Hk), (Hr k Hk), (Hr _ K0), (Hr _ K1), (Hr _ K2).
  set (r0 := raw_residual u uold dt 0 / resinit 0%Z).
  set (r1 := raw_residual u uold dt 1 / resinit 1%Z).
  set (r2 := raw_residual u uold dt 2 / resinit 2%Z).
  assert (Hnn : forall c, (0 <= c < neq)%Z -> 0 <= raw_residual u uold dt c / resinit c).
  { intros c Hcr. apply Rmult_le_pos; [apply raw_residual_nonneg|].
    apply Rlt_le, Rinv_0_lt_compat, Hpos, Hcr. }
  assert (Hle : raw_residual u uold dt k / resinit k <= Rmax (Rmax r0 r1) r2).
  { pose proof (Rmax_l (Rmax r0 r1) r2). pose proof (Rmax_r (Rmax r0 r1) r2).
    pose proof (Rmax_l r0 r1). pose proof (Rmax_r r0 r1).
    assert (Hcase : (k = 0 \/ k = 1 \/ k = 2)%Z) by idx_lia.
    destruct Hcase as [-> | [-> | ->]]; fold r0 r1 r2; lra. }
  split; [split; [apply Hnn; exact Hk | exact Hle]|].
  split.
  { unfold Rmax. destruct (Rle_dec r0 r1); destruct (Rle_dec _ r2); auto. }
  split; [reflexivity|]. split; [reflexivity|].
  intros Hsame.
  assert (Hz : forall c, (0 <= c < neq)%Z -> raw_residual u uold dt c / resinit c = 0).
  { intros c Hcr. unfold raw_residual.
    rewrite sum_interior_zero.
    - unfold Rdiv. rewrite Rmult_0_l, sqrt_0. ring.
    - intros i j Hint. unfold sq_diff.
      rewrite (Hsame i j c Hint Hcr). unfold Rdiv. ring. }
  split; [apply Hz; exact Hk|].
  unfold r0, r1, r2. rewrite !Hz by idx_lia.
  rewrite (Rmax_left 0 0) by lra. rewrite Rmax_left by lra. reflexivity.
Qed.

(** ** The main loop *)

Lemma passes_succ (k : nat) (n : Z) (step : iterationStepPointer)
    (bc : boundaryConditionPointer) (g : Z -> AVlocals * AVlocals) (s : Solver) :
  passes (S k) n step bc g s = passes k (n + 1) step bc g (main_body step bc (g n) s).
Proof. reflexivity. Qed.

Lemma main_loop_exit_passes (step : iterationStepPointer)
    (bc : boundaryConditionPointer) (g : Z -> AVlocals * AVlocals) :
  forall (count : nat) (n : Z) (s : Solver),
    let r := main_loop count n step bc g s in
    (fst (fst r) = Converged ->
       exists k, (k < count)%nat /\ snd (fst r) = (n + Z.of_nat k)%Z /\
                 snd r = passes (S k) n step bc g s /\
                 sv_conv (snd r) < toler /\
                 forall k', (k' < k)%nat ->
                   ~ sv_conv (passes (S k') n step bc g s) < toler) /\
    (fst (fst r) = NotConverged ->
       snd (fst r) = (n + Z.of_nat count)%Z /\
       snd r = passes count n step bc g s /\
       forall k', (k' < count)%nat ->
         ~ sv_conv (passes (S k') n step bc g s) < toler).
Proof.
  induction count as [|c IH]; intros n s r.
  - unfold r. cbn [main_loop fst snd passes]. split; [intros E; discriminate E|].
    intros _. split; [lia|]. split; [reflexivity|]. intros k' Hk'. lia.
  - unfold r. rewrite main_loop_succ.
    destruct (Rlt_dec (sv_conv (main_body step bc (g n) s)) toler) as [Hlt|Hge].
    + cbn [fst snd]. split; [|intros E; discriminate E].
      intros _. exists 0%nat. split; [lia|]. split; [lia|].
      split; [reflexivity|]. split; [exact Hlt|]. intros k' Hk'. lia.
    + destruct (IH (n + 1)%Z (main_body step bc (g n) s)) as (IC & IN).
      split.
      * intros E. destruct (IC E) as (k & Hk & En & Es & Hc & Hprev).
        exists (S k). split; [lia|]. split; [rewrite En; lia|].
        split; [rewrite passes_succ; exact Es|]. split; [exact Hc|].
        intros k' Hk'. destruct k' as [|k'']; [exact Hge|].
        rewrite passes_succ. apply Hprev. lia.
      * intros E. destruct (IN E) as (En & Es & Hprev).
        split; [rewrite En; lia|]. split; [rewrite passes_succ; exact Es|].
        intros k' Hk'. destruct k' as [|k'']; [exact Hge|].
        rewrite passes_succ. apply Hprev. lia.
Qed.

(** X18.  The main loop stops at the first pass whose [conv] is below
    [toler]: on the exit 'converged' the iteration number is that of this
    pass, the state is the state after it and no earlier pass had
    [conv < toler]; otherwise all the passes have run, none had
    [conv < toler], and the iteration number is one past the last. *)
Theorem main_loop_stops_at_first_converged_pass (step : iterationStepPointer)
    (bc : boundaryConditionPointer) (g : Z -> AVlocals * AVlocals)
    (count : nat) (n : Z) (s : Solver) :
  let r := main_loop count n step bc g s in
  (fst (fst r) = Converged ->
     exists k, (k < count)%nat /\ snd (fst r) = (n + Z.of_nat k)%Z /\
               snd r = passes (S k) n step bc g s /\
               sv_conv (snd r) < toler /\
               forall k', (k' < k)%nat ->
                 ~ sv_conv (passes (S k') n step bc g s) < toler) /\
  (fst (fst r) = NotConverged ->
     snd (fst r) = (n + Z.of_nat count)%Z /\
     snd r = passes count n step bc g s /\
     forall k', (k' < count)%nat ->
       ~ sv_conv (passes (S k') n step bc g s) < toler).
Proof. apply main_loop_exit_passes. Qed.

(** X19.  [main] stops before its loop when [isgs], [imms] or [irstr] is
    neither 0 nor 1, or when a restart is asked for and the file cannot be
    opened.  In a run from scratch with valid flags (the output statements,
    and so the opening of the output files, are not part of the model), the
    loop is entered with iteration number 1, time 0, [dtmin = 1.0e99] and
    every [resinit[k] = 1]; [main] ends with the result of the loop started
    there for [nmax] passes at most, and the iteration number it ends with
    lies between 1 and [nmax + 1]. *)
Theorem main_exits_on_bad_input (isgs irstr : Z) (file : option Restart)
    (mem : Solver) (g : Z -> AVlocals * AVlocals) :
  ((isgs <> 0 /\ isgs <> 1)%Z \/ (imms <> 0 /\ imms <> 1)%Z \/
   (irstr <> 0 /\ irstr <> 1)%Z \/ (irstr = 1%Z /\ file = None) ->
   main isgs irstr file mem g = None) /\
  ((isgs = 0 \/ isgs = 1)%Z -> (imms = 0 \/ imms = 1)%Z -> irstr = 0%Z ->
   exists step bc st,
     main_entry isgs irstr file mem = Some (step, bc, 1%Z, st) /\
     sv_rtime st = 0 /\ sv_dtmin st = dtmin_main /\
     (forall k, (0 <= k < neq)%Z -> sv_resinit st k = 1) /\
     main isgs irstr file mem g
     = Some (main_loop (Z.to_nat (nmax - 1 + 1)) 1 step bc g st) /\
     (1 <= snd (fst (main_loop (Z.to_nat (nmax - 1 + 1)) 1 step bc g st))
        <= nmax + 1)%Z).
Proof.
  split.
  - intros H. unfold main, main_entry, select_iterationStep,
      select_boundary_conditions, initial.
    destruct (Z.eq_dec isgs 1) as [I1|I1]; [|destruct (Z.eq_dec isgs 0) as [I0|I0]];
      (destruct (Z.eq_dec imms 0) as [M0|M0]; [|destruct (Z.eq_dec imms 1) as [M1|M1]]);
      try reflexivity;
      (destruct (Z.eq_dec irstr 0) as [R0|R0]; [|destruct (Z.eq_dec irstr 1) as [R1|R1]]);
      try reflexivity;
      try (exfalso; lia);
      try (destruct H as [H | [H | [H | (_ & ->)]]]; [lia | lia | lia | reflexivity]).
  - intros Hs Hm ->.
    destruct (initial_fresh file (sv_resinit mem) (f_u (sv_f mem)) (f_src (sv_f mem)))
      as (init & Ei).
    assert (En : in_ninit init = 1%Z /\ in_rtime init = 0).
    { revert Ei. unfold initial. destruct (Z.eq_dec 0 0) as [_|N]; [|contradiction].
      intros E. injection E as <-. split; reflexivity. }
    destruct En as (En & Et).
    assert (Hentry : exists step bc st,
              main_entry isgs 0 file mem = Some (step, bc, 1%Z, st) /\
              sv_rtime st = 0 /\ sv_dtmin st = dtmin_main /\
              sv_resinit st = in_resinit init).
    { unfold main_entry, select_iterationStep, select_boundary_conditions.
      rewrite Ei, En.
      destruct (Z.eq_dec isgs 1); [|destruct (Z.eq_dec isgs 0); [|lia]];
        (destruct (Z.eq_dec imms 0); [|destruct (Z.eq_dec imms 1); [|lia]]);
        eexists; eexists; eexists;
        (split; [reflexivity|]); cbn [sv_rtime sv_dtmin sv_resinit];
        (split; [exact Et|]); split; reflexivity. }
    destruct Hentry as (step & bc & st & Ee & Hrt & Hdt & Hri).
    exists step, bc, st.
    split; [exact Ee|]. split; [exact Hrt|]. split; [exact Hdt|].
    split.
    { intros k Hk. rewrite Hri.
      apply (initial_resinit file (sv_resinit mem) (f_u (sv_f mem)) (f_src (sv_f mem))
               init k Ei Hk). }
    split; [unfold main; rewrite Ee; reflexivity|].
    set (r := main_loop (Z.to_nat (nmax - 1 + 1)) 1 step bc g st).
    destruct (main_loop_exit_passes step bc g (Z.to_nat (nmax - 1 + 1)) 1 st) as (HC & HN).
    fold r in HC, HN.
    destruct (fst (fst r)).
    + destruct (HC eq_refl) as (k & Hk & En' & _). rewrite En'. unfold nmax in *. lia.
    + destruct (HN eq_refl) as (En' & _). rewrite En'. unfold nmax. lia.
Qed.

(** ** Quantities that a run keeps or moves one way *)

Lemma main_body_src (step : iterationStepPointer) (bc : boundaryConditionPointer)
    (g : AVlocals * AVlocals) (s : Solver) :
  selectable step ->
  f_src (sv_f (main_body step bc g s)) = f_src (sv_f s).
Proof. intros [-> | ->]; reflexivity. Qed.

Lemma main_body_dtmin (step : iterationStepPointer) (bc : boundaryConditionPointer)
    (g : AVlocals * AVlocals) (s : Solver) :
  (2 <= imax)%Z -> (2 <= jmax)%Z -> 0 < sv_dtmin s ->
  0 < sv_dtmin (main_body step bc g s) <= sv_dtmin s /\
  sv_rtime (main_body step bc g s)
  = sv_rtime s + sv_dtmin (main_body step bc g s).
Proof.
  intros Hi Hj Hd.
  destruct (compute_time_step_result (f_u (sv_f s)) (f_dt (sv_f s)) (sv_dtmin s) Hi Hj)
    as (A1 & _ & A3 & _).
  change (sv_dtmin (main_body step bc g s))
    with (snd (compute_time_step (f_u (sv_f s)) (f_dt (sv_f s)) (sv_dtmin s))).
  split; [split; [|exact A1]|reflexivity].
  destruct A3 as [E | (a & b & Hint & E)]; rewrite E; [exact Hd|].
  apply local_step_pos; assumption.
Qed.

(** X20.  During a run with either iteration step, entered with a positive
    [dtmin]: no pass assigns the source array, [dtmin] stays positive and
    never increases, and the time [rtime] never decreases and grows by at
    most the entry value of [dtmin] per pass. *)
Theorem main_loop_keeps_source_and_orders_time (step : iterationStepPointer)
    (bc : boundaryConditionPointer) (g : Z -> AVlocals * AVlocals)
    (count : nat) (n : Z) (s : Solver) :
  selectable step -> (2 <= imax)%Z -> (2 <= jmax)%Z -> 0 < sv_dtmin s ->
  let s' := snd (main_loop count n step bc g s) in
  f_src (sv_f s') = f_src (sv_f s) /\
  0 < sv_dtmin s' <= sv_dtmin s /\
  sv_rtime s <= sv_rtime s' <= sv_rtime s + INR count * sv_dtmin s.
Proof.
  intros Hsel Hi Hj. revert n s. induction count as [|c IH]; intros n s Hd s'.
  - unfold s'. cbn [main_loop snd INR]. split; [reflexivity|]. lra.
  - unfold s'. rewrite main_loop_succ.
    destruct (main_body_dtmin step bc (g n) s Hi Hj Hd) as ((D0 & D1) & Et).
    pose proof (main_body_src step bc (g n) s Hsel) as Es.
    pose proof (pos_INR c) as Hc.
    rewrite S_INR.
    destruct (Rlt_dec (sv_conv (main_body step bc (g n) s)) toler) as [Hlt|Hge].
    + cbn [snd]. split; [exact Es|]. split; [lra|]. rewrite Et. nra.
    + destruct (IH (n + 1)%Z (main_body step bc (g n) s) D0) as (Is & (I0 & I1) & (T0 & T1)).
      split; [rewrite Is; exact Es|]. split; [lra|].
      rewrite Et in T0, T1. split; [lra|]. nra.
Qed.

(** ** The manufactured solution and its source terms *)

Lemma dlim_ext (f g : R -> R) (x l : R) :
  (forall t, f t = g t) -> derivable_pt_lim f x l -> derivable_pt_lim g x l.
Proof.
  intros E H eps He. destruct (H eps He) as (d & Hd). exists d.
  intros h Hh Hlt. rewrite <- !E. apply Hd; assumption.
Qed.

Lemma dlim_val (f : R -> R) (x l l' : R) :
  derivable_pt_lim f x l -> l = l' -> derivable_pt_lim f x l'.
Proof. intros H <-. exact H. Qed.

Lemma dlim_lin (c x : R) : derivable_pt_lim (fun t => c * t) x c.
Proof.
  apply (dlim_val _ _ (c * 1)); [|ring].
  apply (dlim_ext (mult_real_fct c id)); [intros t; reflexivity|].
  apply derivable_pt_lim_scal, derivable_pt_lim_id.
Qed.

Lemma dlim_sin_lin (c x : R) :
  derivable_pt_lim (fun t => sin (c * t)) x (c * cos (c * x)).
Proof.
  apply (dlim_val _ _ (cos (c * x) * c)); [|ring].
  apply (dlim_ext (comp sin (fun t => c * t))); [intros t; reflexivity|].
  apply derivable_pt_lim_comp; [apply dlim_lin | apply derivable_pt_lim_sin].
Qed.

Lemma dlim_cos_lin (c x : R) :
  derivable_pt_lim (fun t => cos (c * t)) x (- c * sin (c * x)).
Proof.
  apply (dlim_val _ _ (- sin (c * x) * c)); [|ring].
  apply (dlim_ext (comp cos (fun t => c * t))); [intros t; reflexivity|].
  apply derivable_pt_lim_comp; [apply dlim_lin | apply derivable_pt_lim_cos].
Qed.

Lemma dlim_lincomb (a b : R) (f1 f2 : R -> R) (x l1 l2 : R) :
  derivable_pt_lim f1 x l1 -> derivable_pt_lim f2 x l2 ->
  derivable_pt_lim (fun t => a * f1 t + b * f2 t) x (a * l1 + b * l2).
Proof.
  intros H1 H2.
  apply (dlim_ext (plus_fct (mult_real_fct a f1) (mult_real_fct b f2)));
    [intros t; reflexivity|].
  apply derivable_pt_lim_plus; apply derivable_pt_lim_scal; assumption.
Qed.

Lemma dlim_shift (A : R) (f : R -> R) (x l : R) :
  derivable_pt_lim f x l -> derivable_pt_lim (fun t => A + f t) x l.
Proof.
  intros H. apply (dlim_val _ _ (0 + l)); [|ring].
  apply (dlim_ext (plus_fct (fct_cte A) f)); [intros t; reflexivity|].
  apply derivable_pt_lim_plus; [apply derivable_pt_lim_const | exact H].
Qed.

Lemma dlim_wave (f c x : R) :
  derivable_pt_lim (fun t => wave f (c * t)) x (c * wave' f (c * x)).
Proof.
  apply (dlim_val _ _ (f * (c * cos (c * x)) + (one - f) * (- c * sin (c * x))));
    [|unfold wave'; ring].
  apply (dlim_ext (fun t => f * sin (c * t) + (one - f) * cos (c * t)));
    [intros t; reflexivity|].
  apply dlim_lincomb; [apply dlim_sin_lin | apply dlim_cos_lin].
Qed.

Lemma dlim_wave' (f c x : R) :
  derivable_pt_lim (fun t => wave' f (c * t)) x (- c * wave f (c * x)).
Proof.
  apply (dlim_val _ _ (f * (- c * sin (c * x)) + (- (one - f)) * (c * cos (c * x))));
    [|unfold wave; ring].
  apply (dlim_ext (fun t => f * cos (c * t) + (- (one - f)) * sin (c * t)));
    [intros t; unfold wave'; ring|].
  apply dlim_lincomb; [apply dlim_cos_lin | apply dlim_sin_lin].
Qed.

Lemma rlength_neq : rlength <> 0.
Proof. unfold rlength, xmax, xmin. lra. Qed.

Lemma umms_dx_lim (x y : R) (k : Z) :
  derivable_pt_lim (fun t => umms t y k) x (umms_dx x y k).
Proof.
  pose proof rlength_neq as HL.
  set (cx := apx k * rpi / rlength). set (cxy := apxy k * rpi * y / rlength / rlength).
  apply (dlim_val _ _ (phix k * (cx * wave' (fsinx k) (cx * x))
                       + phixy k * (cxy * wave' (fsinxy k) (cxy * x)))).
  - apply (dlim_ext (fun t =>
      (phi0 k + phiy k * wave (fsiny k) (apy k * rpi * y / rlength))
      + (phix k * wave (fsinx k) (cx * t) + phixy k * wave (fsinxy k) (cxy * t)))).
    + intros t. unfold umms. cbv zeta.
      replace (apx k * rpi * t / rlength) with (cx * t) by (unfold cx; field; exact HL).
      replace (apxy k * rpi * t * y / rlength / rlength) with (cxy * t)
        by (unfold cxy; field; exact HL).
      unfold wave. ring.
    + apply dlim_shift. apply dlim_lincomb; apply dlim_wave.
  - unfold umms_dx. fold cx cxy.
    replace (apx k * rpi * x / rlength) with (cx * x) by (unfold cx; field; exact HL).
    replace (apxy k * rpi * x * y / rlength / rlength) with (cxy * x)
      by (unfold cxy; field; exact HL).
    ring.
Qed.

Lemma umms_dy_lim (x y : R) (k : Z) :
  derivable_pt_lim (fun t => umms x t k) y (umms_dy x y k).
Proof.
  pose proof rlength_neq as HL.
  set (cy := apy k * rpi / rlength). set (cxy := apxy k * rpi * x / rlength / rlength).
  apply (dlim_val _ _ (phiy k * (cy * wave' (fsiny k) (cy * y))
                       + phixy k * (cxy * wave' (fsinxy k) (cxy * y)))).
  - apply (dlim_ext (fun t =>
      (phi0 k + phix k * wave (fsinx k) (apx k * rpi * x / rlength))
      + (phiy k * wave (fsiny k) (cy * t) + phixy k * wave (fsinxy k) (cxy * t)))).
    + intros t. unfold umms. cbv zeta.
      replace (apy k * rpi * t / rlength) with (cy * t) by (unfold cy; field; exact HL).
      replace (apxy k * rpi * x * t / rlength / rlength) with (cxy * t)
        by (unfold cxy; field; exact HL).
      unfold wave. ring.
    + apply dlim_shift. apply dlim_lincomb; apply dlim_wave.
  - unfold umms_dy. fold cy cxy.
    replace (apy k * rpi * y / rlength) with (cy * y) by (unfold cy; field; exact HL).
    replace (apxy k * rpi * x * y / rlength / rlength) with (cxy * y)
      by (unfold cxy; field; exact HL).
    ring.
Qed.

Lemma umms_dxx_lim (x y : R) (k : Z) :
  derivable_pt_lim (fun t => umms_dx t y k) x (umms_dxx x y k).
Proof.
  pose proof rlength_neq as HL.
  set (cx := apx k * rpi / rlength). set (cxy := apxy k * rpi * y / rlength / rlength).
  apply (dlim_val _ _ ((phix k * cx) * (- cx * wave (fsinx k) (cx * x))
                       + (phixy k * cxy) * (- cxy * wave (fsinxy k) (cxy * x)))).
  - apply (dlim_ext (fun t =>
      (phix k * cx) * wave' (fsinx k) (cx * t)
      + (phixy k * cxy) * wave' (fsinxy k) (cxy * t))).
    + intros t. unfold umms_dx. fold cx cxy.
      replace (apx k * rpi * t / rlength) with (cx * t) by (unfold cx; field; exact HL).
      replace (apxy k * rpi * t * y / rlength / rlength) with (cxy * t)
        by (unfold cxy; field; exact HL).
      ring.
    + apply dlim_lincomb; apply dlim_wave'.
  - unfold umms_dxx. fold cx cxy.
    replace (apx k * rpi * x / rlength) with (cx * x) by (unfold cx; field; exact HL).
    replace (apxy k * rpi * x * y / rlength / rlength) with (cxy * x)
      by (unfold cxy; field; exact HL).
    ring.
Qed.

Lemma umms_dyy_lim (x y : R) (k : Z) :
  derivable_pt_lim (fun t => umms_dy x t k) y (umms_dyy x y k).
Proof.
  pose proof rlength_neq as HL.
  set (cy := apy k * rpi / rlength). set (cxy := apxy k * rpi * x / rlength / rlength).
  apply (dlim_val _ _ ((phiy k * cy) * (- cy * wave (fsiny k) (cy * y))
                       + (phixy k * cxy) * (- cxy * wave (fsinxy k) (cxy * y)))).
  - apply (dlim_ext (fun t =>
      (phiy k * cy) * wave' (fsiny k) (cy * t)
      + (phixy k * cxy) * wave' (fsinxy k) (cxy * t))).
    + intros t. unfold umms_dy. fold cy cxy.
      replace (apy k * rpi * t / rlength) with (cy * t) by (unfold cy; field; exact HL).
      replace (apxy k * rpi * x * t / rlength / rlength) with (cxy * t)
        by (unfold cxy; field; exact HL).
      ring.
    + apply dlim_lincomb; apply dlim_wave'.
  - unfold umms_dyy. fold cy cxy.
    replace (apy k * rpi * y / rlength) with (cy * y) by (unfold cy; field; exact HL).
    replace (apxy k * rpi * x * y / rlength / rlength) with (cxy * y)
      by (unfold cxy; field; exact HL).
    ring.
Qed.

Lemma fsin_flags :
  fsinx 0 = 0 /\ fsinx 1 = 1 /\ fsinx 2 = 0 /\
  fsiny 0 = 1 /\ fsiny 1 = 0 /\ fsiny 2 = 0 /\
  fsinxy 0 = 1 /\ fsinxy 1 = 1 /\ fsinxy 2 = 0.
Proof. repeat split. Qed.

(** X21.  The three manufactured source terms are the residuals of the
    governing equations on the manufactured solution [umms]:
    [srcmms_mass = rho u_x + rho v_y],
    [srcmms_xmtm = rho u u_x + rho v u_y + p_x - rmu (u_xx + u_yy)] and
    [srcmms_ymtm = rho u v_x + rho v v_y + p_y - rmu (v_xx + v_yy)], where
    [p], [u], [v] are [umms] for the equation indices 0, 1, 2 and the
    subscripts are its partial derivatives ([umms_dx], [umms_dy], [umms_dxx],
    [umms_dyy], each the limit of the difference quotient). *)
Theorem srcmms_are_equation_residuals (x y : R) :
  (forall k a b,
     derivable_pt_lim (fun t => umms t b k) a (umms_dx a b k) /\
     derivable_pt_lim (fun t => umms a t k) b (umms_dy a b k) /\
     derivable_pt_lim (fun t => umms_dx t b k) a (umms_dxx a b k) /\
     derivable_pt_lim (fun t => umms_dy a t k) b (umms_dyy a b k)) /\
  srcmms_mass x y = rho * umms_dx x y 1 + rho * umms_dy x y 2 /\
  srcmms_xmtm x y
  = rho * umms x y 1 * umms_dx x y 1 + rho * umms x y 2 * umms_dy x y 1
    + umms_dx x y 0 - rmu * (umms_dxx x y 1 + umms_dyy x y 1) /\
  srcmms_ymtm x y
  = rho * umms x y 1 * umms_dx x y 2 + rho * umms x y 2 * umms_dy x y 2
    + umms_dy x y 0 - rmu * (umms_dxx x y 2 + umms_dyy x y 2).
Proof.
  destruct fsin_flags as (X0 & X1 & X2 & Y0 & Y1 & Y2 & Z0 & Z1 & Z2).
  pose proof rlength_neq as HL.
  split; [intros k a b; repeat split;
          [apply umms_dx_lim | apply umms_dy_lim | apply umms_dxx_lim | apply umms_dyy_lim]|].
  split; [|split].
  - unfold srcmms_mass, umms_dx, umms_dy, wave'. cbv zeta.
    rewrite X1, Y2, Z1, Z2. unfold one. field. exact HL.
  - unfold srcmms_xmtm, umms, umms_dx, umms_dy, umms_dxx, umms_dyy, wave, wave'. cbv zeta.
    rewrite X0, X1, X2, Y1, Y2, Z0, Z1, Z2. unfold one. field. exact HL.
  - unfold srcmms_ymtm, umms, umms_dx, umms_dy, umms_dxx, umms_dyy, wave, wave'. cbv zeta.
    rewrite X1, X2, Y0, Y1, Y2, Z0, Z1, Z2. unfold one. field. exact HL.
Qed.

(** ** The grid spacing and the node coordinates *)

Lemma xnode_step (i : Z) : (2 <= imax)%Z -> xnode (i + 1) - xnode i = dx.
Proof.
  intros Hi. assert (H : IZR (imax - 1) <> 0) by (apply not_0_IZR; lia).
  unfold xnode, dx. rewrite plus_IZR. field. exact H.
Qed.

Lemma ynode_step (j : Z) : (2 <= jmax)%Z -> ynode (j + 1) - ynode j = dy.
Proof.
  intros Hj. assert (H : IZR (jmax - 1) <> 0) by (apply not_0_IZR; lia).
  unfold ynode, dy. rewrite plus_IZR. field. exact H.
Qed.

(** X22.  The derived inputs agree with the coordinates that the loops
    compute: column [i] lies at [(xmax - xmin) * i / (imax - 1)], which is
    [xmin] for the first column, [xmax] for the last, and advances by the
    spacing [dx] of [set_derived_inputs] from one column to the next; the
    same holds for the rows with [dy]; and [rpi = acos(-1)] is the number
    pi. *)
Theorem set_derived_inputs_consistent (i j : Z) :
  (2 <= imax)%Z -> (2 <= jmax)%Z ->
  xnode 0 = xmin /\ xnode (imax - 1) = xmax /\ xnode (i + 1) - xnode i = dx /\
  ynode 0 = ymin /\ ynode (jmax - 1) = ymax /\ ynode (j + 1) - ynode j = dy /\
  rpi = PI.
Proof.
  intros Hi Hj.
  destruct (xnode_ends Hi) as (X0 & X1). destruct (ynode_ends Hj) as (Y0 & Y1).
  split; [exact X0|]. split; [exact X1|]. split; [apply xnode_step; exact Hi|].
  split; [exact Y0|]. split; [exact Y1|]. split; [apply ynode_step; exact Hj|].
  unfold rpi, one. rewrite acos_opp, acos_1. ring.
Qed.

(** ** PJ_iteration: the buffer that becomes [u] *)

(** X23.  [PJ_iteration] swaps the two buffers, so the new [u] is written
    into the buffer that held [uold]; with the wall boundary conditions (grid
    of at least 4 x 4 cells) every cell of the grid is assigned, the interior
    by [point_Jacobi] and the border by [bndry]: on the grid the resulting
    field does not depend on what that buffer held. *)
Theorem PJ_iteration_overwrites_swapped_buffer (g : AVlocals) (f : Fields)
    (stale_uold : Array3) (i j k : Z) :
  (4 <= imax)%Z -> (4 <= jmax)%Z -> in_grid i j -> (0 <= k < neq)%Z ->
  get3 (f_u (PJ_iteration bndry g
               (mkFields (f_u f) stale_uold (f_src f) (f_viscx f) (f_viscy f) (f_dt f))))
       i j k
  = get3 (f_u (PJ_iteration bndry g f)) i j k.
Proof.
  intros Hi Hj Hg Hk. rewrite !PJ_iteration_fields. cbv zeta.
  cbn [f_u f_uold f_src f_viscx f_viscy f_dt].
  set (visc := Compute_Artificial_Viscosity g (f_u f) (f_viscx f) (f_viscy f)).
  apply bndry_determined; try assumption.
  intros a b c Hint Hc.
  destruct (point_Jacobi_result stale_uold (f_u f) (fst visc) (snd visc)
              (f_dt f) (f_src f)) as (_ & H1).
  destruct (point_Jacobi_result (f_uold f) (f_u f) (fst visc) (snd visc)
              (f_dt f) (f_src f)) as (_ & H2).
  rewrite (H1 a b c (f_uold f) Hint Hc), (H2 a b c (f_uold f) Hint Hc). reflexivity.
Qed.

(** ** The wall conditions after a pass of the main loop *)

Lemma main_body_field (step : iterationStepPointer) (g : AVlocals * AVlocals)
    (s : Solver) :
  selectable step ->
  exists w, f_u (sv_f (main_body step bndry g s)) = pressure_rescaling (bndry w).
Proof. intros [-> | ->]; eexists; reflexivity. Qed.

Lemma pressure_rescaling_keeps_walls (b : Array3) :
  (4 <= imax)%Z -> (4 <= jmax)%Z ->
  wall_pressure_extrapolated b ->
  (forall j, (1 <= j < jmax - 1)%Z -> side_walls_at_rest b j) ->
  (forall i, (0 <= i < imax)%Z -> floor_and_lid b i) ->
  wall_pressure_extrapolated (pressure_rescaling b) /\
  (forall j, (1 <= j < jmax - 1)%Z -> side_walls_at_rest (pressure_rescaling b) j) /\
  (forall i, (0 <= i < imax)%Z -> floor_and_lid (pressure_rescaling b) i).
Proof.
  intros Hi Hj (B & C) Vs Vf.
  assert (Hc : forall i j, in_grid i j ->
            get3 (pressure_rescaling b) i j 0 = get3 b i j 0 - deltap b /\
            get3 (pressure_rescaling b) i j 1 = get3 b i j 1 /\
            get3 (pressure_rescaling b) i j 2 = get3 b i j 2).
  { apply pressure_rescaling_cells; lia. }
  assert (Hp : forall i j, in_grid i j ->
            get3 (pressure_rescaling b) i j 0 = get3 b i j 0 - deltap b).
  { intros i j Hg. apply (Hc i j Hg). }
  assert (Hu : forall i j, in_grid i j ->
            get3 (pressure_rescaling b) i j 1 = get3 b i j 1).
  { intros i j Hg. apply (Hc i j Hg). }
  assert (Hv : forall i j, in_grid i j ->
            get3 (pressure_rescaling b) i j 2 = get3 b i j 2).
  { intros i j Hg. apply (Hc i j Hg). }
  split; [split|split].
  - intros j Hjr. destruct (B j Hjr) as (L & Rg).
    rewrite !Hp by (unfold in_grid; lia). rewrite L, Rg. split; ring.
  - intros i Hir. destruct (C i Hir) as (Bo & To).
    rewrite !Hp by (unfold in_grid; lia). rewrite Bo, To. split; ring.
  - intros j Hjr. destruct (Vs j Hjr) as (a1 & a2 & a3 & a4).
    unfold side_walls_at_rest.
    rewrite !Hu, !Hv by (unfold in_grid; lia). repeat split; assumption.
  - intros i Hir. destruct (Vf i Hir) as (a1 & a2 & a3 & a4).
    unfold floor_and_lid.
    rewrite !Hu, !Hv by (unfold in_grid; lia). repeat split; assumption.
Qed.

(** X24.  After every pass of the main loop with the wall boundary
    conditions and either iteration step (grid of at least 4 x 4 cells), the
    field obeys the wall conditions although [pressure_rescaling] runs after
    [bndry]: the side walls and the floor are at rest, the top row moves
    with the lid, and every wall pressure continues the two cells next to it
    linearly, since a constant shift of the pressure keeps the
    extrapolation. *)
Theorem main_body_field_obeys_wall_conditions (step : iterationStepPointer)
    (g : AVlocals * AVlocals) (s : Solver) :
  selectable step -> (4 <= imax)%Z -> (4 <= jmax)%Z ->
  wall_pressure_extrapolated (f_u (sv_f (main_body step bndry g s))) /\
  (forall j, (1 <= j < jmax - 1)%Z ->
     side_walls_at_rest (f_u (sv_f (main_body step bndry g s))) j) /\
  (forall i, (0 <= i < imax)%Z ->
     floor_and_lid (f_u (sv_f (main_body step bndry g s))) i).
Proof.
  intros Hsel Hi Hj. destruct (main_body_field step g s Hsel) as (w & ->).
  destruct (bndry_rows w) as (Vs & Vf); [lia|].
  apply pressure_rescaling_keeps_walls; try assumption.
  apply bndry_wall_pressure; assumption.
Qed.

(** ** The forward sweep on a field at steady state *)

Lemma SGS_forward_sweep_steady (u : Array3) (viscx viscy dt : Array2) (s : Array3) :
  steady_state u s ->
  (forall i j, interior i j -> get2 viscx i j + get2 viscy i j = 0) ->
  forall n, SGS_forward_sweep u viscx viscy dt s n = u n.
Proof.
  intros Hst Hv. unfold SGS_forward_sweep.
  apply (for_lt_preserve (fun t : Array3 => forall n, t n = u n)); [reflexivity|].
  intros a t Ha Ht.
  apply (for_lt_preserve (fun t0 : Array3 => forall n, t0 n = u n)); [exact Ht|].
  intros b t0 Hb Ht0.
  assert (Hint : interior a b) by (unfold interior; lia).
  apply sgs_cell_fixed; [lia | exact Ht0 | apply Hst; exact Hint | apply Hv; exact Hint].
Qed.

End Cavity.

(** * The program's grid: imax = jmax = 65 *)

Lemma zeros_steady (imax jmax : Z) : steady_state imax jmax zeros zeros.
Proof.
  intros i j _. unfold steady_at, get3, zeros.
  repeat split; unfold Rdiv; ring.
Qed.

Lemma pressure_rescaling_anchors_witness :
  (0 < 65)%Z /\
  get3 65 (pressure_rescaling 65 65 0 zeros) (iref 65) (jref 65) 0
  = reference_pressure 65 65 0.
Proof.
  assert (Hi : (0 < 65)%Z) by lia.
  split; [exact Hi|].
  exact (proj2 (proj2 (proj2 (proj2
    (pressure_rescaling_anchors 65 65 0 zeros Hi Hi))))).
Defined.

Lemma pressure_rescaling_keeps_velocity_witness :
  in_grid 65 65 3 4 /\
  get3 65 (pressure_rescaling 65 65 0 zeros) 3 4 1 = get3 65 zeros 3 4 1.
Proof.
  assert (Hg : in_grid 65 65 3 4) by (unfold in_grid; lia).
  split; [exact Hg|].
  exact (pressure_rescaling_keeps_velocity 65 65 0 zeros 3 4 1 Hg
           (or_introl eq_refl)).
Defined.

Lemma bndry_wall_velocities_witness :
  (2 <= 65)%Z /\ get3 65 (bndry 65 65 zeros) 0 64 1 = uinf.
Proof.
  assert (H : (2 <= 65)%Z) by lia.
  assert (H0 : (0 <= 0 < 65)%Z) by lia.
  split; [exact H|].
  exact (proj1 (proj2 (proj2
    (proj2 (bndry_wall_velocities 65 65 zeros H) 0%Z H0)))).
Defined.

Lemma PJ_update_writes_interior_reads_old_witness :
  border 65 65 0 7 /\
  get3 65 (point_Jacobi 65 65 zeros zeros
             (fst (Compute_Artificial_Viscosity 65 65 no_locals zeros zeros zeros))
             (snd (Compute_Artificial_Viscosity 65 65 no_locals zeros zeros zeros))
             zeros zeros) 0 7 2
  = get3 65 zeros 0 7 2.
Proof.
  assert (Hb : border 65 65 0 7) by (unfold border, in_grid; lia).
  assert (Hk : (0 <= 2 < neq)%Z) by (unfold neq; lia).
  split; [exact Hb|].
  exact (proj1 (proj2 (proj2 (proj2 (proj2 (proj2
    (PJ_update_writes_interior_reads_old 65 65 (bndry 65 65) no_locals
       (mkFields zeros zeros zeros zeros zeros zeros)))))))
    0%Z 7%Z 2%Z Hb Hk).
Defined.

Lemma PJ_iteration_steady_interior_witness :
  interior 65 65 1 2 /\
  steady_at 65 65 (f_u all_zero) (f_src all_zero) 1 2 /\
  get3 65 (f_u (PJ_iteration 65 65 (bndry 65 65) no_locals all_zero)) 1 2 1
  = get3 65 (f_u all_zero) 1 2 1.
Proof.
  assert (Hint : interior 65 65 1 2) by (unfold interior; lia).
  pose proof (zeros_steady 65 65 1%Z 2%Z Hint) as Hst.
  split; [exact Hint|]. split; [exact Hst|].
  exact (proj1 (PJ_iteration_steady_interior 65 65 no_locals all_zero 1 2 Hint Hst)).
Defined.

(** C9, as stated, fails: the fluid at rest is at steady state (all
    differences and the source are zero), and one Point-Jacobi iteration
    changes the x-velocity of the lid cell (1, 64) from 0 to [uinf]. *)
Lemma PJ_iteration_steady_changes_lid :
  steady_state 65 65 (f_u all_zero) (f_src all_zero) /\
  in_grid 65 65 1 64 /\
  get3 65 (f_u all_zero) 1 64 1 = 0 /\
  get3 65 (f_u (PJ_iteration 65 65 (bndry 65 65) no_locals all_zero)) 1 64 1 = 1 /\
  get3 65 (f_u (PJ_iteration 65 65 (bndry 65 65) no_locals all_zero)) 1 64 1
  <> get3 65 (f_u all_zero) 1 64 1.
Proof.
  assert (H2 : (2 <= 65)%Z) by lia.
  assert (H1 : (0 <= 1 < 65)%Z) by lia.
  assert (Hlid : get3 65 (f_u (PJ_iteration 65 65 (bndry 65 65) no_locals all_zero)) 1 64 1 = 1).
  { rewrite PJ_iteration_fields. cbv zeta. cbn [f_u].
    exact (proj1 (proj2 (proj2 (proj2 (bndry_rows 65 65 _ H2) 1%Z H1)))). }
  split; [apply zeros_steady|]. split; [unfold in_grid; lia|].
  split; [reflexivity|]. split; [exact Hlid|].
  rewrite Hlid. unfold all_zero, get3, zeros. cbn [f_u]. lra.
Qed.

(** ** The dissipation operator on a pressure spike *)

Lemma dx65_pos : 0 < dx 65.
Proof. unfold dx, xmax, xmin. simpl. lra. Qed.

Lemma spec_beta2_spike : spec_beta2 65 spike 2 2 = 1 / 10.
Proof.
  unfold spec_beta2, rkappa, vel2ref, uinf.
  change (get3 65 spike 2 2 1) with 0. change (get3 65 spike 2 2 2) with 0.
  rewrite Rmax_right; lra.
Qed.

Lemma spec_viscx_spike_neg : spec_viscx 65 65 spike 2 2 < 0.
Proof.
  unfold spec_viscx. rewrite spec_beta2_spike.
  assert (Hl : 0 < Rabs (spec_lambda 65 spike 2 2 1)).
  { apply Rabs_pos_lt. unfold spec_lambda. rewrite spec_beta2_spike.
    change (get3 65 spike 2 2 1) with 0. rewrite Rabs_R0.
    assert (Hs : 0 < sqrt (0 * 0 + 4 * (1 / 10))) by (apply sqrt_lt_R0; lra).
    lra. }
  change (get3 65 spike (2 + 2) 2 0) with 0.
  change (get3 65 spike (2 + 1) 2 0) with 0.
  change (get3 65 spike 2 2 0) with 1.
  change (get3 65 spike (2 - 1) 2 0) with 0.
  change (get3 65 spike (2 - 2) 2 0) with 0.
  pose proof dx65_pos as Hdx.
  set (L := Rabs (spec_lambda 65 spike 2 2 1)) in *.
  set (h := dx 65) in *.
  clearbody L h.
  assert (H3 : 0 < h * h * h) by (repeat apply Rmult_lt_0_compat; assumption).
  assert (H4 : 0 < h * h * h * h) by (repeat apply Rmult_lt_0_compat; assumption).
  assert (Hq : 0 < (0 - 4 * 0 + 6 * 1 - 4 * 0 + 0) / (h * h * h * h)).
  { apply Rdiv_lt_0_compat; [lra | exact H4]. }
  set (q := (0 - 4 * 0 + 6 * 1 - 4 * 0 + 0) / (h * h * h * h)) in *.
  clearbody q.
  assert (Hp : 0 < L * Cx * (h * h * h) * q).
  { unfold Cx. repeat apply Rmult_lt_0_compat; try assumption; lra. }
  replace (- L * Cx * (h * h * h) * q / (1 / 10))
    with (- (10 * (L * Cx * (h * h * h) * q))) by (field).
  lra.
Qed.

Lemma dy65_pos : 0 < dy 65.
Proof. unfold dy, ymax, ymin. simpl. lra. Qed.

Lemma spec_viscy_spike_neg : spec_viscy 65 spike 2 2 < 0.
Proof.
  unfold spec_viscy. rewrite spec_beta2_spike.
  assert (Hl : 0 < Rabs (spec_lambda 65 spike 2 2 2)).
  { apply Rabs_pos_lt. unfold spec_lambda. rewrite spec_beta2_spike.
    change (get3 65 spike 2 2 2) with 0. rewrite Rabs_R0.
    assert (Hs : 0 < sqrt (0 * 0 + 4 * (1 / 10))) by (apply sqrt_lt_R0; lra).
    lra. }
  change (get3 65 spike 2 (2 + 2) 0) with 0.
  change (get3 65 spike 2 (2 + 1) 0) with 0.
  change (get3 65 spike 2 2 0) with 1.
  change (get3 65 spike 2 (2 - 1) 0) with 0.
  change (get3 65 spike 2 (2 - 2) 0) with 0.
  pose proof dy65_pos as Hdy.
  set (L := Rabs (spec_lambda 65 spike 2 2 2)) in *.
  set (h := dy 65) in *.
  clearbody L h.
  assert (H3 : 0 < h * h * h) by (repeat apply Rmult_lt_0_compat; assumption).
  assert (H4 : 0 < h * h * h * h) by (repeat apply Rmult_lt_0_compat; assumption).
  assert (Hq : 0 < (0 - 4 * 0 + 6 * 1 - 4 * 0 + 0) / (h * h * h * h)).
  { apply Rdiv_lt_0_compat; [lra | exact H4]. }
  set (q := (0 - 4 * 0 + 6 * 1 - 4 * 0 + 0) / (h * h * h * h)) in *.
  clearbody q.
  assert (Hp : 0 < L * Cy * (h * h * h) * q).
  { unfold Cy. repeat apply Rmult_lt_0_compat; try assumption; lra. }
  replace (- L * Cy * (h * h * h) * q / (1 / 10))
    with (- (10 * (L * Cy * (h * h * h) * q))) by (field).
  lra.
Qed.

(** C1 (the code departs from it).  On the 65 x 65 grid, for the fluid at
    rest with a pressure spike at cell (2,2): the specified dissipation
    [-|lambda_x|*Cx*dx^3*(d4p/dx4)/beta2] at (2,2) is strictly negative, and
    so is its analogue in y, whereas [Compute_Artificial_Viscosity] stores 0
    in [viscx(2,2)] and in [viscy(2,2)] (whatever the indeterminate locals
    and the previous contents of the arrays are); and the cell
    (62,2) = (imax-3,2), which has two neighbours on each side, is not
    assigned at all. *)
Theorem Compute_Artificial_Viscosity_on_spike (g : AVlocals) (viscx viscy : Array2) :
  get2 65 (fst (Compute_Artificial_Viscosity 65 65 g spike viscx viscy)) 2 2 = 0 /\
  get2 65 (snd (Compute_Artificial_Viscosity 65 65 g spike viscx viscy)) 2 2 = 0 /\
  spec_viscx 65 65 spike 2 2 < 0 /\
  spec_viscy 65 spike 2 2 < 0 /\
  get2 65 (fst (Compute_Artificial_Viscosity 65 65 g spike viscx viscy)) 62 2
  = get2 65 viscx 62 2 /\
  get2 65 (snd (Compute_Artificial_Viscosity 65 65 g spike viscx viscy)) 62 2
  = get2 65 viscy 62 2.
Proof.
  assert (Hb : av_block 65 65 2 2) by (unfold av_block; lia).
  destruct (Compute_Artificial_Viscosity_interior_zero 65 65 g spike viscx viscy 2 2 Hb)
    as (Zx & Zy).
  destruct (Compute_Artificial_Viscosity_unwritten 65 65 g spike viscx viscy 62 2)
    as (Ux & Uy); try (unfold av_block, av_edge_written; lia).
  split; [exact Zx|]. split; [exact Zy|].
  split; [exact spec_viscx_spike_neg|]. split; [exact spec_viscy_spike_neg|].
  split; [exact Ux | exact Uy].
Qed.

Lemma av_boundary_reads_outside_domain_witness :
  (5 <= 65)%Z /\
  In (65, 2, 0)%Z (fst (av_boundary 65 65 zeros (rd_ret (av_entry no_locals zeros zeros)))) /\
  ~ in_dom 65 65 (65, 2, 0)%Z.
Proof.
  assert (H : (5 <= 65)%Z) by lia.
  pose proof (av_boundary_reads_outside_domain 65 65 zeros
                (rd_ret (av_entry no_locals zeros zeros)) H H) as W.
  split; [exact H|]. split.
  - exact (proj1 (proj2 (proj2 W))).
  - exact (proj1 (proj2 (proj2 (proj2 (proj2 (proj2 (proj2 W))))))).
Defined.

(** ** Two calls of compute_time_step *)

Lemma dx65_eq : dx 65 = 5 / 6400.
Proof. unfold dx, xmax, xmin. simpl. lra. Qed.

Lemma dy65_eq : dy 65 = 5 / 6400.
Proof. unfold dy, ymax, ymin. simpl. lra. Qed.

Lemma nu_eq : nu = 5 / 10000.
Proof. unfold nu, rmu, rho, uinf, rlength, xmax, xmin, Re. lra. Qed.

(** At rest, every local step exceeds 0.3 dx. *)
Lemma local_step_at_rest (i j : Z) : 3 / 10 * (5 / 6400) < local_step 65 65 zeros i j.
Proof.
  unfold local_step. cbv zeta. unfold get3, zeros.
  rewrite dx65_eq, dy65_eq, nu_eq. unfold rkappa, vel2ref, uinf, cfl.
  rewrite Rabs_R0.
  replace (0 * 0 + 0 * 0) with 0 by ring.
  rewrite (Rmax_right 0 (1 / 10 * (1 * 1))) by lra.
  set (L := 1 / 2 * (0 + sqrt (0 * 0 + 4 * (1 / 10 * (1 * 1))))).
  assert (Hs0 : 0 < sqrt (0 * 0 + 4 * (1 / 10 * (1 * 1)))) by (apply sqrt_lt_R0; lra).
  assert (Hs1 : sqrt (0 * 0 + 4 * (1 / 10 * (1 * 1))) <= 1).
  { apply Rle_trans with (sqrt 1); [apply sqrt_le_1; lra | rewrite sqrt_1; lra]. }
  assert (HL : 0 < L <= 1 / 2) by (unfold L; lra).
  rewrite (Rmax_left L L) by lra.
  rewrite (Rabs_pos_eq L) by lra.
  rewrite (Rmin_left (5 / 6400) (5 / 6400)) by lra.
  assert (Hc : 2 * (5 / 6400) <= 5 / 6400 / L).
  { apply (Rmult_le_reg_r L); [lra|].
    replace (5 / 6400 / L * L) with (5 / 6400) by (field; lra). nra. }
  assert (Hm : 5 / 6400 * (5 / 6400) / (4 * (5 / 10000))
               <= Rmin (5 / 6400 * (5 / 6400) / (4 * (5 / 10000))) (5 / 6400 / L)).
  { apply Rmin_glb; lra. }
  lra.
Qed.

(** At cell (1, 1) of [fast] the local step is at most 0.2 dx. *)
Lemma local_step_fast : local_step 65 65 fast 1 1 <= 2 / 10 * (5 / 6400).
Proof.
  unfold local_step. cbv zeta.
  change (get3 65 fast 1 1 1) with 3. change (get3 65 fast 1 1 2) with 0.
  rewrite dx65_eq, dy65_eq, nu_eq. unfold rkappa, vel2ref, uinf, cfl.
  rewrite (Rmax_left (3 * 3 + 0 * 0) (1 / 10 * (1 * 1))) by lra.
  rewrite Rabs_R0. rewrite (Rabs_pos_eq 3) by lra.
  assert (Hs : 6 <= sqrt (3 * 3 + 4 * (3 * 3 + 0 * 0))).
  { apply Rle_trans with (sqrt (6 * 6)); [rewrite sqrt_square; lra|].
    apply sqrt_le_1; lra. }
  set (lx := 1 / 2 * (3 + sqrt (3 * 3 + 4 * (3 * 3 + 0 * 0)))) in *.
  set (ly := 1 / 2 * (0 + sqrt (0 * 0 + 4 * (3 * 3 + 0 * 0)))) in *.
  assert (Hlx : 9 / 2 <= lx) by (unfold lx; lra).
  pose proof (Rmax_l lx ly) as Hmax.
  set (lm := Rmax lx ly) in *. clearbody lm.
  rewrite (Rabs_pos_eq lm) by lra.
  rewrite (Rmin_left (5 / 6400) (5 / 6400)) by lra.
  assert (Hc : 5 / 6400 / lm <= 5 / 6400 / (9 / 2)).
  { unfold Rdiv. apply Rmult_le_compat_l; [lra|].
    apply Rinv_le_contravar; lra. }
  pose proof (Rmin_r (5 / 6400 * (5 / 6400) / (4 * (5 / 10000))) (5 / 6400 / lm)) as Hr.
  lra.
Qed.

(** C4 (the code departs from it: the returned [dtmin] is a running minimum).
    Two calls on the 65 x 65 grid: after a call on [fast] (entered with the
    initial [dtmin] of [main]), a call on the fluid at rest returns a [dtmin]
    that is strictly below the local step of every interior cell of the
    current field. *)
Theorem compute_time_step_second_call_not_minimum (dt : Array2) :
  let r1 := compute_time_step 65 65 fast dt dtmin_main in
  let r2 := compute_time_step 65 65 zeros (fst r1) (snd r1) in
  forall i j, interior 65 65 i j -> snd r2 < local_step 65 65 zeros i j.
Proof.
  intros r1 r2 i j Hint.
  assert (H2 : (2 <= 65)%Z) by lia.
  assert (H11 : interior 65 65 1 1) by (unfold interior; lia).
  destruct (compute_time_step_result 65 65 fast dt dtmin_main H2 H2) as (_ & A & _).
  destruct (A 1%Z 1%Z H11) as (A1 & _). fold r1 in A1.
  destruct (compute_time_step_result 65 65 zeros (fst r1) (snd r1) H2 H2) as (B & _).
  fold r2 in B.
  pose proof local_step_fast. pose proof (local_step_at_rest i j). lra.
Qed.

Lemma compute_time_step_keeps_running_minimum_witness :
  (2 <= 65)%Z /\
  sv_dtmin (main_body 65 65 0 (fun bc g1 _ f => PJ_iteration 65 65 bc g1 f)
              (bndry 65 65) (no_locals, no_locals)
              (mkSolver all_zero zeros zeros 0 dtmin_main 0))
  <= dtmin_main.
Proof.
  assert (H : (2 <= 65)%Z) by lia.
  split; [exact H|].
  pose proof (compute_time_step_keeps_running_minimum 65 65 0
    (fun bc g1 _ f => PJ_iteration 65 65 bc g1 f) (bndry 65 65)
    (no_locals, no_locals) (mkSolver all_zero zeros zeros 0 dtmin_main 0) H H) as W.
  cbv zeta in W. destruct W as (E & Le & _).
  rewrite E. exact Le.
Defined.

Lemma compute_time_step_second_call_not_minimum_witness :
  interior 65 65 1 1 /\
  snd (compute_time_step 65 65 zeros
         (fst (compute_time_step 65 65 fast zeros dtmin_main))
         (snd (compute_time_step 65 65 fast zeros dtmin_main)))
  < local_step 65 65 zeros 1 1.
Proof.
  assert (H : interior 65 65 1 1) by (unfold interior; lia).
  split; [exact H|].
  exact (compute_time_step_second_call_not_minimum zeros 1%Z 1%Z H).
Defined.

(** ** The first residual of a run from scratch *)

Lemma lid_rate65 : lid_rate 65 = 8192 / 10.
Proof.
  unfold lid_rate. rewrite dy65_eq.
  unfold rhoinv, rmu, rho, uinf, rlength, xmax, xmin, Re, one. field.
Qed.

(** C3 (the code departs from it).  The program as configured (65 x 65,
    Point-Jacobi, wall boundary conditions, run from scratch): the first pass
    of the main loop computes an x-momentum residual [res[1]] between 103 and
    104; this value is not captured, for after that pass and after any number
    of further passes every [resinit[k]] is still 1, and the [res[k]] that
    the next pass computes is the raw RMS residual itself, not the raw
    residual divided by the residual of the first iteration. *)
Theorem first_residual_is_not_captured
    (file : option Restart) (mem : Solver)
    (step : iterationStepPointer) (bc : boundaryConditionPointer)
    (ninit : Z) (st0 : Solver)
    (g : Z -> AVlocals * AVlocals) (count : nat) (n : Z)
    (g' : AVlocals * AVlocals) (k : Z) :
  main_entry 65 65 0 0 0 file mem = Some (step, bc, ninit, st0) ->
  (0 <= k < neq)%Z ->
  let st1 := main_body 65 65 0 step bc (g ninit) st0 in
  let stn := snd (main_loop 65 65 0 count n step bc g st1) in
  let stn' := main_body 65 65 0 step bc g' stn in
  103 < sv_res st1 1%Z < 104 /\
  sv_resinit stn k = 1 /\
  sv_res stn' k
  = raw_residual 65 65 (f_u (sv_f stn')) (f_uold (sv_f stn')) (f_dt (sv_f stn')) k.
Proof.
  intros Hentry Hk st1 stn stn'.
  assert (H3 : (3 <= 65)%Z) by lia.
  destruct (main_entry_from_scratch 65 65 0 file mem step bc ninit st0 eq_refl H3 H3 Hentry)
    as (-> & -> & -> & Hu & Hs & _ & init & Einit & Eres).
  assert (K1 : (0 <= 1 < neq)%Z) by (unfold neq; lia).
  split.
  - unfold st1. rewrite main_body_res.
    destruct (check_iterative_convergence_result 65 65
                (f_u (sv_f (main_body 65 65 0 (fun b g1 _ f => PJ_iteration 65 65 b g1 f)
                              (bndry 65 65) (g 1%Z) st0)))
                (f_uold (sv_f (main_body 65 65 0 (fun b g1 _ f => PJ_iteration 65 65 b g1 f)
                              (bndry 65 65) (g 1%Z) st0)))
                (f_dt (sv_f (main_body 65 65 0 (fun b g1 _ f => PJ_iteration 65 65 b g1 f)
                              (bndry 65 65) (g 1%Z) st0)))
                (sv_res st0) (sv_resinit st0)) as (Hr & _).
    rewrite (Hr 1%Z K1). rewrite Eres.
    rewrite (initial_resinit 65 65 file _ _ _ init 1%Z Einit K1).
    rewrite (first_pass_raw_residual 65 65 0 (g 1%Z) st0 H3 H3 Hu Hs).
    rewrite lid_rate65. unfold one.
    replace (IZR (65 - 2) * (8192 / 10 * (8192 / 10)) / IZR ((65 - 2) * (65 - 2)))
      with (67108864 / 6300) by (simpl; lra).
    assert (Hlo : sqrt (103 * 103) < sqrt (67108864 / 6300)) by (apply sqrt_lt_1; lra).
    assert (Hhi : sqrt (67108864 / 6300) < sqrt (104 * 104)) by (apply sqrt_lt_1; lra).
    rewrite sqrt_square in Hlo by lra. rewrite sqrt_square in Hhi by lra.
    lra.
  - assert (Est1 : sv_resinit st1 = in_resinit init) by (unfold st1; exact Eres).
    destruct (convergence_check_divides_by_one 65 65 0 file _ _ _ init
                (fun b g1 _ f => PJ_iteration 65 65 b g1 f) (bndry 65 65) g count n st1 g' k
                Einit Est1 Hk) as (A & _ & C).
    split; [exact A | exact C].
Qed.

Lemma first_residual_is_not_captured_witness :
  (0 <= 1 < neq)%Z /\
  exists st0,
    main_entry 65 65 0 0 0 None (mkSolver all_zero zeros zeros 0 0 0)
    = Some (fun b g1 _ f => PJ_iteration 65 65 b g1 f, bndry 65 65, 1%Z, st0) /\
    103 < sv_res (main_body 65 65 0 (fun b g1 _ f => PJ_iteration 65 65 b g1 f)
                    (bndry 65 65) (no_locals, no_locals) st0) 1%Z < 104.
Proof.
  assert (Hk : (0 <= 1 < neq)%Z) by (unfold neq; lia).
  split; [exact Hk|].
  eexists. split; [reflexivity|].
  exact (proj1 (first_residual_is_not_captured None (mkSolver all_zero zeros zeros 0 0 0)
           _ _ _ _ (fun _ => (no_locals, no_locals)) 0%nat 2%Z (no_locals, no_locals) 1%Z
           eq_refl Hk)).
Defined.

(** ** The interior pressure of a steady field *)

(** The cell (1, 2) is not assigned by the dissipation operator, so a value
    that [viscx] holds there on entry goes into the pressure update: with
    the fluid at rest, one Point-Jacobi iteration changes the pressure of
    this interior cell from 0 to beta2 * dt * viscx = 1/10. *)
Lemma PJ_iteration_steady_stale_dissipation (g : AVlocals) :
  let f := mkFields zeros zeros zeros stale zeros ones in
  steady_state 65 65 (f_u f) (f_src f) /\
  interior 65 65 1 2 /\
  get3 65 (f_u f) 1 2 0 = 0 /\
  get3 65 (f_u (PJ_iteration 65 65 (bndry 65 65) g f)) 1 2 0 = 1 / 10.
Proof.
  intros f.
  assert (Hint : interior 65 65 1 2) by (unfold interior; lia).
  assert (K0 : (0 <= 0 < neq)%Z) by (unfold neq; lia).
  split; [apply zeros_steady|]. split; [exact Hint|]. split; [reflexivity|].
  rewrite PJ_iteration_fields. cbv zeta. unfold f. cbn [f_u f_uold f_src f_viscx f_viscy f_dt].
  set (visc := Compute_Artificial_Viscosity 65 65 g zeros stale zeros).
  rewrite bndry_interior by assumption.
  destruct (point_Jacobi_result 65 65 zeros zeros (fst visc) (snd visc) ones zeros)
    as (_ & Hin).
  rewrite (Hin 1%Z 2%Z 0%Z zeros Hint K0).
  destruct (pj_cell_steady 65 65 zeros (fst visc) (snd visc) ones zeros 1 2 zeros)
    as (P0 & _); [lia | apply zeros_steady; exact Hint |].
  rewrite P0.
  destruct (Compute_Artificial_Viscosity_unwritten 65 65 g zeros stale zeros 1 2)
    as (Ux & Uy); try (unfold av_block, av_edge_written; lia).
  fold visc in Ux, Uy. rewrite Ux, Uy.
  change (get2 65 stale 1 2) with 1. change (get2 65 zeros 1 2) with 0.
  change (get2 65 ones 1 2) with 1.
  unfold get3, zeros, rkappa, vel2ref, uinf.
  rewrite Rmax_right by lra. lra.
Qed.

(** ** Further properties on the 65 x 65 grid of the program *)

Lemma lid_field_initial : is_initial_field 65 65 lid_field.
Proof.
  intros i j k (Hi & Hj) Hk. unfold get3, idx3, lid_field, initial_value, neq in *.
  assert (Em : ((i * 65 * 3 + j * 3 + k) mod 3 = k)%Z).
  { replace (i * 65 * 3 + j * 3 + k)%Z with (k + (i * 65 + j) * 3)%Z by ring.
    rewrite Z_mod_plus_full. apply Z.mod_small. lia. }
  assert (Ed : (((i * 65 * 3 + j * 3 + k) / 3) mod 65 = j)%Z).
  { replace (i * 65 * 3 + j * 3 + k)%Z with (k + (i * 65 + j) * 3)%Z by ring.
    rewrite Z_div_plus_full by lia. rewrite (Z.div_small k 3) by lia.
    replace (0 + (i * 65 + j))%Z with (j + i * 65)%Z by ring.
    rewrite Z_mod_plus_full. apply Z.mod_small. lia. }
  rewrite Em, Ed.
  assert (Hc : (k = 0 \/ k = 1 \/ k = 2)%Z) by lia.
  destruct Hc as [-> | [-> | ->]].
  - reflexivity.
  - change (Z.eqb 1 0) with false. change (Z.eqb 1 1) with true. cbn [andb].
    destruct (Z.eq_dec 1 0) as [E|_]; [discriminate E|].
    destruct (Z.eq_dec 1 1) as [_|N]; [|contradiction].
    destruct (Z.eq_dec j (65 - 1)) as [->|N].
    + reflexivity.
    + assert (E : Z.eqb j 64 = false) by (apply Z.eqb_neq; lia). rewrite E. reflexivity.
  - reflexivity.
Qed.

Lemma initial_from_scratch_witness :
  (1 <= 65)%Z /\
  exists init, initial 65 65 0 None zeros zeros zeros = Some init /\
               in_ninit init = 1%Z /\ in_rtime init = 0.
Proof.
  assert (H : (1 <= 65)%Z) by lia.
  split; [exact H|].
  destruct (initial_from_scratch 65 65 None zeros zeros zeros H) as (init & E & N & T & _).
  exists init. split; [exact E|]. split; [exact N | exact T].
Defined.

Lemma bndry_extrapolates_pressure_witness :
  (4 <= 65)%Z /\ in_grid 65 65 0 5 /\
  get3 65 (bndry 65 65 zeros) 0 5 0
  = 2 * get3 65 (bndry 65 65 zeros) 1 5 0 - get3 65 (bndry 65 65 zeros) 2 5 0.
Proof.
  assert (H : (4 <= 65)%Z) by lia.
  assert (Hg : in_grid 65 65 0 5) by (unfold in_grid; lia).
  assert (Hr : (1 <= 5 <= 65 - 2)%Z) by lia.
  split; [exact H|]. split; [exact Hg|].
  exact (proj1 (proj2 (bndry_extrapolates_pressure 65 65 zeros 0 5 H H Hg)) eq_refl Hr).
Defined.

Lemma bndry_idempotent_witness :
  (4 <= 65)%Z /\ in_grid 65 65 3 4 /\ (0 <= 1 < neq)%Z /\
  get3 65 (bndry 65 65 (bndry 65 65 zeros)) 3 4 1 = get3 65 (bndry 65 65 zeros) 3 4 1.
Proof.
  assert (H : (4 <= 65)%Z) by lia.
  assert (Hg : in_grid 65 65 3 4) by (unfold in_grid; lia).
  assert (Hk : (0 <= 1 < neq)%Z) by (unfold neq; lia).
  split; [exact H|]. split; [exact Hg|]. split; [exact Hk|].
  exact (proj2 (bndry_idempotent 65 65 zeros zeros 3 4 1 H H Hg Hk)).
Defined.

Lemma bndry_fixes_entry_field_witness :
  (3 <= 65)%Z /\ is_initial_field 65 65 lid_field /\ in_grid 65 65 3 64 /\
  (0 <= 1 < neq)%Z /\
  get3 65 (bndry 65 65 lid_field) 3 64 1 = get3 65 lid_field 3 64 1.
Proof.
  assert (H : (3 <= 65)%Z) by lia.
  assert (Hg : in_grid 65 65 3 64) by (unfold in_grid; lia).
  assert (Hk : (0 <= 1 < neq)%Z) by (unfold neq; lia).
  split; [exact H|]. split; [exact lid_field_initial|]. split; [exact Hg|].
  split; [exact Hk|].
  exact (bndry_fixes_entry_field 65 65 lid_field 3 64 1 H H lid_field_initial Hg Hk).
Defined.

Lemma bndrymms_walls_witness :
  (4 <= 65)%Z /\ in_grid 65 65 0 0 /\
  get3 65 (bndrymms 65 65 zeros) 0 0 0 = get3 65 (bndry 65 65 zeros) 0 0 0.
Proof.
  assert (H : (4 <= 65)%Z) by lia.
  assert (Hg : in_grid 65 65 0 0) by (unfold in_grid; lia).
  split; [exact H|]. split; [exact Hg|].
  exact (proj1 (bndrymms_walls 65 65 zeros 0 0 H H Hg)).
Defined.

Lemma compute_source_terms_cells_witness :
  (2 <= 65)%Z /\ in_grid 65 65 3 4 /\ (0 <= 1 < neq)%Z /\ interior 65 65 3 4 /\
  get3 65 (compute_source_terms 65 65 0 zeros) 3 4 1 = 0.
Proof.
  assert (H : (2 <= 65)%Z) by lia.
  assert (Hg : in_grid 65 65 3 4) by (unfold in_grid; lia).
  assert (Hk : (0 <= 1 < neq)%Z) by (unfold neq; lia).
  assert (Hint : interior 65 65 3 4) by (unfold interior; lia).
  split; [exact H|]. split; [exact Hg|]. split; [exact Hk|]. split; [exact Hint|].
  exact (proj2 (proj1 (compute_source_terms_cells 65 65 0 zeros 3 4 1 H H Hg Hk) Hint)
           eq_refl).
Defined.

Lemma pressure_rescaling_idempotent_witness :
  (0 < 65)%Z /\ in_grid 65 65 3 4 /\ in_grid 65 65 5 6 /\
  get3 65 (pressure_rescaling 65 65 0 spike) 3 4 0
  - get3 65 (pressure_rescaling 65 65 0 spike) 5 6 0
  = get3 65 spike 3 4 0 - get3 65 spike 5 6 0.
Proof.
  assert (H : (0 < 65)%Z) by lia.
  assert (Hg : in_grid 65 65 3 4) by (unfold in_grid; lia).
  assert (Hg' : in_grid 65 65 5 6) by (unfold in_grid; lia).
  split; [exact H|]. split; [exact Hg|]. split; [exact Hg'|].
  exact (proj1 (pressure_rescaling_idempotent 65 65 0 spike 3 4 5 6 H H Hg Hg')).
Defined.

Lemma umms_bounded_witness :
  (0 <= 0 < neq)%Z /\ Rabs (umms 0 0 0 - phi0 0) <= phix 0 + phiy 0 + phixy 0.
Proof.
  assert (Hk : (0 <= 0 < neq)%Z) by (unfold neq; lia).
  split; [exact Hk|]. exact (umms_bounded 0 0 0 Hk).
Defined.

Lemma compute_time_step_positive_witness :
  (2 <= 65)%Z /\ 0 < 1 /\ in_grid 65 65 3 4 /\
  0 < snd (compute_time_step 65 65 fast zeros 1).
Proof.
  assert (H : (2 <= 65)%Z) by lia.
  assert (Hd : 0 < 1) by lra.
  assert (Hg : in_grid 65 65 3 4) by (unfold in_grid; lia).
  split; [exact H|]. split; [exact Hd|]. split; [exact Hg|].
  exact (proj1 (compute_time_step_positive 65 65 fast zeros ones 1 3 4 H H Hd Hg)).
Defined.

Lemma compute_time_step_interior_bounds_witness :
  (2 <= 65)%Z /\ interior 65 65 1 1 /\
  0 < get2 65 (fst (compute_time_step 65 65 fast zeros 1)) 1 1.
Proof.
  assert (H : (2 <= 65)%Z) by lia.
  assert (Hint : interior 65 65 1 1) by (unfold interior; lia).
  split; [exact H|]. split; [exact Hint|].
  exact (proj1 (compute_time_step_interior_bounds 65 65 fast zeros 1 1 1 H H Hint)).
Defined.

Lemma av_interior_and_corners_read_in_domain_witness :
  (5 <= 65)%Z /\
  Forall (in_dom 65 65)
    (fst (rd_bind (av_interior 65 65 spike (rd_ret (av_entry no_locals zeros zeros)))
            (av_corners 65 65 spike))).
Proof.
  assert (H : (5 <= 65)%Z) by lia.
  split; [exact H|].
  exact (av_interior_and_corners_read_in_domain 65 65 spike
           (av_entry no_locals zeros zeros) H H).
Defined.

Lemma SGS_sweeps_keep_steady_state_witness :
  steady_state 65 65 zeros zeros /\
  (forall i j, interior 65 65 i j -> get2 65 zeros i j + get2 65 zeros i j = 0) /\
  SGS_forward_sweep 65 65 zeros zeros zeros ones zeros 199%Z = zeros 199%Z.
Proof.
  assert (Hv : forall i j, interior 65 65 i j ->
                 get2 65 zeros i j + get2 65 zeros i j = 0).
  { intros i j _. unfold get2, zeros. apply Rplus_0_l. }
  split; [exact (zeros_steady 65 65)|]. split; [exact Hv|].
  exact (proj1 (SGS_sweeps_keep_steady_state 65 65 zeros zeros zeros ones zeros 199
                  (zeros_steady 65 65) Hv)).
Defined.

Lemma sgs_cell_reads_updated_velocity_witness :
  (0 <= 4 < 65)%Z /\
  get3 65 (sgs_cell 65 65 zeros zeros ones zeros 3 4 fast) 3 4 1
  = get3 65 (pj_cell 65 65 fast zeros zeros ones zeros 3 4 zeros) 3 4 1.
Proof.
  assert (Hj : (0 <= 4 < 65)%Z) by lia.
  split; [exact Hj|].
  exact (proj1 (proj2
    (sgs_cell_reads_updated_velocity 65 65 zeros zeros ones zeros 3 4 fast zeros Hj))).
Defined.

Lemma check_iterative_convergence_bounds_witness :
  (3 <= 65)%Z /\ (0 <= 1 < neq)%Z /\
  (forall i j, interior 65 65 i j -> get2 65 ones i j <> 0) /\
  (forall c, (0 <= c < neq)%Z -> 0 < ones c) /\
  0 <= fst (check_iterative_convergence 65 65 fast zeros ones zeros ones) 1%Z
    <= snd (check_iterative_convergence 65 65 fast zeros ones zeros ones).
Proof.
  assert (H : (3 <= 65)%Z) by lia.
  assert (Hk : (0 <= 1 < neq)%Z) by (unfold neq; lia).
  assert (Hd : forall i j, interior 65 65 i j -> get2 65 ones i j <> 0).
  { intros i j _. unfold get2, ones. exact R1_neq_R0. }
  assert (Hp : forall c, (0 <= c < neq)%Z -> 0 < ones c).
  { intros c _. unfold ones. exact Rlt_0_1. }
  split; [exact H|]. split; [exact Hk|]. split; [exact Hd|]. split; [exact Hp|].
  exact (proj1 (check_iterative_convergence_bounds 65 65 fast zeros ones zeros zeros
                  ones 1 H H Hk Hd Hp)).
Defined.

Lemma main_loop_keeps_source_and_orders_time_witness :
  selectable 65 65 (GS_iteration 65 65) /\ (2 <= 65)%Z /\
  0 < sv_dtmin (mkSolver all_zero zeros ones 0 1 0) /\
  f_src (sv_f (snd (main_loop 65 65 0 2 1 (GS_iteration 65 65) (bndry 65 65)
                      (fun _ => (no_locals, no_locals))
                      (mkSolver all_zero zeros ones 0 1 0))))
  = f_src (sv_f (mkSolver all_zero zeros ones 0 1 0)).
Proof.
  assert (Hs : selectable 65 65 (GS_iteration 65 65)) by (left; reflexivity).
  assert (H : (2 <= 65)%Z) by lia.
  assert (Hd : 0 < sv_dtmin (mkSolver all_zero zeros ones 0 1 0)) by exact Rlt_0_1.
  split; [exact Hs|]. split; [exact H|]. split; [exact Hd|].
  exact (proj1 (main_loop_keeps_source_and_orders_time 65 65 0 (GS_iteration 65 65)
                  (bndry 65 65) (fun _ => (no_locals, no_locals)) 2 1
                  (mkSolver all_zero zeros ones 0 1 0) Hs H H Hd)).
Defined.

Lemma set_derived_inputs_consistent_witness :
  (2 <= 65)%Z /\ xnode 65 (3 + 1) - xnode 65 3 = dx 65.
Proof.
  assert (H : (2 <= 65)%Z) by lia.
  split; [exact H|].
  exact (proj1 (proj2 (proj2 (set_derived_inputs_consistent 65 65 3 4 H H)))).
Defined.

Lemma PJ_iteration_overwrites_swapped_buffer_witness :
  (4 <= 65)%Z /\ in_grid 65 65 3 4 /\ (0 <= 1 < neq)%Z /\
  get3 65 (f_u (PJ_iteration 65 65 (bndry 65 65) no_locals
                  (mkFields (f_u all_zero) ones (f_src all_zero) (f_viscx all_zero)
                     (f_viscy all_zero) (f_dt all_zero)))) 3 4 1
  = get3 65 (f_u (PJ_iteration 65 65 (bndry 65 65) no_locals all_zero)) 3 4 1.
Proof.
  assert (H : (4 <= 65)%Z) by lia.
  assert (Hg : in_grid 65 65 3 4) by (unfold in_grid; lia).
  assert (Hk : (0 <= 1 < neq)%Z) by (unfold neq; lia).
  split; [exact H|]. split; [exact Hg|]. split; [exact Hk|].
  exact (PJ_iteration_overwrites_swapped_buffer 65 65 no_locals all_zero ones 3 4 1
           H H Hg Hk).
Defined.

Lemma main_body_field_obeys_wall_conditions_witness :
  selectable 65 65 (GS_iteration 65 65) /\ (4 <= 65)%Z /\
  wall_pressure_extrapolated 65 65
    (f_u (sv_f (main_body 65 65 0 (GS_iteration 65 65) (bndry 65 65)
                  (no_locals, no_locals) (mkSolver all_zero zeros ones 0 1 0)))).
Proof.
  assert (Hs : selectable 65 65 (GS_iteration 65 65)) by (left; reflexivity).
  assert (H : (4 <= 65)%Z) by lia.
  split; [exact Hs|]. split; [exact H|].
  exact (proj1 (main_body_field_obeys_wall_conditions 65 65 0 (GS_iteration 65 65)
                  (no_locals, no_locals) (mkSolver all_zero zeros ones 0 1 0) Hs H H)).
Defined.

(** ** One Symmetric Gauss-Seidel iteration on decoupled pressure columns *)

Lemma checker_at (i j k : Z) :
  (0 <= i < 65)%Z -> (0 <= j < 65)%Z -> (0 <= k < neq)%Z ->
  get3 65 checker i j k
  = if Z.eq_dec k 0 then (if Z.even i then 1 else 0) else 0.
Proof.
  intros Hi Hj Hk. unfold get3, idx3, checker, neq in *.
  assert (Em : ((i * 65 * 3 + j * 3 + k) mod 3 = k)%Z).
  { replace (i * 65 * 3 + j * 3 + k)%Z with (k + (i * 65 + j) * 3)%Z by ring.
    rewrite Z_mod_plus_full. apply Z.mod_small. lia. }
  assert (Ed : ((i * 65 * 3 + j * 3 + k) / 195 = i)%Z).
  { replace (i * 65 * 3 + j * 3 + k)%Z with ((j * 3 + k) + i * 195)%Z by ring.
    rewrite Z_div_plus_full by lia. rewrite Z.div_small by lia. lia. }
  rewrite Em, Ed.
  destruct (Z.eq_dec k 0) as [->|N].
  - reflexivity.
  - assert (E : Z.eqb k 0 = false) by (apply Z.eqb_neq; exact N).
    rewrite E. reflexivity.
Qed.

Lemma checker_pressure (i j : Z) :
  (0 <= i < 65)%Z -> (0 <= j < 65)%Z ->
  get3 65 checker i j 0 = if Z.even i then 1 else 0.
Proof.
  intros Hi Hj. rewrite checker_at by (unfold neq; lia).
  destruct (Z.eq_dec 0 0) as [_|N]; [reflexivity | contradiction].
Qed.

Lemma checker_velocity (i j k : Z) :
  (0 <= i < 65)%Z -> (0 <= j < 65)%Z -> (k = 1 \/ k = 2)%Z ->
  get3 65 checker i j k = 0.
Proof.
  intros Hi Hj Hk. rewrite checker_at by (unfold neq; lia).
  destruct (Z.eq_dec k 0) as [E|_]; [lia | reflexivity].
Qed.

(** All central differences of the decoupled field vanish: the pressure of
    the two neighbours of a cell in x is the same, and the field does not
    vary in y. *)
Lemma checker_steady : steady_state 65 65 checker zeros.
Proof.
  intros i j Hint. unfold interior in Hint. unfold steady_at.
  assert (E : Z.even (i + 1) = Z.even (i - 1)).
  { rewrite Z.even_add, Z.even_sub. reflexivity. }
  rewrite !checker_pressure by lia.
  rewrite !checker_velocity by lia.
  rewrite E.
  repeat split; unfold get3, zeros, Rdiv; ring.
Qed.

(** The array [marked] is zero at every cell but (4, 4). *)
Lemma marked_elsewhere (i j : Z) :
  in_grid 65 65 i j -> ~ (i = 4 /\ j = 4)%Z -> get2 65 marked i j = 0.
Proof.
  intros Hg Hne. unfold in_grid in Hg. unfold get2, idx2, marked.
  destruct (Z.eqb_spec (i * 65 + j) 264) as [E|_]; [exfalso; lia | reflexivity].
Qed.

(** With [marked] and the zero array on entry, the two dissipation entries
    of every cell of the grid cancel after the operator has run (the locals
    being real numbers): the operator stores zero in the cells it assigns,
    (4, 4) among them, and the others are zero already. *)
Lemma marked_dissipation_cancels (g : AVlocals) (u : Array3) (i j : Z) :
  in_grid 65 65 i j ->
  get2 65 (fst (Compute_Artificial_Viscosity 65 65 g u marked zeros)) i j
  + get2 65 (snd (Compute_Artificial_Viscosity 65 65 g u marked zeros)) i j = 0.
Proof.
  intros Hg.
  assert (H6 : (6 <= 65)%Z) by lia.
  destruct (Compute_Artificial_Viscosity_cells 65 65 g u marked zeros i j H6 H6 Hg)
    as (Hw & Hn).
  assert (D : (av_block 65 65 i j \/ av_edge_written 65 65 i j) \/
              (~ av_block 65 65 i j /\ ~ av_edge_written 65 65 i j)).
  { unfold av_block, av_edge_written. lia. }
  destruct D as [D | (Db & De)].
  - destruct (Hw D) as (A & B). rewrite A, B. apply Rplus_0_l.
  - destruct (Hn Db De) as (A & B). rewrite A, B.
    rewrite marked_elsewhere; [|exact Hg|].
    + unfold get2, zeros. apply Rplus_0_l.
    + intros (-> & ->). apply Db. unfold av_block. lia.
Qed.

(** The forward sweep and the boundary conditions leave the interior of the
    decoupled field as it was. *)
Lemma checker_relaxed (g1 : AVlocals) (i j k : Z) :
  interior 65 65 i j -> (0 <= k < neq)%Z ->
  get3 65
    (bndry 65 65
       (SGS_forward_sweep 65 65 checker
          (fst (Compute_Artificial_Viscosity 65 65 g1 checker marked zeros))
          (snd (Compute_Artificial_Viscosity 65 65 g1 checker marked zeros))
          ones zeros)) i j k
  = get3 65 checker i j k.
Proof.
  intros Hint Hk. rewrite bndry_interior by assumption.
  unfold get3. apply SGS_forward_sweep_steady.
  - exact checker_steady.
  - intros a b Hab. apply marked_dissipation_cancels.
    unfold interior in Hab. unfold in_grid. lia.
Qed.

(** C7 (the code departs from it in the fifth step).  On the 65 x 65 grid:

    For every input, one Symmetric Gauss-Seidel iteration is the sequence
    copy, forward sweep, boundary conditions, second run of the dissipation
    operator, backward sweep, boundary conditions: [uold] becomes a snapshot
    of the field on entry and no sweep reads it; a sweep assigns interior
    cells only, and the value it stores in an interior cell is [gs_update]
    of the cell with the west and south neighbours already updated in the
    forward sweep (ascending i, then ascending j) and the east and north
    neighbours already updated in the backward sweep (descending i, then
    descending j).

    The dissipation used in the backward sweep, however, is not derived
    from the partially relaxed field.  For the fluid at rest with the
    pressure 1 in the even and 0 in the odd columns (source zero, steps 1,
    [viscy] zero and [viscx] zero but for the value 1 in cell (4,4)): the
    partially relaxed field has the pressures 1, 0, 1, 0, 1 in the cells
    (2..6, 4), so the dissipation of the specification at cell (4,4),
    [-|lambda_x|*Cx*dx^3*(8/dx^4)/beta2], is strictly negative; the
    iteration overwrites [viscx(4,4)] and leaves 0 there, whatever the
    never-assigned locals of the two runs of the operator are. *)
Theorem GS_iteration_dissipation_not_from_relaxed_field (g1 g2 : AVlocals) :
  (forall (set_boundary_conditions : boundaryConditionPointer) (f : Fields),
     let u0 := f_u f in
     let visc1 := Compute_Artificial_Viscosity 65 65 g1 u0 (f_viscx f) (f_viscy f) in
     let u1 := SGS_forward_sweep 65 65 u0 (fst visc1) (snd visc1) (f_dt f) (f_src f) in
     let u2 := set_boundary_conditions u1 in
     let visc2 := Compute_Artificial_Viscosity 65 65 g2 u2 (fst visc1) (snd visc1) in
     let u3 := SGS_backward_sweep 65 65 u2 (fst visc2) (snd visc2) (f_dt f) (f_src f) in
     let f' := GS_iteration 65 65 set_boundary_conditions g1 g2 f in
     f_u f' = set_boundary_conditions u3 /\
     f_viscx f' = fst visc2 /\ f_viscy f' = snd visc2 /\
     (forall n, (0 <= n < 65 * 65 * neq)%Z -> f_uold f' n = u0 n) /\
     (forall uold',
        f_u (GS_iteration 65 65 set_boundary_conditions g1 g2
               (mkFields (f_u f) uold' (f_src f) (f_viscx f) (f_viscy f) (f_dt f)))
        = f_u f') /\
     (forall n, off_interior 65 65 n -> u1 n = u0 n) /\
     (forall i j k, interior 65 65 i j -> (0 <= k < neq)%Z ->
        get3 65 u1 i j k =
        gs_update 65 65 (fst visc1) (snd visc1) (f_dt f) (f_src f) i j
          (get3 65 u0 i j) (get3 65 u1 (i - 1) j) (get3 65 u0 (i + 1) j)
          (get3 65 u1 i (j - 1)) (get3 65 u0 i (j + 1)) k) /\
     (forall n, off_interior 65 65 n -> u3 n = u2 n) /\
     (forall i j k, interior 65 65 i j -> (0 <= k < neq)%Z ->
        get3 65 u3 i j k =
        gs_update 65 65 (fst visc2) (snd visc2) (f_dt f) (f_src f) i j
          (get3 65 u2 i j) (get3 65 u2 (i - 1) j) (get3 65 u3 (i + 1) j)
          (get3 65 u2 i (j - 1)) (get3 65 u3 i (j + 1)) k)) /\
  (let f := mkFields checker zeros zeros marked zeros ones in
   let visc1 := Compute_Artificial_Viscosity 65 65 g1 checker marked zeros in
   let u2 := bndry 65 65
               (SGS_forward_sweep 65 65 checker (fst visc1) (snd visc1) ones zeros) in
   let f' := GS_iteration 65 65 (bndry 65 65) g1 g2 f in
   get3 65 u2 2 4 0 = 1 /\ get3 65 u2 3 4 0 = 0 /\ get3 65 u2 4 4 0 = 1 /\
   get3 65 u2 5 4 0 = 0 /\ get3 65 u2 6 4 0 = 1 /\
   spec_viscx 65 65 u2 4 4 < 0 /\
   get2 65 (f_viscx f) 4 4 = 1 /\
   get2 65 (f_viscx f') 4 4 = 0).
Proof.
  split; [intros bc f; exact (GS_iteration_steps 65 65 bc g1 g2 f)|].
  intros f visc1 u2 f'.
  assert (K0 : (0 <= 0 < neq)%Z) by (unfold neq; lia).
  assert (K1 : (0 <= 1 < neq)%Z) by (unfold neq; lia).
  assert (K2 : (0 <= 2 < neq)%Z) by (unfold neq; lia).
  assert (Hrel : forall i j k, interior 65 65 i j -> (0 <= k < neq)%Z ->
            get3 65 u2 i j k = get3 65 checker i j k).
  { intros i j k Hint Hk. exact (checker_relaxed g1 i j k Hint Hk). }
  assert (I2 : interior 65 65 2 4) by (unfold interior; lia).
  assert (I3 : interior 65 65 3 4) by (unfold interior; lia).
  assert (I4 : interior 65 65 4 4) by (unfold interior; lia).
  assert (I5 : interior 65 65 5 4) by (unfold interior; lia).
  assert (I6 : interior 65 65 6 4) by (unfold interior; lia).
  assert (E2 : get3 65 u2 2 4 0 = 1) by (rewrite (Hrel _ _ _ I2 K0); reflexivity).
  assert (E3 : get3 65 u2 3 4 0 = 0) by (rewrite (Hrel _ _ _ I3 K0); reflexivity).
  assert (E4 : get3 65 u2 4 4 0 = 1) by (rewrite (Hrel _ _ _ I4 K0); reflexivity).
  assert (E5 : get3 65 u2 5 4 0 = 0) by (rewrite (Hrel _ _ _ I5 K0); reflexivity).
  assert (E6 : get3 65 u2 6 4 0 = 1) by (rewrite (Hrel _ _ _ I6 K0); reflexivity).
  assert (Eu : get3 65 u2 4 4 1 = 0) by (rewrite (Hrel _ _ _ I4 K1); reflexivity).
  assert (Ev : get3 65 u2 4 4 2 = 0) by (rewrite (Hrel _ _ _ I4 K2); reflexivity).
  split; [exact E2|]. split; [exact E3|]. split; [exact E4|]. split; [exact E5|].
  split; [exact E6|]. split.
  - clearbody u2. clear Hrel f f' visc1.
    assert (Hb : spec_beta2 65 u2 4 4 = 1 / 10).
    { unfold spec_beta2, rkappa, vel2ref, uinf. rewrite Eu, Ev.
      rewrite Rmax_right; lra. }
    unfold spec_viscx. rewrite Hb.
    assert (Hl : 0 < Rabs (spec_lambda 65 u2 4 4 1)).
    { apply Rabs_pos_lt. unfold spec_lambda. rewrite Hb, Eu. rewrite Rabs_R0.
      assert (Hs : 0 < sqrt (0 * 0 + 4 * (1 / 10))) by (apply sqrt_lt_R0; lra).
      lra. }
    change (4 + 2)%Z with 6%Z. change (4 + 1)%Z with 5%Z.
    change (4 - 1)%Z with 3%Z. change (4 - 2)%Z with 2%Z.
    rewrite E2, E3, E4, E5, E6.
    pose proof dx65_pos as Hdx.
    set (L := Rabs (spec_lambda 65 u2 4 4 1)) in *.
    set (h := dx 65) in *.
    clearbody L h.
    assert (H3 : 0 < h * h * h) by (repeat apply Rmult_lt_0_compat; assumption).
    assert (H4 : 0 < h * h * h * h) by (repeat apply Rmult_lt_0_compat; assumption).
    assert (Hq : 0 < (1 - 4 * 0 + 6 * 1 - 4 * 0 + 1) / (h * h * h * h)).
    { apply Rdiv_lt_0_compat; [lra | exact H4]. }
    set (q := (1 - 4 * 0 + 6 * 1 - 4 * 0 + 1) / (h * h * h * h)) in *.
    clearbody q.
    assert (Hp : 0 < L * Cx * (h * h * h) * q).
    { unfold Cx. repeat apply Rmult_lt_0_compat; try assumption; lra. }
    replace (- L * Cx * (h * h * h) * q / (1 / 10))
      with (- (10 * (L * Cx * (h * h * h) * q))) by (field).
    lra.
  - split; [reflexivity|].
    unfold f'. rewrite GS_iteration_viscx. cbv zeta.
    assert (Hblk : av_block 65 65 4 4) by (unfold av_block; lia).
    exact (proj1 (Compute_Artificial_Viscosity_interior_zero 65 65 g2 _ _ _ 4 4 Hblk)).
Qed.
